(** * MrMustard: Fock recursion, Gaussian mapper, manifold updates

    A shallow embedding of the numerical core of MrMustard
    ([mrmustard/_backends/tfbackend.py], [mrmustard/plugins/trainplugin.py])
    and the properties its specification states about it.

    Number model.  The program computes with [float64] and [complex128]
    tensors.  They are embedded in exact arithmetic: a [float64] scalar is an
    element of a real (closed) field, a [complex128] scalar an element of a
    closed number field with conjugation, and in the components that mix
    both, a [float64] value is a real element of the complex field.  Rounding
    is therefore not modelled; every equation below is an equation of exact
    arithmetic.  The transcendental functions of the numerical libraries
    ([exp], [expm], complex powers) are parameters, constrained only by the
    algebraic laws the proofs use.

    Tensor model.  A rank-2 tensor whose shape is fixed by its type is a
    MathComp matrix; the Fock tensor, whose rank depends on the number of
    modes, is an [ndarray]: a shape and a map from multi-indices to entries.

    Failure model.  A Python exception is a value of [exn]; a call that can
    raise returns a [result]. *)

Set Warnings "-notation-overridden,-ambiguous-paths,-rewrite-rw".
Set Warnings "-notation-for-abbreviation".
From HB Require Import structures.
From mathcomp Require Import boot order algebra field.

Set Implicit Arguments.
Unset Strict Implicit.
Unset Printing Implicit Defensive.

Import Order.TTheory GRing.Theory Num.Theory.
Local Open Scope ring_scope.

(** ** Exceptions *)

Inductive exn : Type :=
| ValueError
| IndexError
| TypeError
| NotImplementedError
| InvalidArgumentError.

Definition result (T : Type) : Type := (exn + T)%type.

Definition Ok {T : Type} (x : T) : result T := inr x.
Definition Raise {T : Type} (e : exn) : result T := inl e.

Definition is_ok {T : Type} (r : result T) : bool :=
  if r is inr _ then true else false.

(** ** TFGateBackend: channel primitives *)

Module GateBackend.
Section Loss.

Variable R : rcfType.
Variable N : nat.

(** [tf.linalg.diag(tf.concat([D, D], axis=0))] *)
Definition diag_concat (D : 'rV[R]_N) : 'M[R]_(N + N) := diag_mx (row_mx D D).

(** [loss_X]: [D = tf.math.sqrt(transmissivity)] *)
Definition loss_X (transmissivity : 'rV[R]_N) : 'M[R]_(N + N) :=
  let D := map_mx Num.sqrt transmissivity in
  diag_concat D.

(** [loss_Y]: [D = tf.math.sqrt((1.0-transmissivity)*hbar/2.0)] *)
Definition loss_Y (transmissivity : 'rV[R]_N) (hbar : R) : 'M[R]_(N + N) :=
  let D := map_mx (fun t => Num.sqrt ((1 - t) * hbar / 2)) transmissivity in
  diag_concat D.

(** The docstring of both primitives: the channel acts on a covariance
    matrix [Sigma] as [X Sigma X^T + Y]. *)
Definition apply_channel (X Y Sigma : 'M[R]_(N + N)) : 'M[R]_(N + N) :=
  X *m Sigma *m X^T + Y.

(** [thermal_X], [thermal_Y]: the body is [raise NotImplementedError]. *)
Definition thermal_X (nbar : 'rV[R]_N) (hbar : R)
  : result ('M[R]_(N + N) * 'M[R]_(N + N)) := Raise NotImplementedError.

Definition thermal_Y (nbar : 'rV[R]_N) (hbar : R)
  : result ('M[R]_(N + N) * 'M[R]_(N + N)) := Raise NotImplementedError.

Definition ones : 'rV[R]_N := const_mx 1.

Lemma diag_concat_const (c : R) : diag_concat (const_mx c) = c%:M.
Proof.
apply/matrixP => i j; rewrite /diag_concat !mxE.
by case: splitP => k _; rewrite !mxE.
Qed.

Lemma loss_X_ones : loss_X ones = 1%:M.
Proof.
rewrite /loss_X /ones /=.
have -> : map_mx Num.sqrt (const_mx 1 : 'rV[R]_N) = const_mx 1.
  by apply/matrixP => i j; rewrite !mxE sqrtr1.
exact: diag_concat_const.
Qed.

Lemma loss_Y_ones (hbar : R) : loss_Y ones hbar = 0.
Proof.
rewrite /loss_Y /ones /=.
have -> : map_mx (fun t => Num.sqrt ((1 - t) * hbar / 2))
            (const_mx 1 : 'rV[R]_N) = const_mx 0.
  by apply/matrixP => i j; rewrite !mxE subrr !mul0r sqrtr0.
by rewrite diag_concat_const; apply/matrixP => i j; rewrite !mxE mul0rn.
Qed.

(** C10. At full transmissivity the lossy channel is trivial: [loss_X] of the
    all-ones vector is the 2N x 2N identity, [loss_Y] of the all-ones vector
    is the 2N x 2N zero matrix (for every [hbar], in particular every
    [hbar > 0]), and [X Sigma X^T + Y] returns every covariance matrix
    unchanged. *)
Theorem loss_channel_full_transmissivity (hbar : R) :
  [/\ loss_X ones = 1%:M,
      loss_Y ones hbar = 0 &
      forall Sigma : 'M[R]_(N + N),
        apply_channel (loss_X ones) (loss_Y ones hbar) Sigma = Sigma].
Proof.
split=> [||Sigma]; first exact: loss_X_ones.
  exact: loss_Y_ones.
by rewrite /apply_channel loss_X_ones loss_Y_ones trmx1 mul1mx mulmx1 addr0.
Qed.

(** C9. Requesting a thermal-channel matrix raises [NotImplementedError] on
    every input: no matrix is ever returned. *)
Theorem thermal_unsupported (nbar : 'rV[R]_N) (hbar : R) :
  [/\ thermal_X nbar hbar = Raise NotImplementedError,
      thermal_Y nbar hbar = Raise NotImplementedError,
      ~~ is_ok (thermal_X nbar hbar) &
      ~~ is_ok (thermal_Y nbar hbar)].
Proof. by []. Qed.

End Loss.
End GateBackend.

(** ** Manifold-constrained parameters: retraction updates *)

Module Manifold.

(** The (1,1) Pade approximant of the exponential,
    [(1 - X/2)^-1 (1 + X/2)], total by returning the identity where a factor
    is singular.  It obeys the algebraic laws of [expm_laws] below over every
    field, and serves as an exactly computable instance of them. *)
Definition pade_expm (F : fieldType) (m : nat) (X : 'M[F]_m) : 'M[F]_m :=
  let P := 1%:M - 2^-1 *: X in
  let Q := 1%:M + 2^-1 *: X in
  if (P \in unitmx) && (Q \in unitmx) then invmx P *m Q else 1%:M.

Section Updates.

Variable R : numFieldType.

(** Modelled from the spec: [utils.J] is not part of the sources; the spec
    gives J as the 2n x 2n canonical symplectic form with blocks
    [[0, I], [-I, 0]]. *)
Definition J (n : nat) : 'M[R]_(n + n) := block_mx 0 1%:M (- 1%:M) 0.

(** [scipy.linalg.expm] / [self._backend.expm] *)
Variable expm : forall m : nat, 'M[R]_m -> 'M[R]_m.

(** The laws of the matrix exponential that the retractions rely on:
    it commutes with transposition and with similarity, and [expm (-X)]
    inverts [expm X]. *)
Record expm_laws : Prop := ExpmLaws {
  expm_tr : forall m (X : 'M[R]_m), expm X^T = (expm X)^T;
  expm_opp : forall m (X : 'M[R]_m), expm (- X) *m expm X = 1%:M;
  expm_sim : forall m (U X : 'M[R]_m), U \in unitmx ->
    expm (U *m X *m invmx U) = U *m expm X *m invmx U
}.

Section Symplectic.

Variable n : nat.
Implicit Types S Z Y H dS : 'M[R]_(n + n).

Definition symplectic S : bool := S^T *m J n *m S == J n.

(** The projection computed inside [_update_symplectic]:
    [Z = S^T dS], [Y = 0.5 * (Z + J Z^T J)]. *)
Definition symplectic_projection S dS_eucl :=
  let Jmat := J n in
  let Z := S^T *m dS_eucl in
  2^-1 *: (Z + Jmat *m Z^T *m Jmat).

(** One iteration of the loop of [TFOptimizerBackend._update_symplectic]:
    the value assigned to [S]. *)
Definition _update_symplectic_step (lr : R) S dS_eucl :=
  let Y := symplectic_projection S dS_eucl in
  S *m expm (- lr *: Y^T) *m expm (- lr *: (Y - Y^T)).

(** [_update_symplectic]: [for S, dS_eucl in zip(params, grads): S.assign(..)].
    The variables are updated in place; [zip] stops at the shorter sequence,
    so parameters beyond the last gradient keep their value. *)
Fixpoint _update_symplectic (lr : R) (symplectic_grads symplectic_params :
    seq 'M[R]_(n + n)) : seq 'M[R]_(n + n) :=
  match symplectic_params, symplectic_grads with
  | S_ :: params, dS_eucl :: grads =>
      _update_symplectic_step lr S_ dS_eucl
        :: _update_symplectic lr grads params
  | params, _ => params
  end.

(** [TrainPlugin.update_symplectic]: the same loop, with the projection
    delegated to the backend. *)
Variable riemann_to_symplectic : 'M[R]_(n + n) -> 'M[R]_(n + n) -> 'M[R]_(n + n).

Definition update_symplectic_step (symplectic_lr : R) S dS_riemann :=
  let Y := riemann_to_symplectic S dS_riemann in
  let YT := Y^T in
  S *m (expm (- symplectic_lr *: YT) *m expm (- symplectic_lr *: (Y - YT))).

Fixpoint update_symplectic (symplectic_params symplectic_grads :
    seq 'M[R]_(n + n)) (symplectic_lr : R) : seq 'M[R]_(n + n) :=
  match symplectic_params, symplectic_grads with
  | S_ :: params, dS :: grads =>
      update_symplectic_step symplectic_lr S_ dS
        :: update_symplectic params grads symplectic_lr
  | params, _ => params
  end.

(** Entrywise closeness, the form of the tolerance tests. *)
Definition within (m : nat) (eps : R) (A B : 'M[R]_m) : Prop :=
  forall i j, `|A i j - B i j| <= eps.

(** Members of the Lie algebra sp(2n): [H = J H^T J]. *)
Definition hamiltonian H : bool := H == J n *m H^T *m J n.

End Symplectic.

Section Orthogonal.

Variable n : nat.
Implicit Types O D dO : 'M[R]_n.

Definition orthogonal O : bool := O^T *m O == 1%:M.

(** One iteration of the loop of [TrainPlugin.update_orthogonal]. *)
Definition update_orthogonal_step (orthogonal_lr : R) O dO_riemann :=
  let D := 2^-1 *: (dO_riemann - O *m dO_riemann^T *m O) in
  O *m expm (orthogonal_lr *: (D^T *m O)).

Fixpoint update_orthogonal (orthogonal_params orthogonal_grads : seq 'M[R]_n)
    (orthogonal_lr : R) : seq 'M[R]_n :=
  match orthogonal_params, orthogonal_grads with
  | O_ :: params, dO :: grads =>
      update_orthogonal_step orthogonal_lr O_ dO
        :: update_orthogonal params grads orthogonal_lr
  | params, _ => params
  end.

End Orthogonal.

End Updates.

Section SymplecticForm.

Variable R : numFieldType.
Variable n : nat.

Local Notation J := (J R n).

Lemma J_sq : J *m J = - 1%:M.
Proof.
rewrite /Manifold.J mulmx_block !mul0mx !mulmx0 !mul1mx !mulmx1 !add0r !addr0.
by rewrite (scalar_mx_block n n 1) opp_block_mx !oppr0.
Qed.

Lemma J_tr : J^T = - J.
Proof.
by rewrite /Manifold.J tr_block_mx opp_block_mx !trmx0 linearN /= trmx1
           !oppr0 opprK.
Qed.

Lemma J_unit : J \in unitmx.
Proof.
have /mulmx1_unit [] // : J *m (- J) = 1%:M.
by rewrite mulmxN J_sq opprK.
Qed.

Lemma J_inv : invmx J = - J.
Proof.
by rewrite -[RHS]mul1mx -(mulVmx J_unit) -mulmxA mulmxN J_sq opprK mulmx1.
Qed.

End SymplecticForm.

Section LieAlgebra.

Variable R : numFieldType.
Variable n : nat.
Implicit Types S H Z dS : 'M[R]_(n + n).

Local Notation J := (J R n).

Lemma hamiltonianP H : reflect (H = J *m H^T *m J) (hamiltonian H).
Proof. exact: eqP. Qed.

Lemma conjJ_tr H : (J *m H *m J)^T = J *m H^T *m J.
Proof. by rewrite !trmx_mul J_tr !(mulNmx, mulmxN) opprK mulmxA. Qed.

Lemma conjJ_conjJ H : J *m (J *m H *m J) *m J = H.
Proof.
by rewrite !mulmxA J_sq -!mulmxA J_sq mulNmx mul1mx mulmxN mulmx1 opprK.
Qed.

Lemma hamiltonian_projection S dS : hamiltonian (symplectic_projection S dS).
Proof.
apply/hamiltonianP; rewrite /symplectic_projection /=.
set Z := S^T *m dS.
rewrite linearZ /= -scalemxAr -scalemxAl; congr (_ *: _).
rewrite linearD /= conjJ_tr trmxK mulmxDr mulmxDl conjJ_conjJ.
by rewrite addrC.
Qed.

Lemma hamiltonian_tr H : hamiltonian H -> hamiltonian H^T.
Proof.
move/hamiltonianP => eqH; apply/hamiltonianP.
by rewrite trmxK [in LHS]eqH conjJ_tr trmxK.
Qed.

Lemma hamiltonian_scale (a : R) H : hamiltonian H -> hamiltonian (a *: H).
Proof.
move/hamiltonianP => eqH; apply/hamiltonianP.
by rewrite linearZ /= -scalemxAr -scalemxAl -eqH.
Qed.

Lemma hamiltonian_sub H1 H2 :
  hamiltonian H1 -> hamiltonian H2 -> hamiltonian (H1 - H2).
Proof.
move=> /hamiltonianP eq1 /hamiltonianP eq2; apply/hamiltonianP.
by rewrite linearB /= mulmxBr mulmxBl -eq1 -eq2.
Qed.

Lemma symplectic_mul S1 S2 :
  symplectic S1 -> symplectic S2 -> symplectic (S1 *m S2).
Proof.
rewrite /symplectic => /eqP eq1 /eqP eq2.
have -> : (S1 *m S2)^T *m J *m (S1 *m S2) = S2^T *m (S1^T *m J *m S1) *m S2.
  by rewrite trmx_mul !mulmxA.
by rewrite eq1 eq2.
Qed.

End LieAlgebra.

Section Retraction.

Variable R : numFieldType.
Variable expm : forall m : nat, 'M[R]_m -> 'M[R]_m.
Hypothesis laws : expm_laws expm.

Lemma within_refl (m : nat) (eps : R) (A : 'M[R]_m) : 0 <= eps -> within eps A A.
Proof. by move=> eps0 i j; rewrite subrr normr0. Qed.

Section SymplecticRetraction.

Variable n : nat.
Implicit Types S H dS : 'M[R]_(n + n).

Local Notation J := (J R n).

(** The exponential of a Hamiltonian matrix is symplectic. *)
Lemma expm_hamiltonian H : hamiltonian H -> symplectic (expm H).
Proof.
move=> hamH; have /hamiltonianP eqHT := hamiltonian_tr hamH.
rewrite trmxK in eqHT.
have eqT : (expm H)^T = J *m expm (- H) *m invmx J.
  rewrite -(expm_tr laws) -(expm_sim laws) ?J_unit // J_inv.
  by rewrite mulmxN mulmxN mulNmx opprK -eqHT.
by rewrite /symplectic eqT -!mulmxA mulKmx ?J_unit // (expm_opp laws) mulmx1.
Qed.

Lemma _update_symplectic_step_symplectic (lr : R) S dS :
  symplectic S -> symplectic (_update_symplectic_step expm lr S dS).
Proof.
move=> sympS; rewrite /_update_symplectic_step /=.
have hamY := hamiltonian_projection S dS.
apply: symplectic_mul; first apply: symplectic_mul => //.
  by apply/expm_hamiltonian/hamiltonian_scale/hamiltonian_tr.
apply/expm_hamiltonian/hamiltonian_scale/hamiltonian_sub => //.
exact: hamiltonian_tr.
Qed.

Lemma _update_symplectic_all (lr : R) (grads params : seq 'M[R]_(n + n)) :
  all (@symplectic R n) params ->
  all (@symplectic R n) (_update_symplectic expm lr grads params).
Proof.
elim: params grads => [|S params IH] [|dS grads] //= /andP[sympS sympP].
by rewrite _update_symplectic_step_symplectic ?IH.
Qed.

(** The loop as a whole: [zip] pairs the parameters with the gradients, each
    pair is assigned its step, the remaining parameters are kept. *)
Lemma _update_symplecticE (lr : R) (grads params : seq 'M[R]_(n + n)) :
  _update_symplectic expm lr grads params
  = [seq _update_symplectic_step expm lr pg.1 pg.2 | pg <- zip params grads]
    ++ drop (size grads) params.
Proof.
elim: params grads => [|S params IH] [|dS grads] //=.
by rewrite IH.
Qed.

(** [TrainPlugin.update_symplectic] assigns the same value as the TensorFlow
    backend when [riemann_to_symplectic] is the backend's projection. *)
Lemma update_symplectic_stepE (lr : R) S dS :
  update_symplectic_step expm (@symplectic_projection R n) lr S dS
  = _update_symplectic_step expm lr S dS.
Proof. by rewrite /update_symplectic_step /_update_symplectic_step /= mulmxA. Qed.

Lemma update_symplecticE (lr : R) (grads params : seq 'M[R]_(n + n)) :
  update_symplectic expm (@symplectic_projection R n) params grads lr
  = _update_symplectic expm lr grads params.
Proof.
elim: params grads => [|S params IH] [|dS grads] //=.
by rewrite update_symplectic_stepE IH.
Qed.

(** Any number of retraction steps, each with its own learning rate and
    ambient gradient. *)
Definition symplectic_steps S (steps : seq (R * 'M[R]_(n + n))) :=
  foldl (fun S' st => _update_symplectic_step expm st.1 S' st.2) S steps.

Lemma symplectic_steps_symplectic S steps :
  symplectic S -> symplectic (symplectic_steps S steps).
Proof.
elim: steps S => [|[lr dS] steps IH] S //= sympS.
exact/IH/_update_symplectic_step_symplectic.
Qed.

(** C3. For a symplectic [S], an ambient gradient [dS_eucl] and a learning
    rate [lr], the update computes [Z = S^T dS_eucl], [Y = (Z + J Z^T J)/2]
    and assigns [S * expm(-lr Y^T) * expm(-lr (Y - Y^T))]; the new value
    satisfies [S^T J S = J], hence is within every tolerance of [J], and so
    does the value reached after any number of such steps (each with its own
    gradient and rate).  The loop of [_update_symplectic] assigns this value
    to every parameter that [zip] pairs with a gradient and keeps the other
    parameters, [TrainPlugin.update_symplectic] with the projection of the
    backend assigns the same values, and symplectic parameters are
    symplectic after the update. *)
Theorem symplectic_update_invariant (lr : R) S dS_eucl :
  symplectic S ->
  let Z := S^T *m dS_eucl in
  let Y := 2^-1 *: (Z + J *m Z^T *m J) in
  let S' := _update_symplectic_step expm lr S dS_eucl in
  [/\ S' = S *m expm (- lr *: Y^T) *m expm (- lr *: (Y - Y^T)),
      S'^T *m J *m S' = J,
      forall eps, 0 <= eps -> within eps (S'^T *m J *m S') J,
      forall steps eps, 0 <= eps ->
        let Sk := symplectic_steps S steps in
        within eps (Sk^T *m J *m Sk) J
    & forall grads params,
        let updated := _update_symplectic expm lr grads params in
        [/\ updated
            = [seq _update_symplectic_step expm lr pg.1 pg.2
              | pg <- zip params grads] ++ drop (size grads) params,
            update_symplectic expm (@symplectic_projection R n) params grads lr
            = updated
          & all (@symplectic R n) params -> all (@symplectic R n) updated]].
Proof.
move=> sympS /=.
have /eqP eqS' := _update_symplectic_step_symplectic lr dS_eucl sympS.
split=> // [eps eps0|steps eps eps0|grads params].
- by rewrite eqS'; apply: within_refl.
- have /eqP -> := symplectic_steps_symplectic steps sympS.
  exact: within_refl.
- split; first exact: _update_symplecticE.
    exact: update_symplecticE.
  exact: _update_symplectic_all.
Qed.

End SymplecticRetraction.

Section OrthogonalRetraction.

Variable n : nat.
Implicit Types O K dO : 'M[R]_n.

Lemma expm_skew K : K^T = - K -> orthogonal (expm K).
Proof.
by move=> skew; rewrite /orthogonal -(expm_tr laws) skew (expm_opp laws).
Qed.

Lemma orthogonal_mul O1 O2 :
  orthogonal O1 -> orthogonal O2 -> orthogonal (O1 *m O2).
Proof.
rewrite /orthogonal => /eqP eq1 /eqP eq2.
have -> : (O1 *m O2)^T *m (O1 *m O2) = O2^T *m (O1^T *m O1) *m O2.
  by rewrite trmx_mul !mulmxA.
by rewrite eq1 mulmx1 eq2.
Qed.

(** For orthogonal [O] the exponent [D^T O] of the retraction is
    skew-symmetric. *)
Lemma orthogonal_direction_skew O dO :
  orthogonal O ->
  let D := 2^-1 *: (dO - O *m dO^T *m O) in
  (D^T *m O)^T = - (D^T *m O).
Proof.
move=> /eqP orthO /=.
rewrite trmx_mul trmxK [in RHS]linearZ /= -scalemxAr -scalemxAl -scalerN.
congr (_ *: _).
rewrite mulmxBr [in RHS]linearB /= mulmxBl opprB !trmx_mul trmxK.
by rewrite !mulmxA orthO mul1mx -!mulmxA orthO mulmx1.
Qed.

Lemma update_orthogonal_step_orthogonal (lr : R) O dO :
  orthogonal O -> orthogonal (update_orthogonal_step expm lr O dO).
Proof.
move=> orthO; rewrite /update_orthogonal_step /=.
apply: orthogonal_mul => //; apply: expm_skew.
by rewrite linearZ /= orthogonal_direction_skew // scalerN.
Qed.

Lemma update_orthogonal_all (lr : R) (grads params : seq 'M[R]_n) :
  all (@orthogonal R n) params ->
  all (@orthogonal R n) (update_orthogonal expm params grads lr).
Proof.
elim: params grads => [|O params IH] [|dO grads] //= /andP[orthO orthP].
by rewrite update_orthogonal_step_orthogonal ?IH.
Qed.

Lemma update_orthogonalE (lr : R) (grads params : seq 'M[R]_n) :
  update_orthogonal expm params grads lr
  = [seq update_orthogonal_step expm lr pg.1 pg.2 | pg <- zip params grads]
    ++ drop (size grads) params.
Proof.
elim: params grads => [|O params IH] [|dO grads] //=.
by rewrite IH.
Qed.

Definition orthogonal_steps O (steps : seq (R * 'M[R]_n)) :=
  foldl (fun O' st => update_orthogonal_step expm st.1 O' st.2) O steps.

Lemma orthogonal_steps_orthogonal O steps :
  orthogonal O -> orthogonal (orthogonal_steps O steps).
Proof.
elim: steps O => [|[lr dO] steps IH] O //= orthO.
exact/IH/update_orthogonal_step_orthogonal.
Qed.

(** C4. For an orthogonal [O], an ambient gradient [dO_riemann] and a
    learning rate [lr], the update computes
    [D = (dO_riemann - O dO_riemann^T O)/2] and assigns [O * expm(lr D^T O)];
    the new value satisfies [O^T O = I], hence is within every tolerance of
    the identity, and so does the value reached after any number of such
    steps.  The loop of [TrainPlugin.update_orthogonal] assigns this value to
    every parameter that [zip] pairs with a gradient and keeps the other
    parameters, and orthogonal parameters are orthogonal after the
    update. *)
Theorem orthogonal_update_invariant (lr : R) O dO_riemann :
  orthogonal O ->
  let D := 2^-1 *: (dO_riemann - O *m dO_riemann^T *m O) in
  let O' := update_orthogonal_step expm lr O dO_riemann in
  [/\ O' = O *m expm (lr *: (D^T *m O)),
      O'^T *m O' = 1%:M,
      forall eps, 0 <= eps -> within eps (O'^T *m O') 1%:M,
      forall steps eps, 0 <= eps ->
        let Ok := orthogonal_steps O steps in
        within eps (Ok^T *m Ok) 1%:M
    & forall grads params,
        let updated := update_orthogonal expm params grads lr in
        updated
        = [seq update_orthogonal_step expm lr pg.1 pg.2
          | pg <- zip params grads] ++ drop (size grads) params
        /\ (all (@orthogonal R n) params -> all (@orthogonal R n) updated)].
Proof.
move=> orthO /=.
have /eqP eqO' := update_orthogonal_step_orthogonal lr dO_riemann orthO.
split=> // [eps eps0|steps eps eps0|grads params].
- by rewrite eqO'; apply: within_refl.
- have /eqP -> := orthogonal_steps_orthogonal steps orthO.
  exact: within_refl.
- split; first exact: update_orthogonalE.
  exact: update_orthogonal_all.
Qed.

End OrthogonalRetraction.

End Retraction.

(** The Pade approximant satisfies the laws of [expm_laws]. *)
Section PadeLaws.

Variable R : numFieldType.
Variable m : nat.
Implicit Types X U A B : 'M[R]_m.

Let P X : 'M[R]_m := 1%:M - 2^-1 *: X.
Let Q X : 'M[R]_m := 1%:M + 2^-1 *: X.

Lemma invmx_eq A B : A *m B = 1%:M -> invmx A = B.
Proof.
move=> AB; have [Au _] := mulmx1_unit AB.
by rewrite -[RHS]mul1mx -(mulVmx Au) -mulmxA AB mulmx1.
Qed.

Lemma invmx_commute A B :
  A \in unitmx -> A *m B = B *m A -> invmx A *m B = B *m invmx A.
Proof.
move=> Au AB.
by rewrite -[LHS]mulmx1 -(mulmxV Au) mulmxA -(mulmxA _ B) -AB mulmxA mulVmx
           ?mul1mx.
Qed.

Lemma pade_factors_commute X : P X *m Q X = Q X *m P X.
Proof.
rewrite /P /Q; set a := 2^-1 *: X.
rewrite mulmxBl mulmxDl !mulmxDr !mulmxN !mul1mx !mulmx1.
by rewrite opprD !addrA addrK subrK.
Qed.

Lemma pade_expm_tr X : pade_expm X^T = (pade_expm X)^T.
Proof.
rewrite /pade_expm /=.
have -> : 1%:M - 2^-1 *: X^T = (P X)^T.
  by rewrite /P [RHS]linearB /= trmx1 [in RHS]linearZ.
have -> : 1%:M + 2^-1 *: X^T = (Q X)^T.
  by rewrite /Q [RHS]linearD /= trmx1 [in RHS]linearZ.
rewrite !unitmx_tr -/(P X) -/(Q X).
case: ifP => [/andP[Pu Qu]|_]; last by rewrite trmx1.
rewrite [RHS]trmx_mul trmx_inv invmx_commute ?unitmx_tr //.
by rewrite -!trmx_mul pade_factors_commute.
Qed.

Lemma pade_expm_opp X : pade_expm (- X) *m pade_expm X = 1%:M.
Proof.
rewrite /pade_expm /= scalerN opprK -/(P X) -/(Q X) andbC.
case: ifP => [/andP[Pu Qu]|_]; last by rewrite mulmx1.
by rewrite -mulmxA mulKVmx // mulVmx.
Qed.

Lemma pade_expm_sim U X :
  U \in unitmx -> pade_expm (U *m X *m invmx U) = U *m pade_expm X *m invmx U.
Proof.
move=> Uu; rewrite /pade_expm /=.
have eqP_ : 1%:M - 2^-1 *: (U *m X *m invmx U) = U *m P X *m invmx U.
  by rewrite /P mulmxBr mulmxBl mulmx1 mulmxV // -scalemxAr -scalemxAl.
have eqQ_ : 1%:M + 2^-1 *: (U *m X *m invmx U) = U *m Q X *m invmx U.
  by rewrite /Q mulmxDr mulmxDl mulmx1 mulmxV // -scalemxAr -scalemxAl.
rewrite eqP_ eqQ_ !unitmx_mul unitmx_inv Uu /= !andbT -/(P X) -/(Q X).
case: ifP => [/andP[Pu Qu]|_]; last by rewrite mulmx1 mulmxV.
have -> : invmx (U *m P X *m invmx U) = U *m invmx (P X) *m invmx U.
  apply: invmx_eq.
  by rewrite !mulmxA mulmxKV // mulmxK // mulmxV.
by rewrite !mulmxA mulmxKV.
Qed.

End PadeLaws.

Lemma pade_expm_laws (R : numFieldType) : expm_laws (@pade_expm R).
Proof.
split=> m *; [exact: pade_expm_tr|exact: pade_expm_opp|exact: pade_expm_sim].
Qed.

(** A one-mode instance over the rationals: the shear [[1, 1], [0, 1]] as
    symplectic parameter, the quarter turn [[0, -1], [1, 0]] as orthogonal
    parameter. *)
Definition shear : 'M[rat]_(1 + 1) := block_mx 1%:M 1%:M 0 1%:M.
Definition quarter_turn : 'M[rat]_(1 + 1) := block_mx 0 (- 1%:M) 1%:M 0.
Definition corner_gradient : 'M[rat]_(1 + 1) := block_mx 1%:M 0 0 0.

Lemma shear_symplectic : symplectic shear.
Proof.
rewrite /symplectic /shear /J tr_block_mx !trmx1 !trmx0 !mulmx_block.
rewrite !(mul0mx, mulmx0, mul1mx, mulmx1, mulNmx, mulmxN, add0r, addr0).
by rewrite addNr.
Qed.

Lemma quarter_turn_orthogonal : orthogonal quarter_turn.
Proof.
rewrite /orthogonal /quarter_turn tr_block_mx !trmx1 !trmx0 linearN /= trmx1.
rewrite mulmx_block.
rewrite !(mul0mx, mulmx0, mul1mx, mulmx1, mulNmx, mulmxN, add0r, addr0, opprK).
by rewrite -scalar_mx_block.
Qed.

Lemma symplectic_update_witness :
  [/\ expm_laws (@pade_expm rat), symplectic shear
    & let S' := _update_symplectic_step (@pade_expm rat) 1 shear corner_gradient
      in S'^T *m J rat 1 *m S' = J rat 1].
Proof.
split; [exact: pade_expm_laws | exact: shear_symplectic |].
by have [] := symplectic_update_invariant (pade_expm_laws rat) 1
                corner_gradient shear_symplectic.
Defined.

Lemma orthogonal_update_witness :
  [/\ expm_laws (@pade_expm rat), orthogonal quarter_turn
    & let O' := update_orthogonal_step (@pade_expm rat) 1 quarter_turn
                  corner_gradient
      in O'^T *m O' = 1%:M].
Proof.
split; [exact: pade_expm_laws | exact: quarter_turn_orthogonal |].
by have [] := orthogonal_update_invariant (pade_expm_laws rat) 1
                corner_gradient quarter_turn_orthogonal.
Defined.

End Manifold.

(** ** TFMathbackend: fresh symplectic parameters *)

Module MathBackend.

Import Manifold.

(** The scalar (1,1) Pade approximant of the exponential: an exactly
    computable instance of the laws [exp_laws] below. *)
Definition pade_exp (F : fieldType) (x : F) : F :=
  if (1 - x / 2 != 0) && (1 + x / 2 != 0) then (1 + x / 2) / (1 - x / 2)
  else 1.

Section SymplecticParameter.

Variable C : numClosedFieldType.

(** [tf.math.exp] on [float64] and [np.exp] on [complex128]. *)
Variable exp : C -> C.
Variable cexp : C -> C.

Record exp_laws : Prop := ExpLaws {
  exp_opp : forall x, exp (- x) * exp x = 1;
  exp_real : forall x, x \is Num.real -> exp x \is Num.real;
  cexp_unit : forall u, u \is Num.real ->
    cexp ('i * u) * (cexp ('i * u))^* = 1
}.

(** [num_modes] *)
Variable n : nat.

(** [block]: [rows = [tf.concat(row, axis=1) for row in blocks]], then
    [tf.concat(rows, axis=0)], for a 2 x 2 list of blocks. *)
Definition block (blocks : ('M[C]_n * 'M[C]_n) * ('M[C]_n * 'M[C]_n))
  : 'M[C]_(n + n) :=
  let rows := (row_mx blocks.1.1 blocks.1.2, row_mx blocks.2.1 blocks.2.2) in
  col_mx rows.1 rows.2.

(** [unitary_to_orthogonal]: [X = real(U)], [Y = imag(U)],
    [block([[X, -Y], [Y, X]])]. *)
Definition unitary_to_orthogonal (U : 'M[C]_n) : 'M[C]_(n + n) :=
  let X := map_mx (@Re C) U in
  let Y := map_mx (@Im C) U in
  block ((X, - Y), (Y, X)).

(** [tf.einsum('ij,j,jk->ik', a, d, b)] *)
Definition einsum_ij_j_jk (m : nat) (a : 'M[C]_m) (d : 'rV[C]_m) (b : 'M[C]_m)
  : 'M[C]_m :=
  \matrix_(i, k) \sum_j a i j * d 0 j * b j k.

(** The random draws of one call: [np.random.uniform(size=(1,1))] twice (used
    when [num_modes == 1]), [unitary_group.rvs(num_modes)] twice (used
    otherwise) and [np.random.uniform(size=num_modes)]. *)
Record draws : Type := Draws {
  uW : C;
  uV : C;
  haarW : 'M[C]_n;
  haarV : 'M[C]_n;
  r : 'rV[C]_n
}.

(** A [tf.Variable] or [tf.constant] holding a 2n x 2n matrix. *)
Record tf_tensor : Type := TfTensor {
  value : 'M[C]_(n + n);
  is_variable : bool
}.

Definition make_symplectic_parameter (init_value : option 'M[C]_(n + n))
    (trainable : bool) (rng : draws) : tf_tensor :=
  let val :=
    if init_value is Some v then v else
    let W := if n == 1%N then const_mx (cexp ('i * uW rng)) else haarW rng in
    let V := if n == 1%N then const_mx (cexp ('i * uV rng)) else haarV rng in
    let r := r rng in
    let OW := unitary_to_orthogonal W in
    let OV := unitary_to_orthogonal V in
    let dd := row_mx (map_mx (fun x => exp (- x)) r) (map_mx exp r) in
    einsum_ij_j_jk OW dd OV in
  if trainable then TfTensor val true else TfTensor val false.

(** What the samplers guarantee: uniform draws are real, Haar draws are
    unitary. *)
Definition valid_draws (rng : draws) : Prop :=
  [/\ uW rng \is Num.real, uV rng \is Num.real, r rng \is a realmx
    & n != 1%N -> haarW rng \is unitarymx /\ haarV rng \is unitarymx].

End SymplecticParameter.

Section SymplecticParameterTheory.

Variable C : numClosedFieldType.
Variable n : nat.
Implicit Types U X Y : 'M[C]_n.

Lemma einsum_ij_j_jkE (m : nat) (a : 'M[C]_m) d b :
  einsum_ij_j_jk a d b = a *m diag_mx d *m b.
Proof.
apply/matrixP => i k; rewrite !mxE; apply: eq_bigr => j _.
by rewrite mul_mx_diag mxE.
Qed.

Lemma Re_realmx U : map_mx (@Re C) U \is a realmx.
Proof. by apply/mxOverP => i j; rewrite mxE Creal_Re. Qed.

Lemma Im_realmx U : map_mx (@Im C) U \is a realmx.
Proof. by apply/mxOverP => i j; rewrite mxE Creal_Im. Qed.

Lemma mx_rect U : U = map_mx (@Re C) U + 'i *: map_mx (@Im C) U.
Proof. by apply/matrixP => i j; rewrite !mxE -Crect. Qed.

Lemma realmx_tr (A : 'M[C]_n) : A \is a realmx -> A^T \is a realmx.
Proof. by move=> /mxOverP realA; apply/mxOverP => i j; rewrite mxE. Qed.

Lemma realmxN (m1 m2 : nat) (A : 'M[C]_(m1, m2)) :
  A \is a realmx -> - A \is a realmx.
Proof. by move=> /mxOverP realA; apply/mxOverP => i j; rewrite mxE rpredN. Qed.

(** The real and imaginary parts of a unitary matrix. *)
Lemma unitary_parts U :
  U \is unitarymx ->
  let X := map_mx (@Re C) U in
  let Y := map_mx (@Im C) U in
  X^T *m X + Y^T *m Y = 1%:M /\ X^T *m Y - Y^T *m X = 0.
Proof.
move=> unitU X Y.
have realX : X \is a realmx := Re_realmx U.
have realY : Y \is a realmx := Im_realmx U.
have eqU : map_mx Num.conj U^T *m U = 1%:M.
  by rewrite -invmx_unitary // mulVmx // unitarymx_unit.
have eqUT : map_mx Num.conj U^T = X^T - 'i *: Y^T.
  rewrite [in LHS](mx_rect U) -/X -/Y linearD /= linearZ /= map_mxD map_mxZ /=.
  by rewrite conjCi scaleNr !realmxC ?realmx_tr.
have eqsum : X^T *m X + Y^T *m Y + 'i *: (X^T *m Y - Y^T *m X)
             = 1%:M + 'i *: (0 : 'M[C]_n).
  rewrite scaler0 addr0 -eqU eqUT [in X in _ = _ *m X](mx_rect U) -/X -/Y.
  rewrite mulmxBl !mulmxDr -!scalemxAl -!scalemxAr scalerA -expr2 sqrCi.
  by rewrite scaleN1r opprD opprK [- _ + _]addrC addrACA -scalerBr.
have realXX : X^T *m X + Y^T *m Y \is a realmx.
  by rewrite realmxD // mxOverM // realmx_tr.
have realXY : X^T *m Y - Y^T *m X \is a realmx.
  by rewrite realmxD // ?realmxN // mxOverM // realmx_tr.
have real1 : (1%:M : 'M[C]_n) \is a realmx.
  by apply/mxOverP => i j; rewrite mxE; case: eqP => _;
     rewrite ?mulr1n ?mulr0n ?real1 ?real0.
have real0 : (0 : 'M[C]_n) \is a realmx.
  by apply/mxOverP => i j; rewrite mxE real0.
by have [-> ->] := eqmx_ReiIm realXX realXY real1 real0 eqsum.
Qed.

Lemma unitary_to_orthogonalE U :
  unitary_to_orthogonal U
  = block_mx (map_mx (@Re C) U) (- map_mx (@Im C) U)
             (map_mx (@Im C) U) (map_mx (@Re C) U).
Proof. by []. Qed.

Lemma unitary_to_orthogonal_orthogonal U :
  U \is unitarymx -> orthogonal (unitary_to_orthogonal U).
Proof.
move=> /unitary_parts /= [eq1 /subr0_eq eqXY].
rewrite /orthogonal unitary_to_orthogonalE tr_block_mx mulmx_block.
move: eq1 eqXY; set X := map_mx _ U; set Y := map_mx _ U => eq1 eqXY.
rewrite ![(- _)^T]linearN /= !mulNmx !mulmxN opprK eq1 eqXY addNr.
by rewrite addrC eq1 -scalar_mx_block.
Qed.

Lemma unitary_to_orthogonal_J U :
  unitary_to_orthogonal U *m J C n = J C n *m unitary_to_orthogonal U.
Proof.
rewrite unitary_to_orthogonalE /J !mulmx_block.
rewrite !(mul0mx, mulmx0, mul1mx, mulmx1, mulNmx, mulmxN, add0r, addr0).
by rewrite opprK.
Qed.

Lemma unitary_to_orthogonal_symplectic U :
  U \is unitarymx -> symplectic (unitary_to_orthogonal U).
Proof.
move=> /unitary_to_orthogonal_orthogonal /eqP orthU.
by rewrite /symplectic -mulmxA -unitary_to_orthogonal_J mulmxA orthU mul1mx.
Qed.

Lemma realmx_block (A B D E : 'M[C]_n) :
  A \is a realmx -> B \is a realmx -> D \is a realmx -> E \is a realmx ->
  block_mx A B D E \is a realmx.
Proof.
move=> /mxOverP rA /mxOverP rB /mxOverP rD /mxOverP rE.
apply/mxOverP => i j; rewrite !mxE.
by case: splitP => i' _; rewrite mxE; case: splitP => j' _.
Qed.

Lemma unitary_to_orthogonal_real U : unitary_to_orthogonal U \is a realmx.
Proof.
by rewrite unitary_to_orthogonalE realmx_block ?realmxN ?Re_realmx ?Im_realmx.
Qed.

(** The squeezing factor [diag(exp(-r), exp(r))]. *)
Lemma squeezing_diag_symplectic (a b : 'rV[C]_n) :
  (forall j, a 0 j * b 0 j = 1) -> symplectic (diag_mx (row_mx a b)).
Proof.
move=> ab1.
have eqab : diag_mx a *m diag_mx b = 1%:M.
  rewrite mulmx_diag -diag_const_mx; congr diag_mx.
  by apply/matrixP => i j; rewrite !mxE ab1.
rewrite /symplectic tr_diag_mx diag_mx_row /J !mulmx_block.
rewrite !(mul0mx, mulmx0, mul1mx, mulmx1, mulNmx, mulmxN, add0r, addr0).
by rewrite eqab diag_mxC eqab.
Qed.

End SymplecticParameterTheory.

Lemma unitary_const (C : numClosedFieldType) (n : nat) (z : C) :
  n = 1%N -> z * z^* = 1 -> (const_mx z : 'M[C]_n) \is unitarymx.
Proof.
move=> n1 zz; case: _ / (esym n1).
apply/unitarymxP/matrixP => i j; rewrite !mxE big_ord1 !mxE zz.
by rewrite !ord1.
Qed.

(** The Pade approximant satisfies [exp_laws], both as [exp] and as [cexp]. *)
Section PadeExpLaws.

Variable C : numClosedFieldType.
Implicit Types x u : C.

Lemma pade_exp_opp x : pade_exp (- x) * pade_exp x = 1.
Proof.
rewrite /pade_exp mulNr opprK andbC.
case: ifP => [/andP[nz1 nz2]|_]; last by rewrite mulr1.
by rewrite mulrA divfK // mulfV.
Qed.

Lemma pade_exp_real x : x \is Num.real -> pade_exp x \is Num.real.
Proof.
move=> realx; have real2 : x / 2 \is Num.real by rewrite rpred_div ?realn.
rewrite /pade_exp; case: ifP => _; last exact: real1.
by apply: rpred_div; [apply: realD | apply: realB]; rewrite ?real1.
Qed.

Lemma pade_exp_conj x : (pade_exp x)^* = pade_exp x^*.
Proof.
rewrite /pade_exp.
have -> : 1 - x^* / 2 = (1 - x / 2)^*.
  by rewrite rmorphB rmorph1 fmorph_div rmorph_nat.
have -> : 1 + x^* / 2 = (1 + x / 2)^*.
  by rewrite rmorphD rmorph1 fmorph_div rmorph_nat.
rewrite !fmorph_eq0; case: ifP => _; last by rewrite rmorph1.
by rewrite fmorph_div.
Qed.

Lemma pade_exp_unit u :
  u \is Num.real -> pade_exp ('i * u) * (pade_exp ('i * u))^* = 1.
Proof.
move=> realu.
by rewrite pade_exp_conj rmorphM /= conjCi (conj_Creal realu) mulNr mulrC
           pade_exp_opp.
Qed.

Lemma pade_exp_laws : exp_laws (@pade_exp C) (@pade_exp C).
Proof.
split; [exact: pade_exp_opp | exact: pade_exp_real | exact: pade_exp_unit].
Qed.

Lemma pade_exp0 : pade_exp (0 : C) = 1.
Proof. by rewrite /pade_exp mul0r subr0 addr0 oner_eq0 divr1. Qed.

End PadeExpLaws.

Lemma realmx_diag (C : numClosedFieldType) (m : nat) (d : 'rV[C]_m) :
  d \is a realmx -> diag_mx d \is a realmx.
Proof.
move=> /mxOverP rd; apply/mxOverP => i j; rewrite mxE.
by case: (i == j); rewrite ?mulr1n ?mulr0n ?real0.
Qed.

(** C6 (as the code has it). A freshly initialised symplectic parameter
    ([init_value = None]) has the value [OW * diag(exp(-r), exp(r)) * OV],
    where [OW] and [OV] are the images under the block embedding
    [[Re, -Im], [Im, Re]] of the two random unitary matrices (a random phase
    [exp(1j u)] when [num_modes = 1], a Haar draw otherwise); both images
    are orthogonal, and the value is a real symplectic matrix. *)
Theorem make_symplectic_parameter_fresh (C : numClosedFieldType)
    (exp cexp : C -> C) (n : nat) (trainable : bool) (rng : draws C n) :
  exp_laws exp cexp -> valid_draws rng ->
  let W := if n == 1%N then const_mx (cexp ('i * uW rng)) else haarW rng in
  let V := if n == 1%N then const_mx (cexp ('i * uV rng)) else haarV rng in
  let OW := unitary_to_orthogonal W in
  let OV := unitary_to_orthogonal V in
  let dd := row_mx (map_mx (fun x => exp (- x)) (r rng)) (map_mx exp (r rng)) in
  let val := value (make_symplectic_parameter exp cexp None trainable rng) in
  [/\ val = OW *m diag_mx dd *m OV,
      orthogonal OW /\ orthogonal OV,
      val \is a realmx
    & symplectic val].
Proof.
move=> laws [realuW realuV /mxOverP realr haar] W V OW OV dd val.
have unitW : W \is unitarymx.
  rewrite /W; case: eqP => [n1|/eqP /haar [] //].
  exact/unitary_const/(cexp_unit laws).
have unitV : V \is unitarymx.
  rewrite /V; case: eqP => [n1|/eqP /haar [] //].
  exact/unitary_const/(cexp_unit laws).
have eqval : val = OW *m diag_mx dd *m OV.
  by rewrite /val /make_symplectic_parameter; case: (trainable);
     rewrite /= einsum_ij_j_jkE.
have realdd : dd \is a realmx.
  apply/mxOverP => i j; rewrite mxE.
  by case: splitP => k _; rewrite mxE (exp_real laws) ?rpredN.
split=> //.
- by split; apply: unitary_to_orthogonal_orthogonal.
- rewrite eqval !mxOverM ?unitary_to_orthogonal_real //.
  exact: realmx_diag.
- rewrite eqval; apply: symplectic_mul; first apply: symplectic_mul.
  + exact: unitary_to_orthogonal_symplectic.
  + by apply: squeezing_diag_symplectic => j; rewrite !mxE (exp_opp laws).
  + exact: unitary_to_orthogonal_symplectic.
Qed.

(** A two-mode draw over the algebraic numbers: [W] the identity, [V] the
    quarter turn [[0, -1], [1, 0]], no squeezing ([r = 0]). *)
Definition quarter_turnC : 'M[algC]_(1 + 1) := block_mx 0 (- 1%:M) 1%:M 0.

Definition turn_draws : draws algC (1 + 1) :=
  Draws 0 0 1%:M quarter_turnC 0.

Lemma quarter_turnC_unitary : quarter_turnC \is unitarymx.
Proof.
apply/unitarymxP; rewrite /quarter_turnC tr_block_mx map_block_mx.
rewrite !trmx0 linearN /= trmx1 map_mxN !map_mx0 map_scalar_mx rmorph1.
rewrite mulmx_block.
rewrite !(mul0mx, mulmx0, mul1mx, mulmx1, mulNmx, mulmxN, add0r, addr0, opprK).
by rewrite -scalar_mx_block.
Qed.

Lemma turn_draws_valid : valid_draws turn_draws.
Proof.
split; rewrite /= ?real0 //; first by apply/mxOverP => i j; rewrite mxE real0.
move=> _; split; last exact: quarter_turnC_unitary.
by apply/unitarymxP; rewrite trmx1 map_scalar_mx rmorph1 mulmx1.
Qed.

Lemma make_symplectic_parameter_witness :
  [/\ exp_laws (@pade_exp algC) (@pade_exp algC), valid_draws turn_draws
    & symplectic
        (value (make_symplectic_parameter (@pade_exp algC) (@pade_exp algC)
                  None true turn_draws))].
Proof.
split; [exact: pade_exp_laws | exact: turn_draws_valid |].
by have [] := make_symplectic_parameter_fresh true (pade_exp_laws algC)
                turn_draws_valid.
Defined.

Lemma symplectic_unitmx (R : numFieldType) (n : nat) (S : 'M[R]_(n + n)) :
  symplectic S -> S \in unitmx.
Proof.
move=> /eqP sympS.
have /mulmx1_unit [] // : (- J R n *m S^T *m J R n) *m S = 1%:M.
by rewrite -!mulmxA [S^T *m _]mulmxA sympS mulNmx J_sq opprK.
Qed.

(** The formula of the specification, with the transpose of [OV]. *)
Definition transposed_formula (C : numClosedFieldType) (exp cexp : C -> C)
    (n : nat) (trainable : bool) (rng : draws C n) : Prop :=
  let W := if n == 1%N then const_mx (cexp ('i * uW rng)) else haarW rng in
  let V := if n == 1%N then const_mx (cexp ('i * uV rng)) else haarV rng in
  let OW := unitary_to_orthogonal W in
  let OV := unitary_to_orthogonal V in
  let dd := row_mx (map_mx (fun x => exp (- x)) (r rng)) (map_mx exp (r rng)) in
  value (make_symplectic_parameter exp cexp None trainable rng)
  = OW *m diag_mx dd *m OV^T.

(** C6 as stated fails: at the draw [turn_draws] the fresh value is
    [OW * diag * OV] and differs from [OW * diag * OV^T], because the
    embedding of the quarter turn is not symmetric. *)
Lemma make_symplectic_parameter_not_transposed :
  [/\ exp_laws (@pade_exp algC) (@pade_exp algC), valid_draws turn_draws
    & ~ transposed_formula (@pade_exp algC) (@pade_exp algC) true turn_draws].
Proof.
split; [exact: pade_exp_laws | exact: turn_draws_valid |].
have [eqval _ _ _] := make_symplectic_parameter_fresh true
                        (pade_exp_laws algC) turn_draws_valid.
rewrite /transposed_formula eqval {eqval}.
move=> /= eqT.
set OW := unitary_to_orthogonal 1%:M in eqT.
set dd := row_mx _ _ in eqT.
set OV := unitary_to_orthogonal quarter_turnC in eqT.
have sympWD : symplectic (OW *m diag_mx dd).
  apply: symplectic_mul.
    apply: unitary_to_orthogonal_symplectic.
    by have [_ _ _ /(_ isT) []] := turn_draws_valid.
  by apply: squeezing_diag_symplectic => j; rewrite !mxE pade_exp_opp.
have {eqT} eqOV : OV = OV^T.
  by rewrite -[LHS](mulKmx (symplectic_unitmx sympWD)) eqT mulKmx
             ?symplectic_unitmx.
pose i0 : 'I_(1 + 1 + (1 + 1)) := lshift _ (lshift 1 0).
pose i1 : 'I_(1 + 1 + (1 + 1)) := lshift _ (rshift 1 0).
have : OV i0 i1 = OV^T i0 i1 by rewrite -eqOV.
rewrite [in RHS]mxE /OV unitary_to_orthogonalE !block_mxEul !mxE.
have -> : split (lshift 1 (0 : 'I_1)) = inl 0 by exact: (unsplitK (inl 0)).
have -> : split (rshift 1 (0 : 'I_1)) = inr 0 by exact: (unsplitK (inr 0)).
rewrite row_mxEr row_mxEl !mxE eqxx !mulr1n.
rewrite (Creal_ReP _ _) ?rpredN ?real1 // (Creal_ReP _ _) ?real1 //.
by move/eqP; rewrite eq_sym -subr_eq0 opprK -(natrD _ 1 1) pnatr_eq0.
Qed.

End MathBackend.

(** ** Parameter collection for an optimisation step *)

Module Collect.

Section Parameters.

(** The contents of a trainable tensor. *)
Variable V : Type.

(** A trainable tensor is a Python object: the identity of its underlying
    storage and its current contents.  Several circuit elements may hold
    the same object. *)
Record param : Type := Param { storage : nat; contents : V }.

Inductive kind : Type := Symplectic | Orthogonal | Euclidean.

(** A circuit element seen by [TrainPlugin.extract_parameters]:
    [item.trainable_parameters[kind]]. *)
Record item : Type := Item { trainable_parameters : kind -> seq param }.

(** [self._backend.hash_tensor(p)]; [None] stands for the [TypeError] the
    backend raises on an unhashable tensor. *)
Variable hash_tensor : param -> option nat.

(** A Python [dict], in insertion order. *)
Definition dict : Type := seq (nat * param).

Definition keys (d : dict) : seq nat := unzip1 d.
Definition values (d : dict) : seq param := unzip2 d.

(** [if hash not in params_dict: params_dict[hash] = p] *)
Definition store_new (d : dict) (h : nat) (p : param) : dict :=
  if h \in keys d then d else rcons d (h, p).

(** The [try] block for one item: a [TypeError] leaves the inner loop, the
    entries stored before it stay, and the outer loop continues. *)
Fixpoint scan (d : dict) (ps : seq param) : dict :=
  match ps with
  | [::] => d
  | p :: ps' =>
      match hash_tensor p with
      | None => d
      | Some h => scan (store_new d h p) ps'
      end
  end.

Definition extract_parameters (items : seq item) (k : kind) : seq param :=
  let params_dict :=
    foldl (fun d it => scan d (trainable_parameters it k)) [::] items in
  values params_dict.

(** A circuit seen by the TensorFlow optimizer backend. *)
Record circuit : Type := Circuit {
  symplectic_parameters : seq param;
  euclidean_parameters : seq param
}.

(** [s.ref()] compares by identity of the wrapped variable:
    [if s.ref() not in symp: symp.append(s.ref())]. *)
Definition append_new (refs : seq param) (s : param) : seq param :=
  if has (fun r => storage r == storage s) refs then refs else rcons refs s.

(** [_all_symplectic_parameters]; the final [deref] of every reference gives
    the variables back. *)
Definition _all_symplectic_parameters (circuits : seq circuit) : seq param :=
  foldl (fun symp circ => foldl append_new symp (symplectic_parameters circ))
        [::] circuits.

Definition _all_euclidean_parameters (circuits : seq circuit) : seq param :=
  foldl (fun eucl circ => foldl append_new eucl (euclidean_parameters circ))
        [::] circuits.

(** The storages registered under a kind, one entry per reference. *)
Definition registered (items : seq item) (k : kind) : seq nat :=
  [seq storage p | p <- flatten [seq trainable_parameters it k | it <- items]].

End Parameters.

(** Modelled from the spec: [hash_tensor] belongs to the backend and is not
    part of the sources; the spec keys a parameter by the identity of its
    underlying storage, and every trainable tensor has one. *)
Definition identity_hash (V : Type) (p : param V) : option nat :=
  Some (storage p).

Section CollectTheory.

Variable V : Type.
Implicit Types (d : dict V) (p s : param V) (ps : seq (param V)).
Implicit Types (items : seq (item V)) (k : kind).

Local Notation scan := (scan (@identity_hash V)).
Local Notation extract_parameters := (extract_parameters (@identity_hash V)).

(** Every key is the storage of the value stored under it. *)
Definition keyed_by_storage d : bool := keys d == map (@storage V) (values d).

Lemma keys_store_new d h p :
  keys (store_new d h p) = if h \in keys d then keys d else rcons (keys d) h.
Proof.
by rewrite /store_new; case: ifP => // _; rewrite /keys /unzip1 map_rcons.
Qed.

Lemma store_new_inv d p :
  uniq (keys d) && keyed_by_storage d ->
  uniq (keys (store_new d (storage p) p))
    && keyed_by_storage (store_new d (storage p) p).
Proof.
case/andP=> uniq_d /eqP keyed; rewrite /keyed_by_storage keys_store_new.
rewrite /store_new; case: ifP => [_|notin]; first by rewrite uniq_d -keyed /=.
by rewrite rcons_uniq notin uniq_d /values /unzip2 map_rcons /= map_rcons
           -/(values d) -keyed.
Qed.

Lemma scan_inv d ps :
  uniq (keys d) && keyed_by_storage d ->
  uniq (keys (scan d ps)) && keyed_by_storage (scan d ps).
Proof. by elim: ps d => [|p ps IH] d //= inv_d; apply/IH/store_new_inv. Qed.

Lemma mem_keys_store_new d p :
  keys (store_new d (storage p) p) =i storage p :: keys d.
Proof.
move=> h; rewrite keys_store_new; case: ifP => [in_d|_].
  by rewrite inE; case: eqP => // ->.
by rewrite mem_rcons.
Qed.

Lemma mem_keys_scan d ps :
  keys (scan d ps) =i keys d ++ map (@storage V) ps.
Proof.
elim: ps d => [|p ps IH] d h /=; first by rewrite cats0.
by rewrite IH !mem_cat mem_keys_store_new !inE orbCA orbA.
Qed.

Definition collect items k : dict V :=
  foldl (fun d it => scan d (trainable_parameters it k)) [::] items.

Lemma collect_rcons items it k :
  collect (rcons items it) k = scan (collect items k) (trainable_parameters it k).
Proof. by rewrite /collect -cats1 foldl_cat. Qed.

Lemma collect_inv items k :
  uniq (keys (collect items k)) && keyed_by_storage (collect items k).
Proof.
elim/last_ind: items => [|items it IH] //.
by rewrite collect_rcons; apply: scan_inv.
Qed.

Lemma mem_keys_collect items k : keys (collect items k) =i registered items k.
Proof.
elim/last_ind: items => [|items it IH] // h.
rewrite collect_rcons mem_keys_scan mem_cat IH /registered.
by rewrite -cats1 map_cat flatten_cat map_cat mem_cat /= cats0.
Qed.

Lemma storage_extract items k :
  map (@storage V) (extract_parameters items k) = keys (collect items k).
Proof. by have /andP[_ /eqP ->] := collect_inv items k. Qed.

(** Collection yields every storage once. *)
Lemma extract_uniq items k :
  uniq (map (@storage V) (extract_parameters items k)).
Proof. by rewrite storage_extract; have /andP[] := collect_inv items k. Qed.

Lemma extract_mem items k :
  map (@storage V) (extract_parameters items k) =i registered items k.
Proof. by move=> h; rewrite storage_extract mem_keys_collect. Qed.

(** Scanning parameters that are all collected already changes nothing. *)
Lemma scan_absorb d ps :
  {subset map (@storage V) ps <= keys d} -> scan d ps = d.
Proof.
elim: ps d => [|p ps IH] d //= sub.
have in_d : storage p \in keys d by apply: sub; rewrite inE eqxx.
rewrite /store_new in_d; apply: IH => h in_ps.
by apply: sub; rewrite inE in_ps orbT.
Qed.

Lemma extract_absorb items1 items2 it k :
  {subset map (@storage V) (trainable_parameters it k) <= registered items1 k} ->
  extract_parameters (items1 ++ it :: items2) k
  = extract_parameters (items1 ++ items2) k.
Proof.
move=> sub; rewrite /extract_parameters !foldl_cat /= -/(collect items1 k).
by rewrite scan_absorb // => h /sub; rewrite mem_keys_collect.
Qed.

(** The TensorFlow backend collects the same list. *)
Definition item_of_circuit (c : circuit V) : item V :=
  Item (fun k => match k with
                 | Symplectic => symplectic_parameters c
                 | Euclidean => euclidean_parameters c
                 | Orthogonal => [::]
                 end).

Lemma values_store_new d s :
  keyed_by_storage d ->
  values (store_new d (storage s) s) = append_new (values d) s.
Proof.
move=> /eqP keyed; rewrite /store_new /append_new keyed.
have -> : (storage s \in map (@storage V) (values d))
          = has (fun r => storage r == storage s) (values d).
  by rewrite -has_pred1 has_map; apply: eq_has => r.
by case: ifP => // _; rewrite /values /unzip2 map_rcons.
Qed.

Lemma values_scan d ps :
  uniq (keys d) && keyed_by_storage d ->
  values (scan d ps) = foldl (@append_new V) (values d) ps.
Proof.
elim: ps d => [|p ps IH] d //= inv_d.
rewrite IH ?store_new_inv // values_store_new //.
by case/andP: inv_d.
Qed.

Lemma values_collect (sel : circuit V -> seq (param V)) k circuits :
  (forall c, trainable_parameters (item_of_circuit c) k = sel c) ->
  values (collect [seq item_of_circuit c | c <- circuits] k)
  = foldl (fun refs circ => foldl (@append_new V) refs (sel circ)) [::] circuits.
Proof.
move=> selE; elim/last_ind: circuits => [|circuits c IH] //.
rewrite map_rcons collect_rcons values_scan ?collect_inv // IH selE.
by rewrite -cats1 foldl_cat.
Qed.

Lemma _all_symplectic_parametersE circuits :
  _all_symplectic_parameters circuits
  = extract_parameters [seq item_of_circuit c | c <- circuits] Symplectic.
Proof. by rewrite /_all_symplectic_parameters -(values_collect (k := Symplectic)). Qed.

Lemma _all_euclidean_parametersE circuits :
  _all_euclidean_parameters circuits
  = extract_parameters [seq item_of_circuit c | c <- circuits] Euclidean.
Proof. by rewrite /_all_euclidean_parameters -(values_collect (k := Euclidean)). Qed.

(** C7. Parameter collection yields every registered parameter exactly once,
    whatever the number of circuit elements that reference its storage; the
    key is the storage identity, so the number of collected parameters is
    the number of distinct storages, equal contents or not; an element that
    registers only parameters already registered by earlier elements leaves
    the collected list, and with it every quantity computed from that list
    in the step, unchanged; the TensorFlow backend collects the same
    list. *)
Theorem extract_parameters_dedup items k :
  [/\ forall p, storage p \in registered items k ->
        count (fun q => storage q == storage p) (extract_parameters items k)
        = 1%N,
      size (extract_parameters items k) = size (undup (registered items k)),
      forall items1 items2 it (G : Type) (step : seq (param V) -> G),
        {subset map (@storage V) (trainable_parameters it k)
           <= registered items1 k} ->
        step (extract_parameters (items1 ++ it :: items2) k)
        = step (extract_parameters (items1 ++ items2) k)
    & forall circuits,
        _all_symplectic_parameters circuits
        = extract_parameters [seq item_of_circuit c | c <- circuits]
            Symplectic].
Proof.
split=> [p reg_p||items1 items2 it G step sub|circuits].
- have -> : count (fun q => storage q == storage p) (extract_parameters items k)
            = count_mem (storage p)
                (map (@storage V) (extract_parameters items k)).
    by rewrite count_map; apply: eq_count => q.
  by rewrite count_uniq_mem ?extract_uniq // extract_mem reg_p.
- rewrite -(size_map (@storage V)); apply/perm_size/uniq_perm.
  + exact: extract_uniq.
  + exact: undup_uniq.
  + by move=> h; rewrite extract_mem mem_undup.
- by rewrite extract_absorb.
- exact: _all_symplectic_parametersE.
Qed.

End CollectTheory.

(** Two distinct parameters with equal contents, the first shared by two
    circuit elements. *)
Definition shared : param nat := Param 1 7.
Definition twin : param nat := Param 2 7.
Definition two_gates : seq (item nat) :=
  [:: Item (fun _ => [:: shared; twin]); Item (fun _ => [:: shared])].

Lemma extract_two_gates :
  extract_parameters (@identity_hash nat) two_gates Symplectic
  = [:: shared; twin].
Proof. by []. Qed.

Lemma extract_parameters_dedup_witness :
  count (fun q => storage q == storage shared)
    (extract_parameters (@identity_hash nat) two_gates Symplectic) = 1%N.
Proof.
by have [once _ _ _] := extract_parameters_dedup two_gates Symplectic;
   apply: once.
Defined.

End Collect.

(** ** TFCircuitBackend: the Fock-amplitude recursion engine *)

Module Fock.

(** *** NumPy arrays *)

Section NdArray.

Variable C : numClosedFieldType.

(** A dense array: its shape and its entries.  Entries are read at
    multi-indices inside the shape only. *)
Record ndarray : Type := NdArray { shape : seq nat; item : seq nat -> C }.

(** What a call leaves behind besides its result: the tensors it has
    allocated, in order. *)
Inductive event : Type := Alloc of seq nat.

Definition comp (T : Type) : Type := (seq event * result T)%type.

Definition ret {T : Type} (x : T) : comp T := ([::], Ok x).

Definition bind {T U : Type} (m : comp T) (f : T -> comp U) : comp U :=
  match m with
  | (tr, inr x) => let: (tr', r) := f x in (tr ++ tr', r)
  | (tr, inl e) => (tr, Raise e)
  end.

(** [range(z)] has [z] elements, none when [z <= 0]. *)
Definition range_len (z : int) : nat := if z is Posz n then n else 0%N.

(** [np.zeros(shp)]: a negative dimension raises [ValueError]; a dimension 0
    is accepted and gives an empty array. *)
Definition np_zeros (shp : seq int) : comp ndarray :=
  if has (fun d => d < 0) shp then ([::], Raise ValueError)
  else let shp' := map range_len shp in
       ([:: Alloc shp'], Ok (NdArray shp' (fun _ => 0))).

(** [idx] addresses an entry of an array of shape [shp]. *)
Definition in_bounds (shp idx : seq nat) : bool :=
  (size idx == size shp) && all2 ltn idx shp.

Definition upd (t : seq nat -> C) (idx : seq nat) (v : C) : seq nat -> C :=
  fun i => if i == idx then v else t i.

(** [a[idx] = v] for a full multi-index of naturals: [IndexError] outside the
    shape. *)
Definition setitem (a : ndarray) (idx : seq nat) (v : C) : comp ndarray :=
  if in_bounds (shape a) idx then ret (NdArray (shape a) (upd (item a) idx v))
  else ([::], Raise IndexError).

(** [np.ndindex]: all multi-indices of a shape, last axis fastest. *)
Fixpoint ndindex (shp : seq nat) : seq (seq nat) :=
  if shp is d :: shp' then [seq i :: idx | i <- iota 0 d, idx <- ndindex shp']
  else [:: [::]].

(** [np.sum(a, axis=all axes)] *)
Definition nd_sum (a : ndarray) : C := \sum_(idx <- ndindex (shape a)) item a idx.

(** Elementwise operations on arrays of equal shape. *)
Definition nd_mul (a b : ndarray) : ndarray :=
  NdArray (shape a) (fun idx => item a idx * item b idx).

Definition nd_conj (a : ndarray) : ndarray :=
  NdArray (shape a) (fun idx => (item a idx)^* ).

Definition nd_div_scalar (a : ndarray) (c : C) : ndarray :=
  NdArray (shape a) (fun idx => item a idx / c).

End NdArray.

(** *** The recursion *)

Section Engine.

Variable C : numClosedFieldType.

Local Notation ndarray := (ndarray C).

(** [A[k, j]] and [B[k]] of the generating triple. *)
Definition A_at (A : seq (seq C)) (k j : nat) : C := nth 0 (nth [::] A k) j.
Definition B_at (B : seq C) (k : nat) : C := nth 0 B k.

(** [sqrt(n)] for a photon number [n]. *)
Definition sqrtn (n : nat) : C := sqrtC n%:R.

(** [idx - e_k] *)
Definition dec (idx : seq nat) (k : nat) : seq nat :=
  set_nth 0%N idx k (nth 0%N idx k).-1.

(** The axis advanced at [idx]: the first one with [idx[k] >= 1]. *)
Definition pivot (idx : seq nat) : nat := find (fun n => 0 < n)%N idx.

Definition nonzero (idx : seq nat) : bool := has (fun n => 0 < n)%N idx.

(** The right-hand side of the recurrence at [idx], advancing axis [k]:
    [(B[k] t[idx - e_k] + sum_j A[k,j] sqrt(idx'[j]) t[idx - e_k - e_j])
     / sqrt(idx[k])], where [idx' = idx - e_k] and a term whose index would
    be negative contributes zero. *)
Definition amplitude (A : seq (seq C)) (B : seq C) (t : seq nat -> C)
    (idx : seq nat) (k : nat) : C :=
  let idx' := dec idx k in
  (B_at B k * t idx'
   + \sum_(0 <= j < size idx)
       (if (0 < nth 0 idx' j)%N
        then A_at A k j * sqrtn (nth 0%N idx' j) * t (dec idx' j)
        else 0))
  / sqrtn (nth 0%N idx k).

(** Modelled from the spec: [utils.fill_amplitudes] is not part of the
    sources.  The spec prescribes the three-term recurrence, one axis
    advanced at a time, evaluated by a nested ascending loop over all axes
    so that no entry is read before it is written; the entry at the all-zero
    index is the boundary value already present in the array.  The axis
    advanced at [idx] is [pivot idx]. *)
Definition fill_step (A : seq (seq C)) (B : seq C) (array : ndarray)
    (idx : seq nat) : ndarray :=
  if nonzero idx
  then NdArray (shape array)
         (upd (item array) idx (amplitude A B (item array) idx (pivot idx)))
  else array.

Definition fill_amplitudes (array : ndarray) (A : seq (seq C)) (B : seq C)
    (max_photons : seq int) : ndarray :=
  foldl (fill_step A B) array
        (ndindex [seq range_len (c + 1) | c <- max_photons]).

(** [tuple(cutoffs) + tuple(cutoffs) * mixed] *)
Definition doubled {T : Type} (cutoffs : seq T) (mixed : bool) : seq T :=
  cutoffs ++ (if mixed then cutoffs else [::]).

(** The closure [grad] returned by [_recursive_state]: the variables it
    captures. *)
Record grad_closure : Type := GradClosure {
  captured_A : seq (seq C);
  captured_B : seq C;
  captured_C : C;
  captured_cutoffs : seq int;
  captured_mixed : bool;
  captured_cutoffs_minus_1 : seq int;
  captured_state : ndarray
}.

(** [_recursive_state]: returns the state and the closure [grad]. *)
Definition _recursive_state (A : seq (seq C)) (B : seq C) (C0 : C)
    (cutoffs : seq int) : comp (ndarray * grad_closure) :=
  let mixed := size B == (2 * size cutoffs)%N in
  let cutoffs_minus_1 := doubled [seq c - 1 | c <- cutoffs] mixed in
  bind (np_zeros C (doubled cutoffs mixed)) (fun state =>
  bind (setitem state
          (nseq (size cutoffs + (if mixed then size cutoffs else 0)) 0%N) C0)
       (fun state =>
  let state := fill_amplitudes state A B cutoffs_minus_1 in
  ret (state, GradClosure A B C0 cutoffs mixed cutoffs_minus_1 state))).

(** [utils.fill_gradients] is not part of the sources: it fills the
    sensitivity tensors [dA] (shape [cutoffs + A.shape]) and [dB] (shape
    [cutoffs + B.shape]). *)
Variable fill_gradients :
  ndarray -> ndarray -> ndarray -> seq (seq C) -> seq C -> seq int ->
  (ndarray * ndarray)%type.

(** The gradients returned by a call of the closure. *)
Record gradients : Type := Gradients {
  dLdA : seq (seq C);
  dLdB : seq C;
  dLdC : C
}.

(** The body of [grad(dy)].  The closure exists only after a successful
    forward pass, so the allocations of [dA] and [dB] succeed. *)
Definition grad (env : grad_closure) (dy : ndarray) : gradients :=
  let A := captured_A env in
  let B := captured_B env in
  let state := captured_state env in
  let rows := size A in
  let cols := size (nth [::] A 0) in
  let shp :=
    map range_len (doubled (captured_cutoffs env) (captured_mixed env)) in
  let dA0 := NdArray (shp ++ [:: rows; cols]) (fun _ => 0) in
  let dB0 := NdArray (shp ++ [:: size B]) (fun _ => 0) in
  let: (dA, dB) :=
    fill_gradients dA0 dB0 state A B (captured_cutoffs_minus_1 env) in
  let dC := nd_div_scalar state (captured_C env) in
  let dLdA :=
    mkseq (fun i => mkseq (fun j =>
      \sum_(idx <- ndindex (shape dy))
         item dy idx * (item dA (idx ++ [:: i; j]))^* ) cols) rows in
  let dLdB :=
    mkseq (fun i =>
      \sum_(idx <- ndindex (shape dy))
         item dy idx * (item dB (idx ++ [:: i]))^* ) (size B) in
  let dLdC := nd_sum (nd_mul dy (nd_conj dC)) in
  Gradients dLdA dLdB dLdC.

End Engine.

(** *** Order of evaluation *)

(** Lexicographic order on multi-indices of equal rank: the order in which
    the nested ascending loop visits them. *)
Fixpoint lexlt (s t : seq nat) : bool :=
  match s, t with
  | x :: s', y :: t' => (x < y)%N || ((x == y) && lexlt s' t')
  | _, _ => false
  end.

Lemma lexlt_irrefl s : lexlt s s = false.
Proof. by elim: s => [|x s IH] //=; rewrite ltnn eqxx. Qed.

Lemma lexlt_trans : transitive lexlt.
Proof.
move=> t s u; elim: s t u => [|x s IH] [|y t] [|z u] //=.
case/orP=> [lt_xy|/andP[/eqP -> lt_st]].
  case/orP=> [lt_yz|/andP[/eqP <- _]]; last by rewrite lt_xy.
  by rewrite (ltn_trans lt_xy lt_yz).
case/orP=> [->//|/andP[-> lt_tu]].
by rewrite (IH _ _ lt_st lt_tu) orbT.
Qed.

Lemma lexlt_asym s t : lexlt s t -> lexlt t s -> False.
Proof. by move=> lt_st /(lexlt_trans lt_st); rewrite lexlt_irrefl. Qed.

Lemma pairwise_ndindex shp : pairwise lexlt (ndindex shp).
Proof.
elim: shp => [|d shp IH] //=.
elim: (iota 0 d) (iota_ltn_sorted 0 d) => [|i s IHs] //= path_s.
rewrite pairwise_cat pairwise_map IHs ?(path_sorted path_s) // andbT.
apply/andP; split; last first.
  by apply: sub_pairwise IH => a b /=; rewrite ltnn eqxx.
apply/allrelP => a b /mapP[a' _ ->] /allpairsP[[j b'] /= [j_s _ ->]].
have := order_path_min ltn_trans path_s.
by move/allP/(_ _ j_s) => ->.
Qed.

Lemma mem_ndindex shp idx : (idx \in ndindex shp) = in_bounds shp idx.
Proof.
rewrite /in_bounds; elim: shp idx => [|d shp IH] [|i idx] //=.
- by apply/negbTE/allpairsP => -[[j b] /= []].
- rewrite eqSS andbCA -IH; apply/allpairsP/andP.
    by case=> -[j b] /= [j_d b_in [-> ->]]; rewrite b_in; move: j_d;
       rewrite mem_iota.
  by case=> i_d idx_in; exists (i, idx); split=> //; rewrite mem_iota.
Qed.

Lemma lexlt_dec idx k : (0 < nth 0 idx k)%N -> lexlt (dec idx k) idx.
Proof.
rewrite /dec; elim: idx k => [|x idx IH] [|k] //=.
- by case: x => // x _; rewrite ltnSn.
- by move=> /IH ->; rewrite eqxx orbT.
Qed.

Lemma size_dec idx k : (k < size idx)%N -> size (dec idx k) = size idx.
Proof. by move=> lt_k; rewrite /dec size_set_nth; apply/maxn_idPr. Qed.

Lemma nth_pos_size (idx : seq nat) k : (0 < nth 0 idx k)%N -> (k < size idx)%N.
Proof. by case: (ltnP k (size idx)) => // le_k; rewrite nth_default. Qed.

(** *** A loop that writes one entry per step *)

Section Loop.

Variables (T : eqType) (V : Type).
Variable before : rel T.
Variable rhs : (T -> V) -> T -> V.
Variable written : pred T.

Hypothesis before_irrefl : irreflexive before.
Hypothesis before_asym : forall x y, before x y -> before y x -> False.

(** The value written at [x] depends on the entries before [x] only. *)
Hypothesis rhs_local : forall t t' x, written x ->
  (forall y, before y x -> t y = t' y) -> rhs t x = rhs t' x.

Definition write (t : T -> V) (x : T) (v : V) : T -> V :=
  fun y => if y == x then v else t y.

Definition step (t : T -> V) (x : T) : T -> V :=
  if written x then write t x (rhs t x) else t.

Lemma loop_untouched s t x :
  (x \notin s) || ~~ written x -> foldl step t s x = t x.
Proof.
elim: s t => [|y s IH] t //=; rewrite inE negb_or.
case/orP=> [/andP[neq_xy not_in]|nwx].
- rewrite IH ?not_in // /step; case: ifP => // _.
  by rewrite /write (negbTE neq_xy).
- rewrite IH ?nwx ?orbT // /step; case: ifP => // wy.
  by rewrite /write; case: eqP => // eq_xy; rewrite eq_xy wy in nwx.
Qed.

Lemma loop_written s t x :
  pairwise before s -> x \in s -> written x ->
  foldl step t s x = rhs (foldl step t s) x.
Proof.
elim: s t => [|y s IH] t //= /andP[y_first pw_s].
have y_notin : y \notin s.
  by apply/negP => /(allP y_first); rewrite before_irrefl.
rewrite inE; case: eqP => [-> _ wy|_ /= x_in wx]; last exact: IH.
have -> : foldl step (step t y) s y = rhs t y.
  by rewrite loop_untouched ?y_notin // /step wy /write eqxx.
apply: rhs_local => // z z_before.
have neq_zy : z != y.
  by apply/eqP => eq_zy; rewrite eq_zy before_irrefl in z_before.
have z_notin : z \notin s.
  by apply/negP => /(allP y_first) /before_asym; apply.
by rewrite loop_untouched ?z_notin // /step wy /write (negbTE neq_zy).
Qed.

End Loop.

(** *** The filled tensor *)

Section EngineTheory.

Variable C : numClosedFieldType.
Variables (A : seq (seq C)) (B : seq C).

Local Notation ndarray := (ndarray C).

(** The value the engine writes at [idx]. *)
Definition entry (t : seq nat -> C) (idx : seq nat) : C :=
  amplitude A B t idx (pivot idx).

Lemma pivot_pos idx : nonzero idx -> (0 < nth 0 idx (pivot idx))%N.
Proof. by move=> nz; rewrite /pivot (nth_find 0%N nz). Qed.

Lemma entry_local t t' idx :
  nonzero idx -> (forall y, lexlt y idx -> t y = t' y) ->
  entry t idx = entry t' idx.
Proof.
move=> /pivot_pos piv_pos eq_t; rewrite /entry /amplitude.
have lt_dec := lexlt_dec piv_pos.
rewrite (eq_t _ lt_dec); congr ((_ + _) / _).
apply: eq_bigr => j _; case: ifP => // /lexlt_dec lt_j.
by rewrite (eq_t _ (lexlt_trans lt_j lt_dec)).
Qed.

Lemma shape_fill (s : seq (seq nat)) (st : ndarray) :
  shape (foldl (fill_step A B) st s) = shape st.
Proof.
by elim: s st => [|idx s IH] st //=; rewrite IH /fill_step; case: ifP.
Qed.

Lemma item_fill (s : seq (seq nat)) (st : ndarray) :
  item (foldl (fill_step A B) st s) = foldl (step entry nonzero) (item st) s.
Proof.
elim: s st => [|idx s IH] st //=; rewrite IH; congr foldl.
by rewrite /fill_step /step; case: ifP.
Qed.

(** After the loop over a whole shape, every entry the loop writes
    satisfies the recurrence in the final tensor, and the other entries are
    those of the initial array. *)
Lemma fill_written shp (st : ndarray) idx :
  in_bounds shp idx -> nonzero idx ->
  let final := foldl (fill_step A B) st (ndindex shp) in
  item final idx = entry (item final) idx.
Proof.
move=> inb nz /=; rewrite item_fill.
apply: (loop_written lexlt_irrefl lexlt_asym entry_local) => //.
  exact: pairwise_ndindex.
by rewrite mem_ndindex.
Qed.

Lemma fill_untouched shp (st : ndarray) idx :
  ~~ nonzero idx ->
  item (foldl (fill_step A B) st (ndindex shp)) idx = item st idx.
Proof. by move=> nz; rewrite item_fill loop_untouched // nz orbT. Qed.

End EngineTheory.

(** *** The calls of [_recursive_state] *)

Section Calls.

Variable C : numClosedFieldType.

Local Notation ndarray := (ndarray C).

Variables (A : seq (seq C)) (B : seq C) (C0 : C) (cutoffs : seq int).

Let mixed : bool := size B == (2 * size cutoffs)%N.
Let shp : seq nat := map range_len (doubled cutoffs mixed).
Let zero_index : seq nat :=
  nseq (size cutoffs + (if mixed then size cutoffs else 0)) 0%N.

(** The tensor of a successful call. *)
Definition forward : ndarray :=
  fill_amplitudes (NdArray shp (upd (fun _ => 0) zero_index C0)) A B
    (doubled [seq c - 1 | c <- cutoffs] mixed).

Lemma map_doubled (T U : Type) (f : T -> U) (s : seq T) (m : bool) :
  map f (doubled s m) = doubled (map f s) m.
Proof. by rewrite /doubled map_cat; case: m. Qed.

Lemma has_doubled (T : Type) (a : pred T) (s : seq T) (m : bool) :
  has a (doubled s m) = has a s.
Proof. by rewrite /doubled has_cat; case: m; rewrite ?orbb ?orbF. Qed.

Lemma zero_indexE : zero_index = nseq (size shp) 0%N.
Proof.
by rewrite /shp /zero_index size_map /doubled size_cat; case: mixed.
Qed.

Lemma in_bounds_nseq0 (s : seq nat) :
  in_bounds s (nseq (size s) 0%N) = all (fun d => 0 < d)%N s.
Proof.
by rewrite /in_bounds size_nseq eqxx /=; elim: s => [|d s IH] //=; rewrite IH.
Qed.

Lemma nonzero_nseq0 n : nonzero (nseq n 0%N) = false.
Proof. by rewrite /nonzero has_nseq andbF. Qed.

Lemma range_len_pos (c : int) :
  0 < c -> (0 < range_len c)%N /\ range_len (c - 1 + 1) = range_len c.
Proof. by rewrite subrK; case: c => [[|n]|n]. Qed.

Lemma range_len_nonpos (c : int) : c <= 0 -> ~~ (c < 0) -> range_len c = 0%N.
Proof. by case: c => [[|n]|n]. Qed.

Lemma mem_doubled (T : eqType) (s : seq T) (m : bool) : doubled s m =i s.
Proof. by move=> x; rewrite /doubled mem_cat; case: m; rewrite ?orbb ?orbF. Qed.

Lemma loop_shape :
  all (fun c => 0 < c) cutoffs ->
  [seq range_len (c + 1) | c <- doubled [seq c - 1 | c <- cutoffs] mixed] = shp.
Proof.
move=> /allP pos; rewrite /shp -map_doubled -!map_comp.
apply/eq_in_map => c; rewrite mem_doubled => /pos /range_len_pos [_ eq_c].
by rewrite /= eq_c.
Qed.

Lemma shp_pos :
  all (fun c => 0 < c) cutoffs -> all (fun d => 0 < d)%N shp.
Proof.
move=> /allP pos; rewrite /shp all_map; apply/allP => c.
by rewrite mem_doubled => /pos /range_len_pos [].
Qed.

(** A call with positive cutoffs allocates one tensor and returns it
    filled, together with the closure. *)
Lemma recursive_state_ok :
  all (fun c => 0 < c) cutoffs ->
  _recursive_state A B C0 cutoffs
  = ([:: Alloc shp],
     Ok (forward,
         GradClosure A B C0 cutoffs mixed
           (doubled [seq c - 1 | c <- cutoffs] mixed) forward)).
Proof.
move=> pos; rewrite /_recursive_state /np_zeros -/mixed has_doubled.
have -> : has (fun d : int => d < 0) cutoffs = false.
  apply/negbTE/hasPn => c /(allP pos) c_pos.
  by rewrite -leNgt ltW.
rewrite /bind /setitem /= -/shp -/zero_index zero_indexE in_bounds_nseq0.
by rewrite shp_pos //= /forward zero_indexE.
Qed.

Lemma forward_shape : shape forward = shp.
Proof. by rewrite /forward /fill_amplitudes shape_fill. Qed.

Lemma forward_zero :
  all (fun c => 0 < c) cutoffs -> item forward zero_index = C0.
Proof.
move=> pos; rewrite /forward /fill_amplitudes loop_shape //.
by rewrite fill_untouched /= /upd ?eqxx // zero_indexE nonzero_nseq0.
Qed.

Lemma forward_recurrence idx :
  all (fun c => 0 < c) cutoffs -> in_bounds shp idx -> nonzero idx ->
  item forward idx = amplitude A B (item forward) idx (pivot idx).
Proof.
move=> pos inb nz; rewrite /forward /fill_amplitudes loop_shape //.
exact: fill_written.
Qed.

(** A negative cutoff is refused by [np.zeros], before anything is
    allocated. *)
Lemma recursive_state_negative :
  has (fun c => c < 0) cutoffs ->
  _recursive_state A B C0 cutoffs = ([::], Raise ValueError).
Proof. by rewrite /_recursive_state /np_zeros has_doubled => ->. Qed.

(** A cutoff 0 (and none negative) is accepted by [np.zeros]; the empty
    tensor is allocated and the write of [C] at the all-zero index fails. *)
Lemma recursive_state_zero :
  ~~ has (fun c => c < 0) cutoffs -> has (fun c => c <= 0) cutoffs ->
  _recursive_state A B C0 cutoffs = ([:: Alloc shp], Raise IndexError).
Proof.
move=> no_neg has_zero.
rewrite /_recursive_state /np_zeros has_doubled (negbTE no_neg).
rewrite /bind /setitem /= -/mixed -/shp -/zero_index zero_indexE.
rewrite in_bounds_nseq0.
have -> // : all (fun d => 0 < d)%N shp = false.
apply/negbTE; rewrite -has_predC /shp has_map has_doubled.
case/hasP: has_zero => c c_in c_le0; apply/hasP; exists c => //=.
by rewrite range_len_nonpos //; apply: (hasPn no_neg).
Qed.

End Calls.

(** The tensor returned by a call, if it returns. *)
Definition state_of (C : numClosedFieldType)
    (r : comp (ndarray C * grad_closure C)) : option (ndarray C) :=
  if r.2 is inr (state, _) then Some state else None.

Definition closure_of (C : numClosedFieldType)
    (r : comp (ndarray C * grad_closure C)) : option (grad_closure C) :=
  if r.2 is inr (_, env) then Some env else None.

Lemma recursive_state_closure (C : numClosedFieldType) A B (C0 : C) cutoffs
    tr state env :
  _recursive_state A B C0 cutoffs = (tr, Ok (state, env)) ->
  captured_state env = state /\ captured_C env = C0.
Proof.
rewrite /_recursive_state /np_zeros; case: ifP => // _.
rewrite /bind /setitem /=; case: ifP => // _.
by rewrite /ret /Ok => -[_ <- <-].
Qed.

(** *** Symmetric [A]: the recurrence along every axis *)

Section IndexArithmetic.

Implicit Types (n shp : seq nat) (k j : nat).

Lemma nth_dec n k j :
  nth 0%N (dec n k) j = if j == k then (nth 0%N n k).-1 else nth 0%N n j.
Proof. by rewrite /dec nth_set_nth. Qed.

Lemma dec_dec n k j : dec (dec n k) j = dec (dec n j) k.
Proof.
case: (eqVneq k j) => [->//|neq_kj]; rewrite /dec !nth_set_nth /=.
rewrite (negbTE neq_kj) eq_sym (negbTE neq_kj).
by rewrite set_set_nth (negbTE neq_kj).
Qed.

Lemma in_bounds_dec shp n k :
  in_bounds shp n -> (0 < nth 0 n k)%N -> in_bounds shp (dec n k).
Proof.
rewrite /in_bounds /dec.
elim: n shp k => [|x n IH] [|d shp] [|k] //=; rewrite !eqSS.
- by case/and3P=> -> lt_x ->; rewrite (leq_ltn_trans (leq_pred x) lt_x).
- by case/and3P=> eq_size -> all_n pos; rewrite IH // eq_size.
Qed.

Lemma sumn_dec n k : (0 < nth 0 n k)%N -> (sumn (dec n k) < sumn n)%N.
Proof.
rewrite /dec; elim: n k => [|x n IH] [|k] //=.
- by case: x => // x _; rewrite addSn ltnS.
- by move=> /IH; rewrite ltn_add2l.
Qed.

End IndexArithmetic.

Section Symmetric.

Variable C : numClosedFieldType.
Variables (A : seq (seq C)) (B : seq C).

(** The shape of the tensor and its number of axes. *)
Variable shp : seq nat.
Let M : nat := size shp.

Implicit Types (n : seq nat) (k j p : nat) (f g : seq nat -> C).

(** [sqrt(n!)], the factor between an amplitude and the coefficient of the
    generating function. *)
Definition weight n : C := \prod_(i <- n) sqrtC (i`!)%:R.

(** [f] one step down along axis [k], zero where the index would become
    negative. *)
Definition shift k f n : C := if (0 < nth 0 n k)%N then f (dec n k) else 0.

(** The right-hand side of the recurrence along axis [k] for coefficients
    without square roots. *)
Definition ladder k f n : C :=
  B_at B k * shift k f n
  + \sum_(0 <= j < M) A_at A k j * shift k (shift j f) n.

Lemma weight_neq0 n : weight n != 0.
Proof.
rewrite /weight; elim: n => [|x n IH]; first by rewrite big_nil oner_eq0.
by rewrite big_cons mulf_neq0 // sqrtC_eq0 pnatr_eq0 -lt0n fact_gt0.
Qed.

Lemma sqrtn_neq0 m : (0 < m)%N -> sqrtn C m != 0.
Proof. by move=> m_pos; rewrite /sqrtn sqrtC_eq0 pnatr_eq0 -lt0n. Qed.

Lemma sqrtn_sqr m : sqrtn C m * sqrtn C m = m%:R.
Proof. by rewrite /sqrtn -expr2 sqrtCK. Qed.

Lemma weight_dec n k :
  (0 < nth 0 n k)%N -> weight n = sqrtn C (nth 0%N n k) * weight (dec n k).
Proof.
rewrite /weight /dec; elim: n k => [|x n IH] [|k] //=.
- case: x => // x _; rewrite !big_cons mulrA; congr (_ * _).
  by rewrite factS natrM /sqrtn sqrtCM // nnegrE ler0n.
- by move=> /IH eq_n; rewrite !big_cons eq_n mulrCA.
Qed.

Lemma shiftC k j f n : shift k (shift j f) n = shift j (shift k f) n.
Proof.
case: (eqVneq k j) => [->//|neq_kj]; rewrite /shift !nth_dec dec_dec.
rewrite (negbTE neq_kj) eq_sym (negbTE neq_kj).
by case: (0 < nth 0 n k)%N; case: (0 < nth 0 n j)%N.
Qed.

Lemma shift_ext k f g n :
  (0 < nth 0 n k -> f (dec n k) = g (dec n k))%N -> shift k f n = shift k g n.
Proof. by rewrite /shift; case: ifP => // _ ->. Qed.

Lemma shiftZ k (a : C) f n : shift k (fun m => a * f m) n = a * shift k f n.
Proof. by rewrite /shift; case: ifP; rewrite ?mulr0. Qed.

Lemma shiftD k f g n :
  shift k (fun m => f m + g m) n = shift k f n + shift k g n.
Proof. by rewrite /shift; case: ifP; rewrite ?addr0. Qed.

Lemma shift_sum k (F : nat -> seq nat -> C) n :
  shift k (fun m => \sum_(0 <= j < M) F j m) n
  = \sum_(0 <= j < M) shift k (F j) n.
Proof. by rewrite /shift; case: ifP => // _; rewrite big1. Qed.

(** Multiplication by the photon number of axis [k] against a step down
    along axis [j]. *)
Lemma number_shift k j f n :
  (nth 0%N n k)%:R * shift j f n
  = shift j (fun m => (nth 0%N m k)%:R * f m) n + (k == j)%:R * shift j f n.
Proof.
rewrite /shift; case: ifP => [pos_j|_]; last by rewrite !mulr0 addr0.
rewrite nth_dec; case: eqP => [->|_]; last by rewrite mul0r addr0.
by rewrite mul1r -[X in _ + X]mul1r -mulrDl natr1 prednK.
Qed.

Lemma shift_below k f g n :
  in_bounds shp n ->
  (forall m, in_bounds shp m -> (sumn m < sumn n)%N -> f m = g m) ->
  shift k f n = shift k g n.
Proof.
move=> inb eq_fg; apply: shift_ext => pos.
by apply: eq_fg; [apply: in_bounds_dec | apply: sumn_dec].
Qed.

Lemma ladder_below k f g n :
  in_bounds shp n ->
  (forall m, in_bounds shp m -> (sumn m < sumn n)%N -> f m = g m) ->
  ladder k f n = ladder k g n.
Proof.
move=> inb eq_fg; rewrite /ladder (shift_below k inb eq_fg); congr (_ + _).
apply: eq_bigr => j _; congr (_ * _); apply: shift_ext => pos.
apply: shift_below; first exact: in_bounds_dec.
by move=> m inb_m lt_m; apply: eq_fg => //; apply: ltn_trans (sumn_dec pos).
Qed.

Lemma ladder_ext k f g n : (forall m, f m = g m) -> ladder k f n = ladder k g n.
Proof.
move=> eq_fg; rewrite /ladder; congr (_ * _ + _).
  exact: shift_ext.
apply: eq_bigr => j _; congr (_ * _); apply: shift_ext => _.
exact: shift_ext.
Qed.

Lemma ladderD k f g n :
  ladder k (fun m => f m + g m) n = ladder k f n + ladder k g n.
Proof.
rewrite /ladder shiftD mulrDr addrACA -big_split /=; congr (_ + _).
apply: eq_bigr => j _.
rewrite -mulrDr; congr (_ * _); rewrite -shiftD; apply: shift_ext => _.
exact: shiftD.
Qed.

Lemma ladderZ k (a : C) f n : ladder k (fun m => a * f m) n = a * ladder k f n.
Proof.
rewrite /ladder shiftZ mulrDr mulrCA big_distrr /=; congr (_ + _).
apply: eq_bigr => j _.
rewrite [RHS]mulrCA; congr (_ * _); rewrite -shiftZ; apply: shift_ext => _.
exact: shiftZ.
Qed.

Lemma ladder_sum k (F : nat -> seq nat -> C) n :
  ladder k (fun m => \sum_(0 <= j < M) F j m) n
  = \sum_(0 <= j < M) ladder k (F j) n.
Proof.
rewrite /ladder [RHS]big_split /= -big_distrr /= -shift_sum; congr (_ + _).
rewrite [RHS]exchange_big /=; apply: eq_bigr => j _.
rewrite -big_distrr /=; congr (_ * _); rewrite -shift_sum.
by apply: shift_ext => _; apply: shift_sum.
Qed.

(** A ladder step commutes with a step down. *)
Lemma ladder_shift k p f n : ladder k (shift p f) n = shift p (ladder k f) n.
Proof.
rewrite /ladder shiftD shiftZ shift_sum shiftC; congr (_ + _).
apply: eq_bigr => j _; rewrite shiftZ; congr (_ * _).
rewrite [RHS]shiftC; apply: shift_ext => _.
exact: shiftC.
Qed.

(** Ladder steps along two axes commute. *)
Lemma ladderC k p f n : ladder p (ladder k f) n = ladder k (ladder p f) n.
Proof.
have eq_kp :
    ladder k (fun m => B_at B p * shift p f m
              + \sum_(0 <= j < M) A_at A p j * shift p (shift j f) m) n
    = B_at B p * ladder k (shift p f) n
      + \sum_(0 <= j < M) A_at A p j * ladder k (shift p (shift j f)) n.
  rewrite ladderD ladderZ ladder_sum; congr (_ + _).
  by apply: eq_bigr => j _; rewrite ladderZ.
rewrite [RHS]eq_kp {1}/ladder ladder_shift; congr (_ + _).
apply: eq_bigr => j _; congr (_ * _).
rewrite ladder_shift; apply: shift_ext => _.
by rewrite ladder_shift.
Qed.

Lemma sum_delta (F : nat -> C) k :
  (k < M)%N -> \sum_(0 <= j < M) (k == j)%:R * F j = F k.
Proof.
move=> lt_k; rewrite big_mkord (bigD1 (Ordinal lt_k)) //= eqxx mul1r.
rewrite big1 ?addr0 // => i; rewrite -val_eqE /= eq_sym => /negbTE ->.
by rewrite mul0r.
Qed.

(** Multiplication by the photon number of axis [k] against a ladder step
    along another axis [p]. *)
Lemma number_ladder k p f n :
  k != p -> (k < M)%N ->
  (nth 0%N n k)%:R * ladder p f n
  = ladder p (fun m => (nth 0%N m k)%:R * f m) n
    + A_at A p k * shift p (shift k f) n.
Proof.
move=> /negbTE neq_kp lt_k.
rewrite /ladder mulrDr mulrCA number_shift neq_kp mul0r addr0 -addrA.
congr (_ + _); rewrite big_distrr /=.
rewrite -(sum_delta (fun j => A_at A p j * shift p (shift j f) n) lt_k).
rewrite -big_split /=; apply: eq_bigr => j _.
rewrite mulrCA number_shift neq_kp mul0r addr0 [in RHS]mulrCA -mulrDr.
congr (_ * _).
rewrite -shiftZ -shiftD; apply: shift_ext => _.
exact: number_shift.
Qed.

Lemma ladder_zero k f n : nth 0%N n k = 0%N -> ladder k f n = 0.
Proof.
move=> eq0; rewrite /ladder /shift eq0 /= mulr0 add0r big1 // => j _.
by rewrite mulr0.
Qed.

(** *** Amplitudes and coefficients *)

Variable t : seq nat -> C.

(** The coefficient [t[n] / sqrt(n!)]. *)
Definition scaled n : C := t n / weight n.

Lemma scaledK n : scaled n * weight n = t n.
Proof. by rewrite /scaled divfK ?weight_neq0. Qed.

Lemma amplitude_ladder n k :
  size n = M -> (0 < nth 0 n k)%N ->
  amplitude A B t n k
  = weight (dec n k) / sqrtn C (nth 0%N n k) * ladder k scaled n.
Proof.
move=> eq_size pos; rewrite /amplitude /ladder eq_size mulrAC; congr (_ / _).
rewrite mulrDr {1 2}/shift pos mulrCA [weight _ * _]mulrC scaledK.
congr (_ + _); rewrite big_distrr /=; apply: eq_bigr => j _.
rewrite /shift; case: ifP => [pos_j|_]; last by rewrite !mulr0.
rewrite (weight_dec pos_j) -scaledK [RHS]mulrACA.
by rewrite [sqrtn _ _ * _]mulrC [weight _ * _]mulrC.
Qed.

Lemma recurrence_ladder n k :
  size n = M -> (0 < nth 0 n k)%N ->
  (t n == amplitude A B t n k)
  = ((nth 0%N n k)%:R * scaled n == ladder k scaled n).
Proof.
move=> eq_size pos; rewrite amplitude_ladder //.
have sq_neq0 := sqrtn_neq0 pos.
have factor_neq0 : weight (dec n k) / sqrtn C (nth 0%N n k) != 0.
  by rewrite mulf_neq0 ?invr_eq0 ?weight_neq0.
rewrite -[RHS](inj_eq (mulfI factor_neq0)); congr (_ == _).
rewrite -scaledK (weight_dec pos) -sqrtn_sqr.
move: sq_neq0 {factor_neq0}; set s := sqrtn C _ => s_neq0.
by rewrite -(mulrA s s) [RHS]mulrA divfK // [RHS]mulrCA [RHS]mulrA mulrC.
Qed.

(** *** The induction *)

Hypothesis A_sym : forall k j, A_at A k j = A_at A j k.

Hypothesis t_rec : forall n,
  in_bounds shp n -> nonzero n -> t n = amplitude A B t n (pivot n).

Lemma ladder_all n k :
  in_bounds shp n -> (nth 0%N n k)%:R * scaled n = ladder k scaled n.
Proof.
move: {2}(sumn n).+1 (ltnSn (sumn n)) => s; elim: s n k => // s IH n k.
rewrite ltnS => le_s inb.
have below m : in_bounds shp m -> (sumn m < sumn n)%N ->
    forall k', (nth 0%N m k')%:R * scaled m = ladder k' scaled m.
  by move=> inb_m lt_m k'; apply: IH => //; apply: leq_trans lt_m le_s.
have eq_size : size n = M by case/andP: inb => /eqP.
case: (posnP (nth 0%N n k)) => [eq0|pos_k].
  by rewrite ladder_zero // eq0 mul0r.
have lt_k : (k < M)%N by rewrite -eq_size; apply: nth_pos_size pos_k.
have nz : nonzero n.
  by apply/hasP; exists (nth 0%N n k) => //; rewrite mem_nth // eq_size.
have pos_p := pivot_pos nz.
have lt_p : (pivot n < M)%N by rewrite -eq_size; apply: nth_pos_size pos_p.
have /eqP := t_rec inb nz; rewrite recurrence_ladder // => /eqP rec_p.
case: (eqVneq k (pivot n)) => [->//|neq_kp].
have eq_k : (nth 0%N n k)%:R * ladder (pivot n) scaled n
            = ladder (pivot n) (ladder k scaled) n
              + A_at A (pivot n) k * shift (pivot n) (shift k scaled) n.
  rewrite number_ladder //; congr (_ + _).
  by apply: ladder_below inb _ => m inb_m lt_m; apply: below.
have eq_p : (nth 0%N n (pivot n))%:R * ladder k scaled n
            = ladder k (ladder (pivot n) scaled) n
              + A_at A k (pivot n) * shift k (shift (pivot n) scaled) n.
  rewrite number_ladder // 1?eq_sym //; congr (_ + _).
  by apply: ladder_below inb _ => m inb_m lt_m; apply: below.
have p_neq0 : (nth 0%N n (pivot n))%:R != 0 :> C by rewrite pnatr_eq0 -lt0n.
apply: (mulfI p_neq0).
by rewrite eq_p mulrCA rec_p eq_k ladderC A_sym shiftC.
Qed.

(** For a symmetric [A] a tensor that satisfies the recurrence along the
    first positive axis satisfies it along every positive axis. *)
Lemma recurrence_all_axes n k :
  in_bounds shp n -> (0 < nth 0 n k)%N -> t n = amplitude A B t n k.
Proof.
move=> inb pos; have eq_size : size n = M by case/andP: inb => /eqP.
by apply/eqP; rewrite recurrence_ladder // ladder_all.
Qed.

End Symmetric.

(** C1 (as the recurrence can hold for every [A]).  A call with positive
    cutoffs returns a tensor of shape [cutoffs] (doubled when
    [len(B) = 2 len(cutoffs)]) whose entry at the all-zero index is [C] and
    whose every other entry [idx] equals
    [(B[k] t[idx - e_k] + sum_j A[k,j] sqrt(idx'[j]) t[idx - e_k - e_j])
     / sqrt(idx[k])]
    for [k] the first axis with [idx[k] >= 1], the axis the engine advances
    there, and, when [A] is symmetric, for every axis [k] with
    [idx[k] >= 1]; terms with a negative index contribute zero. *)
Theorem recursive_state_recurrence (C : numClosedFieldType)
    (A : seq (seq C)) (B : seq C) (C0 : C) (cutoffs : seq int) :
  all (fun c => 0 < c) cutoffs ->
  let mixed := size B == (2 * size cutoffs)%N in
  let shp := map range_len (doubled cutoffs mixed) in
  let state := forward A B C0 cutoffs in
  let recurrence idx k :=
    let idx' := dec idx k in
    item state idx
    = (B_at B k * item state idx'
       + \sum_(0 <= j < size idx)
           (if (0 < nth 0 idx' j)%N
            then A_at A k j * sqrtn C (nth 0%N idx' j)
                 * item state (dec idx' j)
            else 0))
      / sqrtn C (nth 0%N idx k) in
  [/\ state_of (_recursive_state A B C0 cutoffs) = Some state,
      shape state = shp,
      item state (nseq (size shp) 0%N) = C0,
      forall idx, in_bounds shp idx -> nonzero idx ->
        recurrence idx (pivot idx)
    & (forall k j, A_at A k j = A_at A j k) ->
      forall idx k, in_bounds shp idx -> (0 < nth 0 idx k)%N ->
        recurrence idx k].
Proof.
move=> pos /=; split.
- by rewrite recursive_state_ok.
- exact: forward_shape.
- by rewrite -zero_indexE forward_zero.
- by move=> idx inb nz; apply: forward_recurrence.
- move=> A_sym idx k inb pos_k; apply: recurrence_all_axes inb pos_k => //.
  by move=> n inb nz; apply: forward_recurrence.
Qed.

(** C8 (as the code has it).  A call whose cutoffs contain a non-positive
    entry fails and returns no tensor: with a negative entry [np.zeros]
    raises [ValueError] and nothing has been allocated; with an entry 0 and
    none negative, an empty tensor is allocated and the write of [C] at the
    all-zero index raises [IndexError]. *)
Theorem recursive_state_nonpositive_cutoff (C : numClosedFieldType)
    (A : seq (seq C)) (B : seq C) (C0 : C) (cutoffs : seq int) :
  has (fun c => c <= 0) cutoffs ->
  let mixed := size B == (2 * size cutoffs)%N in
  let shp := map range_len (doubled cutoffs mixed) in
  _recursive_state A B C0 cutoffs
  = if has (fun c => c < 0) cutoffs then ([::], Raise ValueError)
    else ([:: Alloc shp], Raise IndexError).
Proof.
move=> nonpos /=; case: ifP => [neg|/negbT no_neg].
  exact: recursive_state_negative.
exact: recursive_state_zero.
Qed.

(** C5.  After a forward pass that returned [state] and the closure [grad],
    the closure called on an upstream gradient [dy] of the shape of [state]
    returns [dL/dC = sum_idx dy[idx] conj(state[idx] / C)], the sum ranging
    over all multi-indices of the tensor. *)
Theorem grad_dLdC (C : numClosedFieldType) fill_gradients
    (A : seq (seq C)) (B : seq C) (C0 : C) (cutoffs : seq int)
    tr state env (dy : ndarray C) :
  _recursive_state A B C0 cutoffs = (tr, Ok (state, env)) ->
  shape dy = shape state ->
  dLdC (grad fill_gradients env dy)
  = \sum_(idx <- ndindex (shape state)) item dy idx * (item state idx / C0)^*.
Proof.
move=> /recursive_state_closure [eq_state eq_C] eq_shape.
rewrite /grad; case: (fill_gradients _ _ _ _ _ _) => dA dB /=.
by rewrite /nd_sum /= eq_shape eq_state eq_C.
Qed.

(** *** Concrete calls *)

Section Examples.

Variable C : numClosedFieldType.

(** The single-mode example of the specification: [A = [[0.5]]],
    [B = [0.3]], [C = 1.0]. *)
Definition A1 : seq (seq C) := [:: [:: 2^-1]].
Definition B1 : seq C := [:: 3 / 10].

(** A two-mode triple with a matrix [A] that is not symmetric. *)
Definition A2 : seq (seq C) := [:: [:: 0; 1]; [:: 0; 0]].
Definition B2 : seq C := [:: 0; 0].

(** The recurrence of the single-mode example, written out for cutoff 4. *)
Lemma single_mode_recurrence (t : seq nat -> C) :
  (forall idx, in_bounds [:: 4%N] idx -> nonzero idx ->
     t idx = amplitude A1 B1 t idx (pivot idx)) ->
  [/\ t [:: 1%N] = 3 / 10 * t [:: 0%N] / sqrtn C 1,
      t [:: 2%N]
      = (3 / 10 * t [:: 1%N] + 2^-1 * sqrtn C 1 * t [:: 0%N]) / sqrtn C 2
    & t [:: 3%N]
      = (3 / 10 * t [:: 2%N] + 2^-1 * sqrtn C 2 * t [:: 1%N]) / sqrtn C 3].
Proof.
move=> rec; split.
- by rewrite (rec [:: 1%N]) // /amplitude /= big_nat1 /= addr0.
- by rewrite (rec [:: 2%N]) // /amplitude /= big_nat1.
- by rewrite (rec [:: 3%N]) // /amplitude /= big_nat1.
Qed.

(** No tensor at all satisfies the recurrence of [A2] along both axes at
    [(1, 1)]: along axis 0 its value is [t[0,0]], along axis 1 it is 0. *)
Lemma recurrence_overdetermined (t : seq nat -> C) :
  t [:: 0; 0]%N = 1 ->
  t [:: 1; 1]%N = amplitude A2 B2 t [:: 1; 1]%N 0 ->
  t [:: 1; 1]%N <> amplitude A2 B2 t [:: 1; 1]%N 1.
Proof.
move=> t0 ->; rewrite /amplitude /=.
rewrite big_ltn // big_ltn // big_geq // big_ltn // big_ltn // big_geq //.
rewrite /dec /=.
rewrite /B_at /A_at /= !mul0r !add0r !addr0 mul1r t0.
by rewrite /sqrtn sqrtC1 mulr1 !divr1 => /eqP; rewrite oner_eq0.
Qed.

End Examples.

(** The example of the specification, over the algebraic numbers: cutoff 4
    gives four entries that satisfy the recurrence. *)
Lemma recursive_state_recurrence_witness :
  let t := item (forward (A1 algC) (B1 algC) 1 [:: 4]) in
  [/\ all (fun c : int => 0 < c) [:: 4],
      t [:: 0%N] = 1,
      t [:: 1%N] = 3 / 10 * t [:: 0%N] / sqrtn algC 1,
      t [:: 2%N]
      = (3 / 10 * t [:: 1%N] + 2^-1 * sqrtn algC 1 * t [:: 0%N])
        / sqrtn algC 2
    & t [:: 3%N]
      = (3 / 10 * t [:: 2%N] + 2^-1 * sqrtn algC 2 * t [:: 1%N])
        / sqrtn algC 3].
Proof.
have pos : all (fun c : int => 0 < c) [:: 4] by [].
have [_ _ t0 rec _] := recursive_state_recurrence (A1 algC) (B1 algC) 1 pos.
have [e1 e2 e3] := single_mode_recurrence rec.
by split.
Defined.

(** C1 as stated fails: for [A2] the entry at [(1, 1)] is the value of the
    recurrence along axis 0, which is 1, while the recurrence along axis 1,
    where the index is also positive, has the value 0. *)
Lemma recurrence_fails_off_pivot :
  let state := forward (A2 algC) (B2 algC) 1 [:: 2; 2] in
  let idx := [:: 1; 1]%N in
  let k := 1%N in
  let idx' := dec idx k in
  [/\ state_of (_recursive_state (A2 algC) (B2 algC) 1 [:: 2; 2]) = Some state,
      in_bounds (shape state) idx,
      (1 <= nth 0 idx k)%N
    & item state idx
      <> (B_at (B2 algC) k * item state idx'
          + \sum_(0 <= j < size idx)
              (if (0 < nth 0 idx' j)%N
               then A_at (A2 algC) k j * sqrtn algC (nth 0%N idx' j)
                    * item state (dec idx' j)
               else 0))
         / sqrtn algC (nth 0%N idx k)].
Proof.
have pos : all (fun c : int => 0 < c) [:: 2; 2] by [].
move: (@forward_zero _ (A2 algC) (B2 algC) 1 [:: 2; 2] pos).
move: (@forward_recurrence _ (A2 algC) (B2 algC) 1 [:: 2; 2] [:: 1; 1]%N
         pos isT isT).
move: (@forward_shape _ (A2 algC) (B2 algC) 1 [:: 2; 2]).
move: (@recursive_state_ok _ (A2 algC) (B2 algC) 1 [:: 2; 2] pos).
move: (forward _ _ _ _) => state eq_call eq_shape eq_rec eq_zero.
split.
- by rewrite eq_call.
- by rewrite eq_shape.
- by [].
- exact: recurrence_overdetermined.
Qed.

(** C8 as stated fails: with the cutoff 0 the call allocates an (empty)
    tensor before it fails, and the failure is an [IndexError]. *)
Lemma recursive_state_zero_cutoff :
  let r := _recursive_state (A1 algC) (B1 algC) 1 [:: 0] in
  [/\ r = ([:: Alloc [:: 0%N]], Raise IndexError),
      r.1 <> [::]
    & r.2 <> Raise InvalidArgumentError].
Proof. by move=> r; rewrite /r recursive_state_zero. Qed.

Lemma recursive_state_nonpositive_cutoff_witness :
  [/\ has (fun c : int => c <= 0) [:: 2; -1],
      _recursive_state (A2 algC) (B2 algC) 1 [:: 2; -1] = ([::], Raise ValueError)
    & _recursive_state (A1 algC) (B1 algC) 1 [:: 0]
      = ([:: Alloc [:: 0%N]], Raise IndexError)].
Proof.
split; first by [].
- exact: (@recursive_state_nonpositive_cutoff _ (A2 algC) (B2 algC) 1
            [:: 2; -1]).
- exact: (@recursive_state_nonpositive_cutoff _ (A1 algC) (B1 algC) 1 [:: 0]).
Defined.

(** An upstream gradient of ones, and sensitivity tensors left as they are
    allocated (their contents do not enter [dL/dC]). *)
Definition ones2 : ndarray algC := NdArray [:: 2%N] (fun _ => 1).
Definition as_allocated (dA dB state : ndarray algC) (A : seq (seq algC))
    (B : seq algC) (max_photons : seq int) := (dA, dB).

Lemma grad_dLdC_witness :
  let state := forward (A1 algC) (B1 algC) 1 [:: 2] in
  let env := GradClosure (A1 algC) (B1 algC) 1 [:: 2] false [:: 1] state in
  [/\ _recursive_state (A1 algC) (B1 algC) 1 [:: 2]
      = ([:: Alloc [:: 2%N]], Ok (state, env)),
      shape ones2 = shape state
    & dLdC (grad as_allocated env ones2)
      = \sum_(idx <- ndindex (shape state))
           item ones2 idx * (item state idx / 1)^* ].
Proof.
have pos : all (fun c : int => 0 < c) [:: 2] by [].
have eq_call := recursive_state_ok (A1 algC) (B1 algC) 1 pos.
have eq_shape : shape ones2 = shape (forward (A1 algC) (B1 algC) 1 [:: 2]).
  by rewrite forward_shape.
split; [exact: eq_call | exact: eq_shape |].
exact: (grad_dLdC as_allocated eq_call eq_shape).
Defined.

End Fock.

(** ** TFCircuitBackend: from a Gaussian state to the generating triple *)

Module Mapper.

Section GaussianToABC.

Variable C : numClosedFieldType.

(** [utils.rotmat] and [utils.Xmat] are not part of the sources: the fixed
    rotation matrix [R] and the fixed permutation matrix [X] of size 2N. *)
Variable rotmat : forall n : nat, 'M[C]_(n + n).
Variable Xmat : forall n : nat, 'M[C]_(n + n).

(** [tf.math.exp] and [**] on [complex128]. *)
Variable cexp : C -> C.
Variable cpow : C -> C -> C.

(** [num_modes] *)
Variable n : nat.

Definition conj_mx (m1 m2 : nat) (M : 'M[C]_(m1, m2)) : 'M[C]_(m1, m2) :=
  map_mx Num.conj M.

(** [tf.linalg.matvec(M, v)] on a vector stored as a row. *)
Definition matvec (m : nat) (M : 'M[C]_m) (v : 'rV[C]_m) : 'rV[C]_m :=
  (M *m v^T)^T.

(** [tf.einsum('i,ij,j', u, M, v)] *)
Definition einsum_i_ij_j (m : nat) (u : 'rV[C]_m) (M : 'M[C]_m)
    (v : 'rV[C]_m) : C :=
  \sum_i \sum_j u 0 i * M i j * v 0 j.

(** [tf.linalg.inv]: raises on a matrix that is not invertible. *)
Definition linalg_inv (m : nat) (M : 'M[C]_m) : result 'M[C]_m :=
  if M \in unitmx then Ok (invmx M) else Raise InvalidArgumentError.

(** [N = num_modes + num_modes*mixed]: [num_modes] for a pure state, twice
    that for a mixed one. *)
Definition truncated_size (mixed : bool) : nat := if mixed then n + n else n.

(** [M[:N, :N]] and [v[:N]] for [N] at most the size. *)
Definition slice2 (N m : nat) (M : 'M[C]_m) : 'M[C]_N :=
  \matrix_(i, j)
     (if insub (val i) is Some i' then
        if insub (val j) is Some j' then M i' j' else 0
      else 0).

Definition slice1 (N m : nat) (v : 'rV[C]_m) : 'rV[C]_N :=
  \row_j (if insub (val j) is Some j' then v 0 j' else 0).

(** [sigma_Q]: [(1 / hbar) * R @ cov @ conj(transpose(R)) + 0.5 * eye(l)];
    [*] and [@] associate to the left. *)
Definition sigma_Q (cov : 'M[C]_(n + n)) (hbar : C) : 'M[C]_(n + n) :=
  let R := rotmat n in
  let sigma := ((1 / hbar) *: R) *m cov *m conj_mx (R^T) in
  sigma + 2^-1 *: 1%:M.

(** [_Sigma_mu_C] *)
Definition _Sigma_mu_C (cov : 'M[C]_(n + n)) (means : 'rV[C]_(n + n))
    (mixed : bool) (hbar : C)
  : result ('M[C]_(truncated_size mixed) * 'rV[C]_(truncated_size mixed) * C) :=
  let N := truncated_size mixed in
  let sQ := sigma_Q cov hbar in
  match linalg_inv sQ with
  | inl e => Raise e
  | inr sQinv =>
    let A := Xmat n *m (1%:M - sQinv) in
    let alpha :=
      (sqrtC (2 * hbar))^-1 *: (lsubmx means + 'i *: rsubmx means) in
    let beta := row_mx alpha (conj_mx alpha) in
    let gamma := matvec sQinv^T (conj_mx beta) in
    let T :=
      cexp (- 2^-1 * einsum_i_ij_j beta sQinv (conj_mx beta))
      / sqrtC (\det sQ) in
    Ok (- slice2 N A, slice1 N gamma, cpow T (2^-1 + 2^-1 * mixed%:R))
  end.

(** *** The mapper in the words of the specification *)

(** [sigma_Q = R cov R^H / hbar + I/2] *)
Definition sigma_Q_spec (cov : 'M[C]_(n + n)) (hbar : C) : 'M[C]_(n + n) :=
  hbar^-1 *: (rotmat n *m cov *m (conj_mx (rotmat n))^T) + 2^-1 *: 1%:M.

(** The top-left N x N block (the first N entries) when pure, the full 2N
    block when mixed. *)
Definition truncated_block (mixed : bool) (M : 'M[C]_(n + n))
  : 'M[C]_(truncated_size mixed) :=
  match mixed return 'M[C]_(truncated_size mixed) with
  | true => M
  | false => ulsubmx M
  end.

Definition truncated_entries (mixed : bool) (v : 'rV[C]_(n + n))
  : 'rV[C]_(truncated_size mixed) :=
  match mixed return 'rV[C]_(truncated_size mixed) with
  | true => v
  | false => lsubmx v
  end.

Definition gaussian_to_ABC_spec (cov : 'M[C]_(n + n))
    (means : 'rV[C]_(n + n)) (mixed : bool) (hbar : C)
  : 'M[C]_(truncated_size mixed) * 'rV[C]_(truncated_size mixed) * C :=
  let sQinv := invmx (sigma_Q_spec cov hbar) in
  let A_full := Xmat n *m (1%:M - sQinv) in
  let alpha := (sqrtC (2 * hbar))^-1 *: (lsubmx means + 'i *: rsubmx means) in
  let beta := row_mx alpha (conj_mx alpha) in
  let gamma := (sQinv^T *m (conj_mx beta)^T)^T in
  let T :=
    cexp (- 2^-1 * (beta *m sQinv *m (conj_mx beta)^T) 0 0)
    / sqrtC (\det (sigma_Q_spec cov hbar)) in
  (- truncated_block mixed A_full, truncated_entries mixed gamma,
   if mixed then cpow T 1 else cpow T 2^-1).

Lemma sigma_QE cov hbar : sigma_Q cov hbar = sigma_Q_spec cov hbar.
Proof.
rewrite /sigma_Q /sigma_Q_spec /conj_mx div1r -!scalemxAl; congr (_ *: _ + _).
by rewrite map_trmx.
Qed.

Lemma slice2_full (M : 'M[C]_(n + n)) : slice2 (n + n) M = M.
Proof. by apply/matrixP => i j; rewrite !mxE !valK. Qed.

Lemma slice1_full (v : 'rV[C]_(n + n)) : slice1 (n + n) v = v.
Proof. by apply/matrixP => i j; rewrite !mxE valK ord1. Qed.

Lemma insub_lshift (i : 'I_n) :
  insub (val i) = Some (lshift n i) :> option 'I_(n + n).
Proof.
have lt_i : (val i < n + n)%N by exact: ltn_addr (ltn_ord i).
rewrite (insubT (fun k => k < n + n)%N lt_i); congr Some; apply: val_inj.
by rewrite SubK.
Qed.

Lemma slice2_block (M : 'M[C]_(n + n)) : slice2 n M = ulsubmx M.
Proof. by apply/matrixP => i j; rewrite !mxE !insub_lshift. Qed.

Lemma slice1_block (v : 'rV[C]_(n + n)) : slice1 n v = lsubmx v.
Proof. by apply/matrixP => i j; rewrite !mxE insub_lshift ord1. Qed.

Lemma slice2_truncated mixed (M : 'M[C]_(n + n)) :
  slice2 (truncated_size mixed) M = truncated_block mixed M.
Proof. by case: mixed; rewrite /= ?slice2_full ?slice2_block. Qed.

Lemma slice1_truncated mixed (v : 'rV[C]_(n + n)) :
  slice1 (truncated_size mixed) v = truncated_entries mixed v.
Proof. by case: mixed; rewrite /= ?slice1_full ?slice1_block. Qed.

Lemma einsum_i_ij_jE (m : nat) (u v : 'rV[C]_m) (M : 'M[C]_m) :
  einsum_i_ij_j u M v = (u *m M *m v^T) 0 0.
Proof.
rewrite /einsum_i_ij_j mxE exchange_big /=; apply: eq_bigr => j _.
by rewrite !mxE big_distrl.
Qed.

Lemma exponentE (mixed : bool) (T : C) :
  cpow T (2^-1 + 2^-1 * mixed%:R) = if mixed then cpow T 1 else cpow T 2^-1.
Proof.
case: mixed; last by rewrite mulr0 addr0.
by rewrite mulr1 -mulr2n -mulr_natr mulVf // pnatr_eq0.
Qed.

(** C2.  The mapper returns [(-A_truncated, gamma_truncated, C)] as the
    specification defines them: [A_full = X (I - sigma_Q^-1)] with
    [sigma_Q = R cov R^H / hbar + I/2], [gamma = sigma_Q^-T conj(beta)] with
    [beta = concat(alpha, conj(alpha))] and
    [alpha = (means_x + i means_p) / sqrt(2 hbar)], truncated to the first N
    entries (top-left N x N block) when pure and kept whole when mixed, and
    [C = T^(0.5 + 0.5 mixed)] with
    [T = exp(-1/2 beta^T sigma_Q^-1 conj(beta)) / sqrt(det sigma_Q)].  The
    result is a function of the inputs alone.  The inversion of a singular
    [sigma_Q] raises, as the specification of the mapper says. *)
Theorem Sigma_mu_C_spec (cov : 'M[C]_(n + n)) (means : 'rV[C]_(n + n))
    (mixed : bool) (hbar : C) :
  _Sigma_mu_C cov means mixed hbar
  = if sigma_Q_spec cov hbar \in unitmx
    then Ok (gaussian_to_ABC_spec cov means mixed hbar)
    else Raise InvalidArgumentError.
Proof.
rewrite /_Sigma_mu_C /linalg_inv sigma_QE; case: ifP => // _.
rewrite /Ok /= /gaussian_to_ABC_spec slice2_truncated slice1_truncated.
by rewrite einsum_i_ij_jE exponentE.
Qed.

End GaussianToABC.

End Mapper.

(** ** TFGateBackend: symplectic matrices of the Gaussian gates *)

Module Gates.

Import Manifold GateBackend.

(** *** Entries of sums, opposites and images *)

Section Entries.

Variables (R : pzRingType) (m n : nat).
Implicit Types (A B : 'M[R]_(m, n)).

Lemma addmxE A B i j : (A + B) i j = A i j + B i j.
Proof. by rewrite mxE. Qed.

Lemma oppmxE A i j : (- A) i j = - A i j.
Proof. by rewrite mxE. Qed.

Lemma submxE A B i j : (A - B) i j = A i j - B i j.
Proof. by rewrite addmxE oppmxE. Qed.

Lemma scalemxE (a : R) A i j : (a *: A) i j = a * A i j.
Proof. by rewrite mxE. Qed.

Lemma map_mxE (T : Type) (f : T -> R) (M : 'M[T]_(m, n)) i j :
  (map_mx f M) i j = f (M i j).
Proof. by rewrite mxE. Qed.

End Entries.

Section DiagonalEntries.

Variables (R : comPzRingType) (m n : nat).

Lemma mul_mx_diagE (A : 'M[R]_(m, n)) (d : 'rV[R]_n) i j :
  (A *m diag_mx d) i j = A i j * d 0 j.
Proof. by rewrite mul_mx_diag mxE. Qed.

Lemma mul_diag_mxE (d : 'rV[R]_m) (A : 'M[R]_(m, n)) i j :
  (diag_mx d *m A) i j = d 0 i * A i j.
Proof. by rewrite mul_diag_mx mxE. Qed.

End DiagonalEntries.

(** *** Block criteria *)

Section BlockCriteria.

Variable R : numFieldType.
Variable n : nat.
Implicit Types A B C D : 'M[R]_n.

Lemma symplectic_block A B C D :
  A^T *m C = C^T *m A -> B^T *m D = D^T *m B ->
  A^T *m D - C^T *m B = 1%:M ->
  symplectic (block_mx A B C D).
Proof.
move=> eqAC eqBD eqAD; rewrite /symplectic /J tr_block_mx !mulmx_block.
rewrite !(mul0mx, mulmx0, mul1mx, mulmx1, mulNmx, mulmxN, add0r, addr0).
rewrite eqAC addNr -eqBD addNr addrC eqAD.
have -> : - (D^T *m A) + B^T *m C = - 1%:M.
  rewrite addrC -opprB; congr (- _).
  by rewrite -[LHS]trmxK linearB /= !trmx_mul !trmxK eqAD trmx1.
by [].
Qed.

Lemma orthogonal_block A B C D :
  A^T *m A + C^T *m C = 1%:M -> A^T *m B + C^T *m D = 0 ->
  B^T *m B + D^T *m D = 1%:M ->
  orthogonal (block_mx A B C D).
Proof.
move=> eqA eqAB eqB; rewrite /orthogonal tr_block_mx mulmx_block eqA eqAB eqB.
have -> : B^T *m A + D^T *m C = 0.
  by rewrite -[LHS]trmxK linearD /= !trmx_mul !trmxK eqAB trmx0.
by rewrite -scalar_mx_block.
Qed.

End BlockCriteria.

(** *** Blocks of diagonal matrices *)

Section DiagonalBlocks.

Variable R : numFieldType.
Variable N : nat.
Implicit Types a b c d : 'rV[R]_N.

Definition dblock a b c d : 'M[R]_(N + N) :=
  block_mx (diag_mx a) (diag_mx b) (diag_mx c) (diag_mx d).

Lemma diag_mx_eq a b : (forall i, a 0 i = b 0 i) -> diag_mx a = diag_mx b.
Proof. by move=> eq_ab; congr diag_mx; apply/rowP. Qed.

Lemma diag_mxDM a b c d :
  diag_mx a *m diag_mx b + diag_mx c *m diag_mx d
  = diag_mx (\row_i (a 0 i * b 0 i + c 0 i * d 0 i)).
Proof.
rewrite !mulmx_diag -raddfD /=; apply: diag_mx_eq => i.
by rewrite !mxE.
Qed.

Lemma dblock_mul a b c d a' b' c' d' :
  dblock a b c d *m dblock a' b' c' d'
  = dblock (\row_i (a 0 i * a' 0 i + b 0 i * c' 0 i))
           (\row_i (a 0 i * b' 0 i + b 0 i * d' 0 i))
           (\row_i (c 0 i * a' 0 i + d 0 i * c' 0 i))
           (\row_i (c 0 i * b' 0 i + d 0 i * d' 0 i)).
Proof. by rewrite /dblock mulmx_block !diag_mxDM. Qed.

Lemma dblock_tr a b c d : (dblock a b c d)^T = dblock a c b d.
Proof. by rewrite /dblock tr_block_mx !tr_diag_mx. Qed.

Lemma dblock_eq a b c d a' b' c' d' :
  (forall i, [/\ a 0 i = a' 0 i, b 0 i = b' 0 i, c 0 i = c' 0 i
                & d 0 i = d' 0 i]) ->
  dblock a b c d = dblock a' b' c' d'.
Proof.
move=> eqs; rewrite /dblock.
by congr block_mx; apply: diag_mx_eq => i; case: (eqs i).
Qed.

Lemma dblock1 : 1%:M = dblock (const_mx 1) 0 0 (const_mx 1).
Proof. by rewrite /dblock !diag_const_mx !raddf0 -scalar_mx_block. Qed.

Lemma dblockJ : J R N = dblock 0 (const_mx 1) (const_mx (- 1)) 0.
Proof.
rewrite /dblock /J !diag_const_mx !raddf0; congr block_mx.
by rewrite raddfN.
Qed.

Lemma symplectic_dblock a b c d :
  (forall i, a 0 i * d 0 i - c 0 i * b 0 i = 1) -> symplectic (dblock a b c d).
Proof.
move=> det1; rewrite /symplectic dblock_tr dblockJ !dblock_mul.
apply/eqP/dblock_eq => i; rewrite !mxE; split; try ring.
  by rewrite -[RHS](det1 i); ring.
by rewrite -[in RHS](det1 i); ring.
Qed.

Lemma orthogonal_dblock a b c d :
  (forall i, a 0 i * a 0 i + c 0 i * c 0 i = 1) ->
  (forall i, a 0 i * b 0 i + c 0 i * d 0 i = 0) ->
  (forall i, b 0 i * b 0 i + d 0 i * d 0 i = 1) ->
  orthogonal (dblock a b c d).
Proof.
move=> eqa eqab eqb; rewrite /orthogonal dblock_tr dblock_mul dblock1.
apply/eqP/dblock_eq => i; rewrite !mxE; split=> //.
by rewrite -[RHS](eqab i); ring.
Qed.

End DiagonalBlocks.

(** *** Four by four matrices given by their rows *)

Section ScalarBlocks.

Variable R : numFieldType.
Implicit Types a b c d : R.

Definition sq2 a b c d : 'M[R]_(1 + 1) := block_mx a%:M b%:M c%:M d%:M.

Lemma sq2_mul a b c d a' b' c' d' :
  sq2 a b c d *m sq2 a' b' c' d'
  = sq2 (a * a' + b * c') (a * b' + b * d') (c * a' + d * c') (c * b' + d * d').
Proof. by rewrite /sq2 mulmx_block -!scalar_mxM -!raddfD. Qed.

Lemma sq2_tr a b c d : (sq2 a b c d)^T = sq2 a c b d.
Proof. by rewrite /sq2 tr_block_mx !tr_scalar_mx. Qed.

Lemma sq2D a b c d a' b' c' d' :
  sq2 a b c d + sq2 a' b' c' d' = sq2 (a + a') (b + b') (c + c') (d + d').
Proof. by rewrite /sq2 add_block_mx -!raddfD. Qed.

Lemma sq2N a b c d : - sq2 a b c d = sq2 (- a) (- b) (- c) (- d).
Proof. by rewrite /sq2 opp_block_mx -!raddfN. Qed.

Lemma sq2_1 : 1%:M = sq2 1 0 0 1.
Proof. by rewrite /sq2 !raddf0 -scalar_mx_block. Qed.

Lemma sq2_0 : 0 = sq2 0 0 0 0.
Proof. by rewrite /sq2 !raddf0 block_mx0. Qed.

Lemma sq2_eq a b c d a' b' c' d' :
  [/\ a = a', b = b', c = c' & d = d'] -> sq2 a b c d = sq2 a' b' c' d'.
Proof. by case=> -> -> -> ->. Qed.

(** [tf.convert_to_tensor] of a list of four rows of four scalars: the
    matrix of a gate on two modes, of size 2 * 2 with 2 = 1 + 1. *)
Definition convert_to_tensor (rows : seq (seq R))
  : 'M[R]_((1 + 1) + (1 + 1)) :=
  \matrix_(i, j) nth 0 (nth [::] rows i) j.

Lemma convert_to_tensorE a00 a01 a02 a03 a10 a11 a12 a13
    a20 a21 a22 a23 a30 a31 a32 a33 :
  convert_to_tensor [:: [:: a00; a01; a02; a03]; [:: a10; a11; a12; a13];
                        [:: a20; a21; a22; a23]; [:: a30; a31; a32; a33]]
  = block_mx (sq2 a00 a01 a10 a11) (sq2 a02 a03 a12 a13)
             (sq2 a20 a21 a30 a31) (sq2 a22 a23 a32 a33).
Proof.
apply/matrixP => i j; rewrite [LHS]mxE.
case: (split_ordP i) => i' ->; case: (split_ordP j) => j' ->;
  [ rewrite block_mxEul | rewrite block_mxEur
  | rewrite block_mxEdl | rewrite block_mxEdr ];
  rewrite /sq2;
  ( case: (@split_ordP 1 1 i') => i2 ->; case: (@split_ordP 1 1 j') => j2 ->;
    [ rewrite block_mxEul | rewrite block_mxEur
    | rewrite block_mxEdl | rewrite block_mxEdr ] );
  by rewrite !ord1 mxE eqxx mulr1n.
Qed.


End ScalarBlocks.

(** *** The gates *)

Section GaussianGates.

Variable R : rcfType.

(** [tf.math.cos], [tf.math.sin], [tf.math.cosh], [tf.math.sinh]: parameters,
    constrained by the Pythagorean identities and by parity. *)
Variables cos sin cosh sinh : R -> R.

Record circular_laws : Prop := CircularLaws {
  cos2Dsin2 : forall x, cos x ^+ 2 + sin x ^+ 2 = 1;
  cosN : forall x, cos (- x) = cos x;
  sinN : forall x, sin (- x) = - sin x
}.

Record hyperbolic_laws : Prop := HyperbolicLaws {
  cosh2Bsinh2 : forall x, cosh x ^+ 2 - sinh x ^+ 2 = 1;
  coshN : forall x, cosh (- x) = cosh x;
  sinhN : forall x, sinh (- x) = - sinh x
}.

Section Modes.

(** [num_modes] *)
Variable N : nat.
Implicit Types phi r x y u v : 'rV[R]_N.

(** The elementwise product of two vectors, [u * v]. *)
Definition vmul u v : 'rV[R]_N := \row_i (u 0 i * v 0 i).

(** [displacement]: [np.sqrt(2*hbar) * tf.concat([x, y], axis=0)] *)
Definition displacement x y (hbar : R) : 'rV[R]_(N + N) :=
  Num.sqrt (2 * hbar) *: row_mx x y.

(** [tf.linalg.diag(v, k=num_modes)] and [tf.linalg.diag(v, k=-num_modes)]
    for [v] of length [num_modes]: the 2N x 2N matrices with [v] on the
    diagonal of the upper right, respectively lower left, block. *)
Definition diag_super v : 'M[R]_(N + N) := block_mx 0 (diag_mx v) 0 0.
Definition diag_sub v : 'M[R]_(N + N) := block_mx 0 0 (diag_mx v) 0.

Definition rotation_symplectic phi : 'M[R]_(N + N) :=
  let x := map_mx cos phi in
  let y := map_mx sin phi in
  diag_concat x + diag_super (- y) + diag_sub y.

Definition squeezing_symplectic r phi : 'M[R]_(N + N) :=
  let cp := map_mx cos phi in
  let sp := map_mx sin phi in
  let ch := map_mx cosh r in
  let sh := map_mx sinh r in
  diag_mx (row_mx (ch - vmul cp sh) (ch + vmul cp sh))
  + diag_super (vmul (- sp) sh)
  + diag_sub (vmul (- sp) sh).

End Modes.

Definition beam_splitter_symplectic (theta phi : R)
  : 'M[R]_((1 + 1) + (1 + 1)) :=
  let ct := cos theta in
  let st := sin theta in
  let cp := cos phi in
  let sp := sin phi in
  convert_to_tensor [:: [:: ct; - cp * st; 0; - sp * st];
                        [:: cp * st; ct; - sp * st; 0];
                        [:: 0; sp * st; ct; - cp * st];
                        [:: sp * st; 0; cp * st; ct]].

Definition two_mode_squeezing_symplectic (r phi : R)
  : 'M[R]_((1 + 1) + (1 + 1)) :=
  let cp := cos phi in
  let sp := sin phi in
  let ch := cosh r in
  let sh := sinh r in
  convert_to_tensor [:: [:: ch; cp * sh; 0; sp * sh];
                        [:: cp * sh; ch; sp * sh; 0];
                        [:: 0; sp * sh; ch; - cp * sh];
                        [:: sp * sh; 0; - cp * sh; ch]].

End GaussianGates.

Section GateTheory.

Variable R : rcfType.
Variables cos sin cosh sinh : R -> R.

Section ModesTheory.

Variable N : nat.
Implicit Types phi r v : 'rV[R]_N.

Lemma diag_superE v (a b : 'I_N) :
  diag_super v (lshift N a) (rshift N b) = v 0 a *+ (a == b).
Proof. by rewrite /diag_super block_mxEur mxE. Qed.

Lemma diag_subE v (a b : 'I_N) :
  diag_sub v (rshift N a) (lshift N b) = v 0 a *+ (a == b).
Proof. by rewrite /diag_sub block_mxEdl mxE. Qed.

Lemma rotation_symplecticE phi :
  rotation_symplectic cos sin phi
  = dblock (map_mx cos phi) (- map_mx sin phi)
           (map_mx sin phi) (map_mx cos phi).
Proof.
rewrite /rotation_symplectic /diag_concat /diag_super /diag_sub diag_mx_row.
by rewrite !add_block_mx !(add0r, addr0).
Qed.

Lemma squeezing_symplecticE r phi :
  squeezing_symplectic cos sin cosh sinh r phi
  = dblock (map_mx cosh r - vmul (map_mx cos phi) (map_mx sinh r))
           (vmul (- map_mx sin phi) (map_mx sinh r))
           (vmul (- map_mx sin phi) (map_mx sinh r))
           (map_mx cosh r + vmul (map_mx cos phi) (map_mx sinh r)).
Proof.
rewrite /squeezing_symplectic /diag_super /diag_sub diag_mx_row.
by rewrite !add_block_mx !(add0r, addr0).
Qed.

(** X1. The matrix of the rotation gate is symplectic and orthogonal, and the
    rotation by the opposite angles is its transpose, hence its inverse. *)
Theorem rotation_symplectic_gate phi :
  circular_laws cos sin ->
  let S := rotation_symplectic cos sin phi in
  [/\ symplectic S, orthogonal S,
      rotation_symplectic cos sin (- phi) = S^T
    & rotation_symplectic cos sin (- phi) *m S = 1%:M].
Proof.
move=> laws S.
have unit i :
    cos (phi 0 i) * cos (phi 0 i) + sin (phi 0 i) * sin (phi 0 i) = 1 :> R.
  by rewrite -!expr2 (cos2Dsin2 laws).
have orthS : orthogonal S.
  rewrite /S rotation_symplecticE; apply: orthogonal_dblock => i; rewrite !mxE //.
  - by ring.
  - by rewrite -[RHS](unit i); ring.
have eqT : rotation_symplectic cos sin (- phi) = S^T.
  rewrite /S !rotation_symplecticE dblock_tr; apply: dblock_eq => i.
  by rewrite !mxE (cosN laws) (sinN laws) opprK.
split=> //; last by rewrite eqT; apply/eqP.
rewrite /S rotation_symplecticE; apply: symplectic_dblock => i; rewrite !mxE.
by rewrite -[RHS](unit i); ring.
Qed.

(** X2. The matrix of the squeezing gate is symplectic and symmetric, and
    squeezing by [-r] undoes squeezing by [r]. *)
Theorem squeezing_symplectic_gate r phi :
  circular_laws cos sin -> hyperbolic_laws cosh sinh ->
  let S := squeezing_symplectic cos sin cosh sinh r phi in
  [/\ symplectic S, S^T = S
    & squeezing_symplectic cos sin cosh sinh (- r) phi *m S = 1%:M].
Proof.
move=> claws hlaws S.
have unit i :
    cos (phi 0 i) * cos (phi 0 i) = 1 - sin (phi 0 i) * sin (phi 0 i) :> R.
  by rewrite -(cos2Dsin2 claws (phi 0 i)) !expr2; ring.
have hunit i :
    cosh (r 0 i) * cosh (r 0 i) = 1 + sinh (r 0 i) * sinh (r 0 i) :> R.
  by rewrite -(cosh2Bsinh2 hlaws (r 0 i)) !expr2; ring.
split.
- rewrite /S squeezing_symplecticE; apply: symplectic_dblock => i.
  by rewrite !mxE; ring: (unit i) (hunit i).
- by rewrite /S squeezing_symplecticE dblock_tr.
- rewrite /S !squeezing_symplecticE dblock_mul dblock1.
  apply: dblock_eq => i; rewrite !mxE (coshN hlaws) (sinhN hlaws).
  by split; ring: (unit i) (hunit i).
Qed.

End ModesTheory.

Lemma beam_splitter_symplecticE theta phi :
  let ct := cos theta in
  let st := sin theta in
  let cp := cos phi in
  let sp := sin phi in
  beam_splitter_symplectic cos sin theta phi
  = block_mx (sq2 ct (- cp * st) (cp * st) ct)
             (sq2 0 (- sp * st) (- sp * st) 0)
             (sq2 0 (sp * st) (sp * st) 0)
             (sq2 ct (- cp * st) (cp * st) ct).
Proof. by rewrite /beam_splitter_symplectic /= convert_to_tensorE. Qed.

Lemma two_mode_squeezing_symplecticE r phi :
  let cp := cos phi in
  let sp := sin phi in
  let ch := cosh r in
  let sh := sinh r in
  two_mode_squeezing_symplectic cos sin cosh sinh r phi
  = block_mx (sq2 ch (cp * sh) (cp * sh) ch)
             (sq2 0 (sp * sh) (sp * sh) 0)
             (sq2 0 (sp * sh) (sp * sh) 0)
             (sq2 ch (- cp * sh) (- cp * sh) ch).
Proof. by rewrite /two_mode_squeezing_symplectic /= convert_to_tensorE. Qed.

(** X3. The matrix of the beam splitter is symplectic and orthogonal, and the
    beam splitter with the opposite angle [theta] is its transpose, hence its
    inverse. *)
Theorem beam_splitter_symplectic_gate theta phi :
  circular_laws cos sin ->
  let S := beam_splitter_symplectic cos sin theta phi in
  [/\ symplectic S, orthogonal S,
      beam_splitter_symplectic cos sin (- theta) phi = S^T
    & beam_splitter_symplectic cos sin (- theta) phi *m S = 1%:M].
Proof.
move=> laws S.
have unit x : cos x * cos x = 1 - sin x * sin x :> R.
  by rewrite -(cos2Dsin2 laws x) !expr2; ring.
have orthS : orthogonal S.
  rewrite /S beam_splitter_symplecticE /=; apply: orthogonal_block;
    rewrite !sq2_tr !sq2_mul !sq2D ?sq2_1 ?sq2_0; apply: sq2_eq;
    by split; ring: (unit theta) (unit phi).
have eqT : beam_splitter_symplectic cos sin (- theta) phi = S^T.
  rewrite /S !beam_splitter_symplecticE /= tr_block_mx !sq2_tr.
  rewrite (cosN laws) (sinN laws).
  by congr block_mx; apply: sq2_eq; split; ring.
split=> //; last by rewrite eqT; apply/eqP.
rewrite /S beam_splitter_symplecticE /=; apply: symplectic_block;
  rewrite !sq2_tr !sq2_mul -?[X in _ - X]mulN1r ?sq2N ?sq2D ?sq2_1;
  apply: sq2_eq; by split; ring: (unit theta) (unit phi).
Qed.

(** X4. The matrix of the two-mode squeezing gate is symplectic and
    symmetric, and squeezing by [-r] undoes squeezing by [r]. *)
Theorem two_mode_squeezing_symplectic_gate r phi :
  circular_laws cos sin -> hyperbolic_laws cosh sinh ->
  let S := two_mode_squeezing_symplectic cos sin cosh sinh r phi in
  [/\ symplectic S, S^T = S
    & two_mode_squeezing_symplectic cos sin cosh sinh (- r) phi *m S = 1%:M].
Proof.
move=> claws hlaws S.
have unit : cos phi * cos phi = 1 - sin phi * sin phi :> R.
  by rewrite -(cos2Dsin2 claws phi) !expr2; ring.
have hunit : cosh r * cosh r = 1 + sinh r * sinh r :> R.
  by rewrite -(cosh2Bsinh2 hlaws r) !expr2; ring.
split.
- rewrite /S two_mode_squeezing_symplecticE /=; apply: symplectic_block;
    rewrite !sq2_tr !sq2_mul ?sq2N ?sq2D ?sq2_1;
    apply: sq2_eq; by split; ring: unit hunit.
- by rewrite /S two_mode_squeezing_symplecticE /= tr_block_mx !sq2_tr.
- rewrite /S !two_mode_squeezing_symplecticE /= (coshN hlaws) (sinhN hlaws).
  rewrite mulmx_block !sq2_mul !sq2D [RHS](scalar_mx_block (1 + 1) (1 + 1)).
  rewrite sq2_1 sq2_0.
  by congr block_mx; apply: sq2_eq; split; ring: unit hunit.
Qed.

End GateTheory.

(** *** The lossy channel at other transmissivities *)

Section LossTheory.

Variable R : rcfType.
Variable N : nat.
Implicit Types T : 'rV[R]_N.

(** X5. For non-negative transmissivities the matrices [loss_X] compose as
    the transmissivities multiply, and [X X^T] is the diagonal matrix of the
    transmissivities. *)
Theorem loss_X_transmissivity T1 T2 :
  (forall i, 0 <= T1 0 i) ->
  loss_X (vmul T1 T2) = loss_X T1 *m loss_X T2
  /\ loss_X T1 *m (loss_X T1)^T = diag_concat T1.
Proof.
move=> T1_ge0; rewrite /loss_X /diag_concat /= tr_diag_mx !mulmx_diag.
split; congr diag_mx; apply/rowP => j; rewrite !mxE;
  by case: splitP => k _; rewrite !mxE ?sqrtrM // -expr2 sqr_sqrtr.
Qed.

(** X6. At zero transmissivity the channel forgets its input: [loss_X] is
    the zero matrix and [X Sigma X^T + Y] is [sqrt(hbar/2)] times the
    identity for every covariance matrix [Sigma]. *)
Theorem loss_channel_zero_transmissivity (hbar : R) (Sigma : 'M[R]_(N + N)) :
  loss_X (0 : 'rV[R]_N) = 0
  /\ apply_channel (loss_X 0) (loss_Y 0 hbar) Sigma = (Num.sqrt (hbar / 2))%:M.
Proof.
have X0 : loss_X (0 : 'rV[R]_N) = 0.
  rewrite /loss_X /=.
  have -> : map_mx Num.sqrt (0 : 'rV[R]_N) = const_mx 0.
    by apply/matrixP => i j; rewrite !mxE sqrtr0.
  by rewrite diag_concat_const; apply/matrixP => i j; rewrite !mxE mul0rn.
split=> //; rewrite /apply_channel X0 mul0mx mul0mx add0r /loss_Y /=.
have -> : map_mx (fun t => Num.sqrt ((1 - t) * hbar / 2)) (0 : 'rV[R]_N)
          = const_mx (Num.sqrt (hbar / 2)).
  by apply/matrixP => i j; rewrite !mxE subr0 mul1r.
exact: diag_concat_const.
Qed.

End LossTheory.

(** *** Exactly computable instances of the laws

    The rational parametrisation of the circle and the hyperbola
    [(sqrt(1 + x^2), x)] obey the laws of the trigonometric and hyperbolic
    functions in every real closed field. *)

Definition unit_cos (F : rcfType) (x : F) : F := (1 - x ^+ 2) / (1 + x ^+ 2).
Definition unit_sin (F : rcfType) (x : F) : F := (2 * x) / (1 + x ^+ 2).
Definition hyper_cosh (F : rcfType) (x : F) : F := Num.sqrt (1 + x ^+ 2).
Definition hyper_sinh (F : rcfType) (x : F) : F := x.

Lemma unit_circular_laws (F : rcfType) :
  circular_laws (@unit_cos F) (@unit_sin F).
Proof.
split=> x; rewrite /unit_cos /unit_sin ?sqrrN ?mulrN ?mulNr //.
have nz : 1 + x ^+ 2 != 0 by rewrite gt_eqF // ltr_wpDr ?sqr_ge0.
by field.
Qed.

Lemma hyper_hyperbolic_laws (F : rcfType) :
  hyperbolic_laws (@hyper_cosh F) (@hyper_sinh F).
Proof.
split=> x; rewrite /hyper_cosh /hyper_sinh ?sqrrN //.
by rewrite sqr_sqrtr ?addrK // ltW // ltr_wpDr ?sqr_ge0.
Qed.

Lemma loss_X_transmissivity_witness :
  (forall i, 0 <= (const_mx 1 : 'rV[algR]_2) 0 i)
  /\ loss_X (vmul (const_mx 1 : 'rV[algR]_2) (const_mx 2))
     = loss_X (const_mx 1) *m loss_X (const_mx 2).
Proof.
have ge0 i : 0 <= (const_mx 1 : 'rV[algR]_2) 0 i by rewrite mxE ler01.
by split=> //; have [] := loss_X_transmissivity (const_mx 2) ge0.
Defined.

Lemma rotation_symplectic_gate_witness :
  circular_laws (@unit_cos algR) (@unit_sin algR)
  /\ symplectic (rotation_symplectic (@unit_cos algR) (@unit_sin algR)
                   (const_mx 1 : 'rV_2)).
Proof.
split; first exact: unit_circular_laws.
by have [] := rotation_symplectic_gate (const_mx 1 : 'rV_2)
                (unit_circular_laws algR).
Defined.

Lemma squeezing_symplectic_gate_witness :
  [/\ circular_laws (@unit_cos algR) (@unit_sin algR),
      hyperbolic_laws (@hyper_cosh algR) (@hyper_sinh algR)
    & symplectic (squeezing_symplectic (@unit_cos algR) (@unit_sin algR)
                    (@hyper_cosh algR) (@hyper_sinh algR)
                    (const_mx 1 : 'rV_2) (const_mx 2))].
Proof.
split; [exact: unit_circular_laws | exact: hyper_hyperbolic_laws |].
by have [] := squeezing_symplectic_gate (const_mx 1 : 'rV_2) (const_mx 2)
                (unit_circular_laws algR) (hyper_hyperbolic_laws algR).
Defined.

Lemma beam_splitter_symplectic_gate_witness :
  circular_laws (@unit_cos algR) (@unit_sin algR)
  /\ symplectic (beam_splitter_symplectic (@unit_cos algR) (@unit_sin algR)
                   1 2).
Proof.
split; first exact: unit_circular_laws.
by have [] := beam_splitter_symplectic_gate 1 2 (unit_circular_laws algR).
Defined.

Lemma two_mode_squeezing_symplectic_gate_witness :
  [/\ circular_laws (@unit_cos algR) (@unit_sin algR),
      hyperbolic_laws (@hyper_cosh algR) (@hyper_sinh algR)
    & symplectic (two_mode_squeezing_symplectic
                    (@unit_cos algR) (@unit_sin algR)
                    (@hyper_cosh algR) (@hyper_sinh algR) 1 2)].
Proof.
split; [exact: unit_circular_laws | exact: hyper_hyperbolic_laws |].
by have [] := two_mode_squeezing_symplectic_gate 1 2
                (unit_circular_laws algR) (hyper_hyperbolic_laws algR).
Defined.

End Gates.

(** ** TFStateBackend: photon-number statistics of a Gaussian state *)

Module StateBackend.

Import Manifold GateBackend Gates.

Section PhotonNumberMean.

Variable R : rcfType.

(** [N = means.shape[-1] // 2] *)
Variable N : nat.

(** [tf.linalg.diag_part] *)
Definition diag_part (M : 'M[R]_N) : 'rV[R]_N := \row_i M i i.

(** [photon_number_mean]: [means[:N]], [means[N:]] are the two halves of
    [means]; [cov[:N, :N]], [cov[N:, N:]] the diagonal blocks of [cov]; the
    arithmetic is elementwise, [hbar] broadcast. *)
Definition photon_number_mean (cov : 'M[R]_(N + N)) (means : 'rV[R]_(N + N))
    (hbar : R) : 'rV[R]_N :=
  \row_i ((lsubmx means 0 i ^+ 2
           + rsubmx means 0 i ^+ 2
           + diag_part (ulsubmx cov) 0 i
           + diag_part (drsubmx cov) 0 i
           - hbar)
          / (2 * hbar)).

(** X7. Displacing a state by [(x, y)] adds [x^2 + y^2] photons to every
    mode, whatever its covariance matrix; in particular the state with
    covariance [hbar/2 * I] and zero means has no photons, and the coherent
    state obtained from it has [x^2 + y^2]. *)
Theorem photon_number_mean_displacement (cov : 'M[R]_(N + N))
    (x y : 'rV[R]_N) (hbar : R) :
  0 < hbar ->
  [/\ photon_number_mean cov (displacement x y hbar) hbar
      = photon_number_mean cov 0 hbar + \row_i (x 0 i ^+ 2 + y 0 i ^+ 2),
      photon_number_mean (hbar / 2)%:M 0 hbar = 0
    & photon_number_mean (hbar / 2)%:M (displacement x y hbar) hbar
      = \row_i (x 0 i ^+ 2 + y 0 i ^+ 2)].
Proof.
move=> hbar0.
have nz : hbar != 0 by rewrite gt_eqF.
have sq : Num.sqrt (2 * hbar) ^+ 2 = 2 * hbar.
  by rewrite sqr_sqrtr // mulr_ge0 // ltW.
have eq1 c : photon_number_mean c (displacement x y hbar) hbar
             = photon_number_mean c 0 hbar + \row_i (x 0 i ^+ 2 + y 0 i ^+ 2).
  apply/rowP => i; rewrite [LHS]mxE [RHS]mxE [photon_number_mean _ _ _ _ _]mxE.
  have -> : lsubmx (displacement x y hbar) = Num.sqrt (2 * hbar) *: x.
    by rewrite /displacement linearZ /= row_mxKl.
  have -> : rsubmx (displacement x y hbar) = Num.sqrt (2 * hbar) *: y.
    by rewrite /displacement linearZ /= row_mxKr.
  rewrite !linear0 [(_ *: x) _ _]mxE [(_ *: y) _ _]mxE !exprMn sq.
  rewrite [(0 : 'rV[R]_N) _ _]mxE [(\row_i _) _ _]mxE.
  by field.
have eq2 : photon_number_mean (hbar / 2)%:M 0 hbar = 0.
  apply/rowP => i; rewrite (scalar_mx_block N N) [LHS]mxE.
  rewrite block_mxKul block_mxKdr !linear0 !mxE eqxx !mulr1n.
  by field.
by split=> //; rewrite eq1 eq2 add0r.
Qed.

(** [tf.math.cos], [tf.math.sin] *)
Variables cos sin : R -> R.

(** X8. The mean photon numbers are invariant under the rotation gate: a
    state [(cov, means)] and its image [(S cov S^T, S means)] under
    [S = rotation_symplectic(phi)] have the same photon number in every
    mode. *)
Theorem photon_number_mean_rotation (cov : 'M[R]_(N + N))
    (means : 'rV[R]_(N + N)) (hbar : R) (phi : 'rV[R]_N) :
  circular_laws cos sin ->
  let S := rotation_symplectic cos sin phi in
  photon_number_mean (S *m cov *m S^T) (means *m S^T) hbar
  = photon_number_mean cov means hbar.
Proof.
move=> laws S; apply/rowP => i; rewrite [LHS]mxE [RHS]mxE; congr (_ / _).
have unit : cos (phi 0 i) * cos (phi 0 i) = 1 - sin (phi 0 i) * sin (phi 0 i).
  by rewrite -(cos2Dsin2 laws (phi 0 i)) !expr2; ring.
rewrite /S rotation_symplecticE /dblock tr_block_mx !tr_diag_mx.
rewrite -[in LHS](submxK cov) -[in LHS](hsubmxK means).
rewrite !mulmx_block mul_row_block block_mxKul block_mxKdr row_mxKl row_mxKr.
rewrite ![diag_part _ _ _]mxE !addmxE.
rewrite !mul_mx_diagE !addmxE !mul_diag_mxE !oppmxE !map_mxE.
by ring: unit.
Qed.

End PhotonNumberMean.

Section PhotonNumberCovariance.

(** [complex128]; a [float64] tensor is a matrix of real elements. *)
Variable C : numClosedFieldType.
Variable N : nat.

(** [tf.complex(re, im)] *)
Definition tf_complex (m n : nat) (re im : 'M[C]_(m, n)) : 'M[C]_(m, n) :=
  re + 'i *: im.

(** [AB]: the blocks [V1 = cov[:N,:N]], [V2 = cov[:N,N:]],
    [V2T = cov[N:,:N]], [V3 = cov[N:,N:]]. *)
Definition AB (cov : 'M[C]_(N + N)) : 'M[C]_N * 'M[C]_N :=
  let V1 := ulsubmx cov in
  let V2 := ursubmx cov in
  let V2T := dlsubmx cov in
  let V3 := drsubmx cov in
  (2^-1 *: tf_complex (V1 + V3) (V2T - V2),
   2^-1 *: tf_complex (V1 - V3) (V2T + V2)).

(** The elementwise product [a * b], and the broadcasts [v[None, :]] and
    [v[:, None]] of a vector against a square matrix. *)
Definition emul (m n : nat) (a b : 'M[C]_(m, n)) : 'M[C]_(m, n) :=
  \matrix_(i, j) (a i j * b i j).
Definition along_rows (v : 'rV[C]_N) : 'M[C]_N := \matrix_(i, j) v 0 j.
Definition along_cols (v : 'rV[C]_N) : 'M[C]_N := \matrix_(i, j) v 0 i.

(** [photon_number_covariance]; [hbar] is not used by the body. *)
Definition photon_number_covariance (cov : 'M[C]_(N + N))
    (means : 'rV[C]_(N + N)) (hbar : C) : 'M[C]_N :=
  let: (A, B) := AB cov in
  let ac := tf_complex (lsubmx means) (- lsubmx means) in
  map_mx Num.norm (emul A (map_mx Num.conj A))
  + map_mx Num.norm (emul B (map_mx Num.conj B))
  - 4^-1 *: 1%:M
  + 2 *: map_mx (@Re C)
           (emul (emul (along_rows ac) (along_cols (map_mx Num.conj ac))) A
            + emul (emul (along_rows ac) (along_cols ac)) B).

Implicit Types (cov : 'M[C]_(N + N)) (means : 'rV[C]_(N + N)).

Lemma real_entry (m n : nat) (M : 'M[C]_(m, n)) i j :
  M \is a realmx -> (M i j)^* = M i j.
Proof. by move=> /mxOverP realM; rewrite conj_Creal. Qed.

Lemma symmetric_blocks cov :
  cov^T = cov ->
  [/\ (ulsubmx cov)^T = ulsubmx cov, (drsubmx cov)^T = drsubmx cov,
      (ursubmx cov)^T = dlsubmx cov & (dlsubmx cov)^T = ursubmx cov].
Proof.
by move=> sym; rewrite trmx_ulsub trmx_drsub trmx_ursub trmx_dlsub !sym.
Qed.

Lemma real_blocks cov :
  cov \is a realmx ->
  [/\ ulsubmx cov \is a realmx, ursubmx cov \is a realmx,
      dlsubmx cov \is a realmx & drsubmx cov \is a realmx].
Proof.
by move=> /mxOverP real; split; apply/mxOverP => i j; rewrite !mxE.
Qed.

Lemma AB_symmetry cov :
  cov \is a realmx -> cov^T = cov ->
  (map_mx Num.conj (AB cov).1)^T = (AB cov).1 /\ ((AB cov).2)^T = (AB cov).2.
Proof.
move=> /real_blocks [real1 real2 real2T real3].
move=> /symmetric_blocks [sym1 sym3 sym2 sym2T].
have e1 i j : ulsubmx cov j i = ulsubmx cov i j.
  by move/(congr1 (fun M : 'M_N => M i j)): sym1; rewrite [LHS]mxE.
have e3 i j : drsubmx cov j i = drsubmx cov i j.
  by move/(congr1 (fun M : 'M_N => M i j)): sym3; rewrite [LHS]mxE.
have e2 i j : ursubmx cov j i = dlsubmx cov i j.
  by move/(congr1 (fun M : 'M_N => M i j)): sym2; rewrite [LHS]mxE.
have e2T i j : dlsubmx cov j i = ursubmx cov i j.
  by move/(congr1 (fun M : 'M_N => M i j)): sym2T; rewrite [LHS]mxE.
move: real1 real2 real2T real3 e1 e3 e2 e2T {sym1 sym3 sym2 sym2T}.
rewrite /AB /tf_complex /=.
move: (ulsubmx cov) (ursubmx cov) (dlsubmx cov) (drsubmx cov).
move=> V1 V2 V2T V3 real1 real2 real2T real3 e1 e3 e2 e2T.
split; apply/matrixP => i j; rewrite !mxE.
- rewrite rmorphM rmorphD rmorphM rmorphB rmorphD /= fmorphV rmorph_nat conjCi.
  by rewrite !real_entry // e1 e3 e2 e2T; ring.
- by rewrite e1 e3 e2 e2T; ring.
Qed.

(** X9. For a real symmetric covariance matrix, the first matrix returned by
    [AB] is Hermitian and the second is symmetric. *)
Theorem AB_hermitian_symmetric cov :
  cov \is a realmx -> cov^T = cov ->
  (map_mx Num.conj (AB cov).1)^T = (AB cov).1 /\ ((AB cov).2)^T = (AB cov).2.
Proof. exact: AB_symmetry. Qed.

(** X10. The photon-number covariance matrix has real entries, and it is
    symmetric when the covariance matrix of the state is real and
    symmetric. *)
Theorem photon_number_covariance_symmetric cov means hbar :
  cov \is a realmx -> cov^T = cov ->
  photon_number_covariance cov means hbar \is a realmx
  /\ (photon_number_covariance cov means hbar)^T
     = photon_number_covariance cov means hbar.
Proof.
move=> real_cov sym_cov; have := AB_symmetry real_cov sym_cov.
rewrite /photon_number_covariance; case: (AB cov) => A B /= [hermA symB].
have hA i j : A j i = (A i j)^*.
  by move/(congr1 (fun M : 'M_N => M i j)): hermA; rewrite !mxE => <-; rewrite conjCK.
have hB i j : B j i = B i j.
  by move/(congr1 (fun M : 'M_N => M i j)): symB; rewrite mxE.
move: (tf_complex _ _) => ac; split.
  apply/mxOverP => i j; rewrite !mxE.
  apply: realD; last by apply: realM; rewrite ?realn ?Creal_Re.
  apply: realB; first by apply: realD; apply: normr_real.
  by apply: realM; rewrite ?realV ?realn.
apply/matrixP => i j; rewrite !mxE hA hB conjCK [j == i]eq_sym.
rewrite [(A i j)^* * _]mulrC; congr (_ + 2 * _).
rewrite !raddfD /=; congr (_ + _); last by rewrite [ac 0 i * _]mulrC.
rewrite -[RHS]Re_conj !rmorphM /= conjCK; congr ('Re _).
by ring.
Qed.

End PhotonNumberCovariance.

Lemma photon_number_mean_displacement_witness :
  0 < (2 : algR)
  /\ photon_number_mean (2 / 2)%:M
       (displacement (const_mx 1 : 'rV[algR]_1) (const_mx 3) 2) 2
     = \row_i ((const_mx 1 : 'rV[algR]_1) 0 i ^+ 2
               + (const_mx 3 : 'rV[algR]_1) 0 i ^+ 2).
Proof.
have pos : 0 < (2 : algR) by rewrite ltr0n.
split=> //.
by have [] := photon_number_mean_displacement 1%:M
                (const_mx 1 : 'rV[algR]_1) (const_mx 3) pos.
Defined.

Lemma photon_number_mean_rotation_witness :
  circular_laws (@unit_cos algR) (@unit_sin algR)
  /\ (let S := rotation_symplectic (@unit_cos algR) (@unit_sin algR)
                 (const_mx 1 : 'rV_1) in
      photon_number_mean (S *m 1%:M *m S^T) (const_mx 1 *m S^T) 2
      = photon_number_mean 1%:M (const_mx 1) 2).
Proof.
split; first exact: unit_circular_laws.
exact: (photon_number_mean_rotation 1%:M (const_mx 1) 2 (const_mx 1)
          (unit_circular_laws algR)).
Defined.

Lemma real_scalar_mx (C : numClosedFieldType) (n : nat) :
  (1%:M : 'M[C]_n) \is a realmx.
Proof.
apply/mxOverP => i j; rewrite mxE.
by case: eqP => _; rewrite ?mulr1n ?mulr0n ?real1 ?real0.
Qed.

Lemma AB_hermitian_symmetric_witness :
  [/\ (1%:M : 'M[algC]_(1 + 1)) \is a realmx,
      (1%:M : 'M[algC]_(1 + 1))^T = 1%:M
    & ((AB (1%:M : 'M[algC]_(1 + 1))).2)^T = (AB 1%:M).2].
Proof.
split; [exact: real_scalar_mx | exact: trmx1 |].
by have [] := AB_hermitian_symmetric (real_scalar_mx algC (1 + 1)) (trmx1 _ _).
Defined.

Lemma photon_number_covariance_symmetric_witness :
  [/\ (1%:M : 'M[algC]_(1 + 1)) \is a realmx,
      (1%:M : 'M[algC]_(1 + 1))^T = 1%:M
    & (photon_number_covariance (1%:M : 'M[algC]_(1 + 1)) (const_mx 1) 2)^T
      = photon_number_covariance 1%:M (const_mx 1) 2].
Proof.
split; [exact: real_scalar_mx | exact: trmx1 |].
by have [] := photon_number_covariance_symmetric (const_mx 1) 2
                (real_scalar_mx algC (1 + 1)) (trmx1 _ _).
Defined.

End StateBackend.

(** ** TFMathbackend: the block embedding of complex matrices *)

Module Embedding.

Import Manifold MathBackend.

Section Homomorphism.

Variable C : numClosedFieldType.
Variable n : nat.
Implicit Types U V X Y : 'M[C]_n.

Lemma Re_rectmx X Y :
  X \is a realmx -> Y \is a realmx -> map_mx (@Re C) (X + 'i *: Y) = X.
Proof.
move=> /mxOverP realX /mxOverP realY; apply/matrixP => i j.
by rewrite !mxE Re_rect.
Qed.

Lemma Im_rectmx X Y :
  X \is a realmx -> Y \is a realmx -> map_mx (@Im C) (X + 'i *: Y) = Y.
Proof.
move=> /mxOverP realX /mxOverP realY; apply/matrixP => i j.
by rewrite !mxE Im_rect.
Qed.

Lemma mulmx_rect X Y X' Y' :
  (X + 'i *: Y) *m (X' + 'i *: Y')
  = (X *m X' - Y *m Y') + 'i *: (X *m Y' + Y *m X').
Proof.
rewrite mulmxDl !mulmxDr -!scalemxAl -!scalemxAr scalerA -expr2 sqrCi.
by rewrite scaleN1r scalerDr [X in _ + X = _]addrC addrACA.
Qed.

(** X11. The block embedding
    [unitary_to_orthogonal] is multiplicative, maps the identity to the
    identity and the conjugate transpose to the transpose. *)
Theorem unitary_to_orthogonal_morphism U V :
  [/\ unitary_to_orthogonal (U *m V)
      = unitary_to_orthogonal U *m unitary_to_orthogonal V,
      unitary_to_orthogonal (1%:M : 'M[C]_n) = 1%:M
    & unitary_to_orthogonal (map_mx Num.conj U)^T = (unitary_to_orthogonal U)^T].
Proof.
set X := map_mx (@Re C) U; set Y := map_mx (@Im C) U.
set X' := map_mx (@Re C) V; set Y' := map_mx (@Im C) V.
have realX : X \is a realmx := Re_realmx U.
have realY : Y \is a realmx := Im_realmx U.
have realX' : X' \is a realmx := Re_realmx V.
have realY' : Y' \is a realmx := Im_realmx V.
split.
- rewrite !unitary_to_orthogonalE -/X -/Y -/X' -/Y' mulmx_block.
  rewrite [in LHS](mx_rect U) [in LHS](mx_rect V) -/X -/Y -/X' -/Y' mulmx_rect.
  rewrite Re_rectmx ?Im_rectmx ?realmxD ?realmxN ?mxOverM //.
  rewrite !mulNmx !mulmxN opprD [Y *m X' + _]addrC.
  by rewrite [- (Y *m Y') + _]addrC.
- rewrite unitary_to_orthogonalE.
  have -> : map_mx (@Re C) (1%:M : 'M[C]_n) = 1%:M.
    apply/matrixP => i j; rewrite !mxE.
    by case: eqP => _; rewrite ?mulr1n ?mulr0n (Creal_ReP _ _) ?real1 ?real0.
  have -> : map_mx (@Im C) (1%:M : 'M[C]_n) = 0.
    apply/matrixP => i j; rewrite !mxE.
    by case: eqP => _; rewrite ?mulr1n ?mulr0n (Creal_ImP _ _) ?real1 ?real0.
  by rewrite oppr0 -scalar_mx_block.
- rewrite !unitary_to_orthogonalE tr_block_mx -/X -/Y.
  have -> : map_mx (@Re C) (map_mx Num.conj U)^T = X^T.
    by apply/matrixP => i j; rewrite !mxE Re_conj.
  have -> : map_mx (@Im C) (map_mx Num.conj U)^T = - Y^T.
    by apply/matrixP => i j; rewrite !mxE Im_conj.
  by rewrite opprK linearN.
Qed.

End Homomorphism.

End Embedding.

(** ** TFMathbackend: Euclidean parameters and their bounds *)

Module Euclidean.

Section MakeEuclideanParameter.

(** [float64] *)
Variable R : rcfType.

(** A float, [-np.inf] or [np.inf]. *)
Inductive ext : Type := NegInf | Fin of R | PosInf.

Definition ele (a b : ext) : bool :=
  match a, b with
  | NegInf, _ => true
  | _, PosInf => true
  | Fin x, Fin y => x <= y
  | _, _ => false
  end.

Definition minimum (a b : ext) : ext := if ele a b then a else b.
Definition maximum (a b : ext) : ext := if ele a b then b else a.

(** [tf.clip_by_value(t, lo, hi)]: [maximum(minimum(t, hi), lo)] *)
Definition clip_by_value (t lo hi : ext) : ext := maximum (minimum t hi) lo.

(** [x or d] for [x : Optional[float]]: [None] and [0.0] are false. *)
Definition py_or (x : option R) (d : ext) : ext :=
  match x with
  | Some v => if v == 0 then d else Fin v
  | None => d
  end.

(** [bounds == (-np.inf, np.inf)] *)
Definition unbounded (bounds : ext * ext) : bool :=
  match bounds with
  | (NegInf, PosInf) => true
  | _ => false
  end.

(** Tensor values and shapes; the sample returned by [truncnorm.rvs],
    [tf.zeros] (which may reject its argument) and [np.atleast_1d]. *)
Variables T S : Type.
Variable sample : T.
Variable tf_zeros : option S -> result T.
Variable atleast_1d : T -> T.

(** A [tf.Variable] (with its constraint) or a [tf.constant]. *)
Record parameter : Type := TfParameter {
  value : T;
  is_variable : bool;
  constraint : option (ext -> ext)
}.

Definition make_euclidean_parameter (init_value : option T) (trainable : bool)
    (bounds : option R * option R) (shape : option S) : result parameter :=
  let bounds := (py_or bounds.1 NegInf, py_or bounds.2 PosInf) in
  let constraint :=
    if ~~ unbounded bounds
    then Some (fun x => clip_by_value x bounds.1 bounds.2)
    else None in
  let val :=
    match init_value with
    | None => if trainable then Ok sample else tf_zeros shape
    | Some v => Ok (if shape is None then v else atleast_1d v)
    end in
  match val with
  | inr v =>
      Ok (if trainable then TfParameter v true constraint
          else TfParameter v false None)
  | inl e => Raise e
  end.

(** The bounds that Python treats as absent. *)
Definition falsy (x : option R) : bool :=
  if x is Some v then v == 0 else true.

Lemma py_or_falsy x d : py_or x d = if falsy x then d else py_or x d.
Proof. by case: x => [v|] //=; case: eqP. Qed.

Lemma unbounded_falsy (bounds : option R * option R) :
  unbounded (py_or bounds.1 NegInf, py_or bounds.2 PosInf)
  = falsy bounds.1 && falsy bounds.2.
Proof.
by case: bounds => [[lo|] [hi|]] /=; do ?case: eqP => //.
Qed.

Lemma make_euclidean_parameterE init_value trainable bounds shape p :
  make_euclidean_parameter init_value trainable bounds shape = Ok p ->
  is_variable p = trainable
  /\ constraint p
     = if trainable && ~~ (falsy bounds.1 && falsy bounds.2)
       then Some (fun x => clip_by_value x (py_or bounds.1 NegInf)
                             (py_or bounds.2 PosInf))
       else None.
Proof.
rewrite /make_euclidean_parameter unbounded_falsy.
set val := match init_value with Some _ => _ | None => _ end.
case: val => [e|v] //; rewrite /Ok => -[<-].
by case: (trainable).
Qed.


Lemma clip_between x lo hi :
  lo <= hi ->
  exists2 y, clip_by_value (Fin x) (Fin lo) (Fin hi) = Fin y
           & lo <= y <= hi /\ (lo <= x <= hi -> y = x).
Proof.
move=> le_lh; rewrite /clip_by_value /minimum /maximum /=.
case: (leP x hi) => [le_xh|lt_hx] /=.
  case: (leP x lo) => [le_xl|lt_lx].
    exists lo; rewrite ?lexx ?le_lh //; split=> // /andP[le_lx _].
    by apply/eqP; rewrite eq_le le_lx le_xl.
  by exists x; rewrite // (ltW lt_lx) le_xh.
case: (leP hi lo) => [le_hl|lt_lh].
  by exists lo; rewrite ?lexx ?le_lh ?andbF.
by exists hi; rewrite ?lexx ?le_lh ?andbF.
Qed.


(** X13. With two bounds [lo <= hi], neither of
    them 0, the constraint of a trainable parameter maps every value into
    [[lo, hi]] and leaves the values of [[lo, hi]] unchanged. *)
Theorem euclidean_parameter_clip init_value lo hi shape p :
  make_euclidean_parameter init_value true (Some lo, Some hi) shape = Ok p ->
  lo != 0 -> hi != 0 -> lo <= hi ->
  exists2 c, constraint p = Some c
    & forall x, exists2 y, c (Fin x) = Fin y
                         & lo <= y <= hi /\ (lo <= x <= hi -> y = x).
Proof.
move=> /make_euclidean_parameterE [_ ->] /negbTE lo0 /negbTE hi0 le_lh /=.
rewrite lo0 hi0 /=; eexists; first by [].
by move=> x; apply: clip_between.
Qed.

End MakeEuclideanParameter.

(** A scalar parameter over the real algebraic numbers. *)
Definition scalar_parameter (trainable : bool)
    (bounds : option algR * option algR) : result (parameter algR algR) :=
  make_euclidean_parameter (0 : algR) (fun _ : option (seq nat) => Ok 0) id
    (Some 1) trainable bounds None.



Lemma scalar_parameter_clipped :
  scalar_parameter true (Some 1, Some 2)
  = Ok (TfParameter 1 true
          (Some (fun x => clip_by_value x (Fin 1) (Fin 2)))).
Proof.
rewrite /scalar_parameter /make_euclidean_parameter /=.
by rewrite oner_eq0 pnatr_eq0.
Qed.

Lemma euclidean_parameter_clip_witness :
  [/\ scalar_parameter true (Some 1, Some 2)
      = Ok (TfParameter 1 true
              (Some (fun x => clip_by_value x (Fin 1) (Fin 2)))),
      (1 : algR) != 0, (2 : algR) != 0, (1 : algR) <= 2
    & exists y : algR, clip_by_value (Fin 3) (Fin 1) (Fin 2) = Fin y
                       /\ 1 <= y <= 2].
Proof.
have ne1 : (1 : algR) != 0 by rewrite oner_eq0.
have ne2 : (2 : algR) != 0 by rewrite pnatr_eq0.
have le12 : (1 : algR) <= 2 by rewrite ler1n.
split=> //; first exact: scalar_parameter_clipped.
have [c [<-] clip] :=
  euclidean_parameter_clip scalar_parameter_clipped ne1 ne2 le12.
by have [y eq_y [in_y _]] := clip 3; exists y.
Defined.

End Euclidean.

(** ** TFMathbackend: operations on a subset of the modes *)

Module ModeOps.

Import Manifold.

(** *** Gathering and scattering rows *)

Section GatherScatter.

Variable R : comPzRingType.

(** A tensor with [n] rows, [m] gathered rows. *)
Variables n m : nat.

(** [tf.gather(F, idx)]: the rows of [F] at the positions [idx]. *)
Definition gather (p : nat) (F : 'M[R]_(n, p)) (idx : seq nat) : 'M[R]_(m, p) :=
  \matrix_(a, j)
    (if insub (nth 0%N idx a) is Some i then F i j else 0).

(** The last place at which [i] occurs in [idx]; [size idx] when it does not
    occur. *)
Definition last_index (i : nat) (idx : seq nat) : nat :=
  if i \in idx then (size idx - (index i (rev idx)).+1)%N else size idx.

(** [tf.tensor_scatter_nd_update(F, idx[:, None], U)]: row [idx[a]] of [F]
    is replaced by row [a] of [U].  The updates are applied in order on a
    CPU, so that the last update of a repeated position is the one kept. *)
Definition scatter_update (p : nat) (F : 'M[R]_(n, p)) (idx : seq nat)
    (U : 'M[R]_(m, p)) : 'M[R]_(n, p) :=
  \matrix_(i, j)
    (if insub (last_index (i : nat) idx) is Some a then U a j else F i j).

Lemma last_index_uniq i idx : uniq idx -> last_index i idx = index i idx.
Proof.
move=> uniq_idx; rewrite /last_index; case: ifP => [in_idx|/negbT notin].
  have lt_i : (index i idx < size idx)%N by rewrite index_mem.
  have lt_r : (size idx - (index i idx).+1 < size idx)%N.
    by rewrite ltn_subrL /= (leq_ltn_trans _ lt_i).
  have eq_p : (size idx - (size idx - (index i idx).+1).+1)%N = index i idx.
    by rewrite subnSK // subKn // ltnW.
  have eq_i : i = nth 0%N (rev idx) (size idx - (index i idx).+1).
    by rewrite nth_rev // eq_p nth_index.
  by rewrite [X in index X (rev idx)]eq_i index_uniq ?rev_uniq ?size_rev.
by rewrite memNindex.
Qed.

(** Positions that [tf.gather] accepts, one per gathered row and without
    repetition. *)
Definition valid (idx : seq nat) : bool :=
  [&& size idx == m, all (fun i => i < n)%N idx & uniq idx].

Section Laws.

Variable idx : seq nat.
Hypothesis valid_idx : valid idx.

Let size_idx : size idx = m.
Proof. by case/and3P: valid_idx => /eqP. Qed.

Let idx_lt (a : 'I_m) : (nth 0%N idx a < n)%N.
Proof.
case/and3P: valid_idx => _ /allP in_range _.
by apply: in_range; rewrite mem_nth // size_idx.
Qed.

Let uniq_idx : uniq idx.
Proof. by case/and3P: valid_idx. Qed.

Lemma gatherE p (F : 'M[R]_(n, p)) a j :
  gather F idx a j = F (Ordinal (idx_lt a)) j.
Proof.
rewrite mxE; case: insubP => [i _ val_i|]; last by rewrite idx_lt.
by congr (F _ j); apply: val_inj.
Qed.

Lemma scatter_updateE p (F : 'M[R]_(n, p)) (U : 'M[R]_(m, p)) (a : 'I_m) j :
  scatter_update F idx U (Ordinal (idx_lt a)) j = U a j.
Proof.
rewrite mxE /= last_index_uniq // index_uniq ?size_idx //.
case: insubP => [b _ val_b|]; last by rewrite ltn_ord.
by congr (U _ j); apply: val_inj.
Qed.

Lemma scatter_update_out p (F : 'M[R]_(n, p)) (U : 'M[R]_(m, p)) (i : 'I_n) j :
  (i : nat) \notin idx -> scatter_update F idx U i j = F i j.
Proof.
move=> notin; rewrite mxE last_index_uniq //.
have out : (index (i : nat) idx < m)%N = false.
  by rewrite -size_idx index_mem (negbTE notin).
by case: insubP => // a; rewrite out.
Qed.

Lemma gather_scatter p (F : 'M[R]_(n, p)) (U : 'M[R]_(m, p)) :
  gather (scatter_update F idx U) idx = U.
Proof. by apply/matrixP => a j; rewrite gatherE scatter_updateE. Qed.

Lemma scatter_gather p (F : 'M[R]_(n, p)) :
  scatter_update F idx (gather F idx) = F.
Proof.
apply/matrixP => i j; rewrite mxE last_index_uniq //.
case: insubP => // a lt_a val_a.
rewrite gatherE; congr (F _ j); apply: val_inj => /=.
have in_idx : (i : nat) \in idx by rewrite -index_mem size_idx.
by rewrite val_a nth_index.
Qed.

End Laws.

Lemma scatter_scatter p (F : 'M[R]_(n, p)) idx (U U' : 'M[R]_(m, p)) :
  scatter_update (scatter_update F idx U) idx U' = scatter_update F idx U'.
Proof.
by apply/matrixP => i j; rewrite !mxE; case: insubP.
Qed.

Lemma gather_mul p q (F : 'M[R]_(n, p)) (G : 'M[R]_(p, q)) idx :
  gather (F *m G) idx = gather F idx *m G.
Proof.
apply/matrixP => a j; rewrite [LHS]mxE [RHS]mxE.
case E: (insub (nth 0%N idx a)) => [i|].
  by rewrite mxE; apply: eq_bigr => l _; rewrite [gather _ _ _ _]mxE E.
by rewrite big1 // => l _; rewrite [gather _ _ _ _]mxE E mul0r.
Qed.

Lemma scatter_mul p q (F : 'M[R]_(n, p)) (G : 'M[R]_(p, q)) idx
    (U : 'M[R]_(m, p)) :
  scatter_update (F *m G) idx (U *m G) = scatter_update F idx U *m G.
Proof.
apply/matrixP => i j; rewrite [LHS]mxE [RHS]mxE.
case E: (insub (last_index (i : nat) idx)) => [a|];
  by rewrite mxE; apply: eq_bigr => l _; rewrite [scatter_update _ _ _ _ _]mxE E.
Qed.

(** The rows at [idx] are multiplied by [A], as in
    [scatter_update(F, idx, A @ gather(F, idx))]. *)
Definition rowop (p : nat) (A : 'M[R]_m) (F : 'M[R]_(n, p)) (idx : seq nat)
  : 'M[R]_(n, p) :=
  scatter_update F idx (A *m gather F idx).

(** The matrix of [rowop]: [A] at the rows and columns [idx], the identity
    elsewhere. *)
Definition embed (A : 'M[R]_m) (idx : seq nat) : 'M[R]_n := rowop A 1%:M idx.

Lemma rowop_mul p q (A : 'M[R]_m) (F : 'M[R]_(n, p)) (G : 'M[R]_(p, q)) idx :
  rowop A (F *m G) idx = rowop A F idx *m G.
Proof. by rewrite /rowop gather_mul mulmxA scatter_mul. Qed.

Lemma rowopE p (A : 'M[R]_m) (F : 'M[R]_(n, p)) idx :
  rowop A F idx = embed A idx *m F.
Proof. by rewrite /embed -rowop_mul mul1mx. Qed.

Section RowLaws.

Variable idx : seq nat.
Hypothesis valid_idx : valid idx.

Lemma rowop1 p (F : 'M[R]_(n, p)) : rowop 1%:M F idx = F.
Proof. by rewrite /rowop mul1mx scatter_gather. Qed.

Lemma rowop_comp p (A B : 'M[R]_m) (F : 'M[R]_(n, p)) :
  rowop A (rowop B F idx) idx = rowop (A *m B) F idx.
Proof. by rewrite /rowop gather_scatter // scatter_scatter mulmxA. Qed.

Lemma embed1 : embed 1%:M idx = 1%:M.
Proof. exact: rowop1. Qed.

Lemma embed_mul (A B : 'M[R]_m) :
  embed (A *m B) idx = embed A idx *m embed B idx.
Proof. by rewrite -rowopE /embed rowop_comp. Qed.

End RowLaws.

End GatherScatter.

(** *** [matvec], [sandwich] *)

Section Backend.

Variable R : comPzRingType.

(** The state has [N] modes, the transformation acts on [k] of them. *)
Variables N k : nat.

(** [modes + [m+N for m in modes]] *)
Definition indices (modes : seq nat) : seq nat :=
  modes ++ [seq m + N | m <- modes].

(** The mode lists that TensorFlow accepts: at least one mode, as many modes
    as the transformation has, each one a mode of the state.  (The empty
    Python list becomes a [float32] tensor, which [tf.gather] and the scatter
    operations refuse as positions; on a CPU [tf.gather] raises
    [InvalidArgumentError] for a position out of range, and so does a
    product of incompatible shapes.) *)
Definition accepted (modes : seq nat) : bool :=
  [&& modes != [::], size modes == k & all (fun m => m < N)%N modes].

(** One-dimensional tensors are row vectors: [tf.gather],
    [tf.tensor_scatter_nd_update] and [tf.linalg.matvec] on them. *)
Definition gather_vec (vec : 'rV[R]_(N + N)) (idx : seq nat) : 'rV[R]_(k + k) :=
  (gather (k + k) vec^T idx)^T.

Definition scatter_update_vec (vec : 'rV[R]_(N + N)) (idx : seq nat)
    (updates : 'rV[R]_(k + k)) : 'rV[R]_(N + N) :=
  (scatter_update vec^T idx updates^T)^T.

Definition linalg_matvec (mat : 'M[R]_(k + k)) (x : 'rV[R]_(k + k))
  : 'rV[R]_(k + k) :=
  (mat *m x^T)^T.

Definition matvec (mat : option 'M[R]_(k + k)) (vec : 'rV[R]_(N + N))
    (modes : seq nat) : result 'rV[R]_(N + N) :=
  if mat is Some mat' then
    if accepted modes then
      let indices := indices modes in
      let updates := linalg_matvec mat' (gather_vec vec indices) in
      Ok (scatter_update_vec vec indices updates)
    else Raise InvalidArgumentError
  else Ok vec.

Definition sandwich (bread : option 'M[R]_(k + k)) (filling : 'M[R]_(N + N))
    (modes : seq nat) : result 'M[R]_(N + N) :=
  if bread is Some bread' then
    if accepted modes then
      let indices := indices modes in
      let rows := bread' *m gather (k + k) filling indices in
      let filling := scatter_update filling indices rows in
      let columns := bread' *m gather (k + k) filling^T indices in
      Ok (scatter_update filling^T indices columns)^T
    else Raise InvalidArgumentError
  else Ok filling.

Implicit Types (modes : seq nat) (vec : 'rV[R]_(N + N)).
Implicit Types (F : 'M[R]_(N + N)) (A B M : 'M[R]_(k + k)).

Lemma valid_indices modes :
  accepted modes -> uniq modes -> valid (N + N) (k + k) (indices modes).
Proof.
case/and3P=> _ /eqP size_modes /allP in_range uniq_modes.
apply/and3P; split.
- by rewrite /indices size_cat size_map size_modes.
- rewrite /indices all_cat all_map; apply/andP; split; apply/allP => x /in_range.
    by move=> lt_x; apply: ltn_addr.
  by move=> lt_x /=; rewrite ltn_add2r.
- have inj : injective (fun x => x + N)%N.
    by move=> x y /eqP; rewrite eqn_add2r => /eqP.
  rewrite /indices cat_uniq (map_inj_uniq inj) uniq_modes andbT /=.
  apply/hasPn => x /mapP[y _ ->].
  by apply/negP => /in_range; rewrite ltnNge leq_addl.
Qed.

Lemma matvecE M vec modes :
  accepted modes ->
  matvec (Some M) vec modes = Ok (rowop M vec^T (indices modes))^T.
Proof.
move=> acc; rewrite /matvec acc /scatter_update_vec /linalg_matvec /gather_vec.
by rewrite !trmxK.
Qed.

Lemma sandwichE M F modes :
  accepted modes ->
  sandwich (Some M) F modes
  = Ok (embed (N + N) M (indices modes) *m F
        *m (embed (N + N) M (indices modes))^T).
Proof.
move=> acc; rewrite /sandwich acc /= -!/(rowop _ _ _) !rowopE.
by rewrite trmx_mul trmxK.
Qed.

(** With a transformation and no mode, the calls fail. *)
Lemma matvec_no_mode M vec : matvec (Some M) vec [::] = Raise InvalidArgumentError.
Proof. by []. Qed.

Lemma sandwich_no_mode M F :
  sandwich (Some M) F [::] = Raise InvalidArgumentError.
Proof. by []. Qed.

(** X14. For an accepted list (not empty, in range, as long as
    the matrix requires) of distinct modes, [matvec] with the identity
    matrix returns the vector unchanged, two successive calls with [B] then
    [A] give the result of one call with [A B], and the entries outside the
    selected positions keep their value; without a matrix the vector is
    returned as it is. *)
Theorem matvec_modes vec modes :
  accepted modes -> uniq modes ->
  [/\ matvec None vec modes = Ok vec,
      matvec (Some 1%:M) vec modes = Ok vec,
      forall A B, exists2 w,
        matvec (Some B) vec modes = Ok w
        & matvec (Some A) w modes = matvec (Some (A *m B)) vec modes
    & forall M, exists2 w,
        matvec (Some M) vec modes = Ok w
        & forall i : 'I_(N + N),
            (i : nat) \notin indices modes -> w 0 i = vec 0 i].
Proof.
move=> acc uniq_modes; have valid_idx := valid_indices acc uniq_modes.
split=> // [|A B|M].
- by rewrite matvecE // rowop1 // trmxK.
- exists (rowop B vec^T (indices modes))^T; first exact: matvecE.
  by rewrite !matvecE // trmxK rowop_comp.
- exists (rowop M vec^T (indices modes))^T; first exact: matvecE.
  by move=> i notin; rewrite mxE (scatter_update_out valid_idx) // mxE.
Qed.

(** X15. For an accepted list (not empty, in range, as long
    as the matrix requires) of distinct modes, [sandwich] with the identity
    matrix returns the matrix unchanged, two successive
    calls with [B] then [A] give the result of one call with [A B], a
    symmetric matrix stays symmetric, and the entries whose row and column
    are both outside the selected positions keep their value. *)
Theorem sandwich_modes F modes :
  accepted modes -> uniq modes ->
  [/\ sandwich None F modes = Ok F,
      sandwich (Some 1%:M) F modes = Ok F,
      forall A B, exists2 G,
        sandwich (Some B) F modes = Ok G
        & sandwich (Some A) G modes = sandwich (Some (A *m B)) F modes
    & forall M, exists2 G,
        sandwich (Some M) F modes = Ok G
        & (F^T = F -> G^T = G)
          /\ forall i j : 'I_(N + N),
               (i : nat) \notin indices modes ->
               (j : nat) \notin indices modes -> G i j = F i j].
Proof.
move=> acc uniq_modes; have valid_idx := valid_indices acc uniq_modes.
set idx := indices modes in valid_idx *.
split=> // [|A B|M].
- by rewrite sandwichE // embed1 // trmx1 mul1mx mulmx1.
- exists (embed (N + N) B idx *m F *m (embed (N + N) B idx)^T).
    exact: sandwichE.
  by rewrite !sandwichE // embed_mul // trmx_mul !mulmxA.
- exists (embed (N + N) M idx *m F *m (embed (N + N) M idx)^T).
    exact: sandwichE.
  split=> [symF|i j out_i out_j].
    by rewrite !trmx_mul trmxK symF mulmxA.
  rewrite -mulmxA -rowopE (scatter_update_out valid_idx) //.
  have -> : F *m (embed (N + N) M idx)^T = (embed (N + N) M idx *m F^T)^T.
    by rewrite trmx_mul trmxK.
  by rewrite mxE -rowopE (scatter_update_out valid_idx) // mxE.
Qed.

End Backend.

(** *** [add] *)

Section Add.

Variable R : comPzRingType.
Variables N k : nat.

(** [tf.tensor_scatter_nd_add(old, positions, updates)] where [positions]
    lists [product(indices)] (rank 1), respectively
    [product(indices, indices)] (rank 2), and [updates] is
    [tf.reshape(new, -1)]: the entry [new[a]] (respectively [new[a, b]]) is
    added at the position [indices[a]] (respectively
    [(indices[a], indices[b])]); contributions to a repeated position
    accumulate. *)
Definition scatter_add_vec (old : 'rV[R]_(N + N)) (idx : seq nat)
    (new : 'rV[R]_(k + k)) : 'rV[R]_(N + N) :=
  \row_i (old 0 i + \sum_(a < k + k | nth 0%N idx a == i :> nat) new 0 a).

Definition scatter_add_mx (old : 'M[R]_(N + N)) (idx : seq nat)
    (new : 'M[R]_(k + k)) : 'M[R]_(N + N) :=
  \matrix_(i, j)
    (old i j + \sum_(a < k + k | nth 0%N idx a == i :> nat)
                 \sum_(b < k + k | nth 0%N idx b == j :> nat) new a b).

(** [add] for a vector (rank 1: [len(new.shape) = 1]) and for a matrix
    (rank 2). *)
Definition add_vec (old : 'rV[R]_(N + N)) (new : option 'rV[R]_(k + k))
    (modes : seq nat) : result 'rV[R]_(N + N) :=
  if new is Some new' then
    if accepted N k modes
    then Ok (scatter_add_vec old (indices N modes) new')
    else Raise InvalidArgumentError
  else Ok old.

Definition add_mx (old : 'M[R]_(N + N)) (new : option 'M[R]_(k + k))
    (modes : seq nat) : result 'M[R]_(N + N) :=
  if new is Some new' then
    if accepted N k modes
    then Ok (scatter_add_mx old (indices N modes) new')
    else Raise InvalidArgumentError
  else Ok old.

(** With an update and no mode, [add] fails. *)
Lemma add_no_mode old cov (new : 'rV[R]_(k + k)) (new' : 'M[R]_(k + k)) :
  add_vec old (Some new) [::] = Raise InvalidArgumentError
  /\ add_mx cov (Some new') [::] = Raise InvalidArgumentError.
Proof. by []. Qed.

Lemma scatter_add_vecD old idx (new1 new2 : 'rV[R]_(k + k)) :
  scatter_add_vec (scatter_add_vec old idx new1) idx new2
  = scatter_add_vec old idx (new1 + new2).
Proof.
apply/rowP => i; rewrite !mxE -addrA -big_split /=; congr (_ + _).
by apply: eq_bigr => a _; rewrite mxE.
Qed.

Lemma scatter_add_mxD old idx (new1 new2 : 'M[R]_(k + k)) :
  scatter_add_mx (scatter_add_mx old idx new1) idx new2
  = scatter_add_mx old idx (new1 + new2).
Proof.
apply/matrixP => i j; rewrite !mxE -addrA -big_split /=; congr (_ + _).
apply: eq_bigr => a _; rewrite -big_split /=.
by apply: eq_bigr => b _; rewrite mxE.
Qed.

(** X16. For an accepted list of modes (not empty, in range, as
    many as the update requires; repeated or not), adding
    [new1] and then [new2] at these modes is adding [new1 + new2] once,
    adding zero changes nothing, and the entry of a vector at a position
    that is not selected keeps its value; without an update the tensor is
    returned as it is. *)
Theorem add_modes (old : 'rV[R]_(N + N)) (cov : 'M[R]_(N + N)) modes :
  accepted N k modes ->
  [/\ add_vec old None modes = Ok old /\ add_mx cov None modes = Ok cov,
      add_vec old (Some 0) modes = Ok old /\ add_mx cov (Some 0) modes = Ok cov,
      forall new1 new2, exists2 w,
        add_vec old (Some new1) modes = Ok w
        & add_vec w (Some new2) modes = add_vec old (Some (new1 + new2)) modes,
      forall new1 new2, exists2 W,
        add_mx cov (Some new1) modes = Ok W
        & add_mx W (Some new2) modes = add_mx cov (Some (new1 + new2)) modes
    & forall new, exists2 w,
        add_vec old (Some new) modes = Ok w
        & forall i : 'I_(N + N),
            (i : nat) \notin indices N modes -> w 0 i = old 0 i].
Proof.
move=> acc; rewrite /add_vec /add_mx acc.
have size_idx : size (indices N modes) = (k + k)%N.
  by case/and3P: acc => _ /eqP size_modes _; rewrite size_cat size_map size_modes.
split=> // [|new1 new2|new1 new2|new].
- split; congr (Ok _).
    apply/rowP => i; rewrite mxE big1 ?addr0 // => a _.
    by rewrite mxE.
  apply/matrixP => i j; rewrite mxE big1 ?addr0 // => a _.
  by rewrite big1 // => b _; rewrite mxE.
- by eexists; first by []; rewrite scatter_add_vecD.
- by eexists; first by []; rewrite scatter_add_mxD.
- eexists; first by [].
  move=> i notin; rewrite mxE big_pred0 ?addr0 // => a.
  apply/negP => /eqP eq_i; move/negP: notin; apply.
  by rewrite -eq_i mem_nth // size_idx.
Qed.

End Add.

(** *** Transformations on all the modes *)

Section AllModes.

Variable R : comPzRingType.
Variable N : nat.

Lemma indices_iota : indices N (iota 0 N) = iota 0 (N + N).
Proof.
rewrite /indices iotaD add0n; congr (_ ++ _).
have -> : iota N N = iota (N + 0) N by rewrite addn0.
by rewrite iotaDl; apply: eq_map => x; rewrite addnC.
Qed.

Lemma gather_iota (n p : nat) (F : 'M[R]_(n, p)) : gather n F (iota 0 n) = F.
Proof.
apply/matrixP => a j; rewrite mxE nth_iota // add0n.
by case: insubP => [i _ /val_inj ->|]; rewrite ?ltn_ord.
Qed.

Lemma scatter_update_iota (n p : nat) (F U : 'M[R]_(n, p)) :
  scatter_update F (iota 0 n) U = U.
Proof.
apply/matrixP => i j; rewrite mxE.
rewrite last_index_uniq ?iota_uniq //.
have -> : index (i : nat) (iota 0 n) = i.
  rewrite -[X in index X](add0n i) -(nth_iota 0 0 (ltn_ord i)).
  by rewrite index_uniq ?size_iota ?iota_uniq.
by case: insubP => [a _ /val_inj ->|]; rewrite ?ltn_ord.
Qed.

(** X17. On the full list of modes [0, ..., N-1] of a state with
    at least one mode, [matvec] is the product [S vec] and [sandwich] is the
    congruence [S F S^T]; for a state without modes the list is empty and
    both calls fail. *)
Theorem all_modes (S : 'M[R]_(N + N)) (vec : 'rV[R]_(N + N))
    (F : 'M[R]_(N + N)) :
  matvec (Some S) vec (iota 0 N)
  = (if (0 < N)%N then Ok (vec *m S^T) else Raise InvalidArgumentError)
  /\ sandwich (Some S) F (iota 0 N)
     = (if (0 < N)%N then Ok (S *m F *m S^T) else Raise InvalidArgumentError).
Proof.
case: (posnP N) => [N0|N_gt0].
  have nacc : accepted N N (iota 0 N) = false by rewrite /accepted N0.
  by rewrite /matvec /sandwich nacc.
have acc : accepted N N (iota 0 N).
  rewrite /accepted size_iota eqxx -size_eq0 size_iota -lt0n N_gt0 /=.
  by apply/allP => x; rewrite mem_iota add0n.
have embedE : embed (N + N) S (indices N (iota 0 N)) = S.
  by rewrite indices_iota /embed /rowop gather_iota scatter_update_iota mulmx1.
split; last by rewrite sandwichE // embedE.
by rewrite matvecE // rowopE embedE trmx_mul trmxK.
Qed.

End AllModes.

(** A transformation of one mode, applied to mode 1 of a two-mode state. *)
Lemma matvec_modes_witness :
  [/\ accepted 2 1 [:: 1%N], uniq [:: 1%N]
    & matvec (Some (1%:M : 'M[rat]_(1 + 1))) (const_mx 1 : 'rV_(2 + 2))
        [:: 1%N]
      = Ok (const_mx 1)].
Proof.
split=> //.
have acc : accepted 2 1 [:: 1%N] by [].
have [_ eq1 _ _] :=
  matvec_modes (const_mx 1 : 'rV[rat]_(2 + 2)) acc (isT : uniq [:: 1%N]).
exact: eq1.
Defined.

Lemma sandwich_modes_witness :
  [/\ accepted 2 1 [:: 1%N], uniq [:: 1%N]
    & sandwich (Some (1%:M : 'M[rat]_(1 + 1))) (1%:M : 'M_(2 + 2)) [:: 1%N]
      = Ok 1%:M].
Proof.
split=> //.
have acc : accepted 2 1 [:: 1%N] by [].
have [_ eq1 _ _] :=
  sandwich_modes (1%:M : 'M[rat]_(2 + 2)) acc (isT : uniq [:: 1%N]).
exact: eq1.
Defined.

Lemma add_modes_witness :
  accepted 2 1 [:: 1%N]
  /\ add_vec (const_mx 1 : 'rV[rat]_(2 + 2)) (Some (0 : 'rV_(1 + 1))) [:: 1%N]
     = Ok (const_mx 1).
Proof.
split=> //.
have acc : accepted 2 1 [:: 1%N] by [].
have [_ [eq0 _] _ _ _] :=
  add_modes (const_mx 1 : 'rV[rat]_(2 + 2)) 1%:M acc.
exact: eq0.
Defined.

End ModeOps.

(** ** TFMathbackend: the diagonals of a density matrix *)

Module Diagonals.

Import Fock.

Section AllDiagonals.

Variable C : numClosedFieldType.

(** [np.prod] of a shape. *)
Definition prod (shp : seq nat) : nat := foldr muln 1%N shp.

(** The position of a multi-index in row-major order, and the multi-index
    at a position. *)
Fixpoint ravel (shp idx : seq nat) : nat :=
  match shp, idx with
  | _ :: shp', i :: idx' => (i * prod shp' + ravel shp' idx')%N
  | _, _ => 0%N
  end.

Fixpoint unravel (shp : seq nat) (pos : nat) : seq nat :=
  match shp with
  | _ :: shp' => (pos %/ prod shp')%N :: unravel shp' (pos %% prod shp')%N
  | [::] => [::]
  end.

(** [tf.reshape(t, shp)]: the entries keep their row-major position; a shape
    with another number of entries is refused. *)
Definition reshape (t : ndarray C) (shp : seq nat) : result (ndarray C) :=
  if prod shp == prod (shape t)
  then Ok (NdArray shp (fun idx => item t (unravel (shape t) (ravel shp idx))))
  else Raise InvalidArgumentError.

(** [tf.linalg.diag_part] of a square matrix. *)
Definition diag_part (t : ndarray C) : ndarray C :=
  NdArray [:: nth 0%N (shape t) 0]
          (fun idx => item t [:: nth 0%N idx 0; nth 0%N idx 0]).

(** [all_diagonals].  For a tensor of rank 0 or 1 [cutoffs] is empty and
    [np.prod(cutoffs)] is the float [1.0], which [tf.reshape] refuses as a
    dimension. *)
Definition all_diagonals (rho : ndarray C) : result (ndarray C) :=
  let cutoffs := take (size (shape rho) %/ 2) (shape rho) in
  if nilp cutoffs then Raise InvalidArgumentError
  else
    match reshape rho [:: prod cutoffs; prod cutoffs] with
    | inr rho' =>
        let diag := diag_part rho' in
        reshape diag cutoffs
    | inl e => Raise e
    end.

Lemma prod_cat shp1 shp2 : prod (shp1 ++ shp2) = (prod shp1 * prod shp2)%N.
Proof. by elim: shp1 => [|d shp1 IH] /=; rewrite ?mul1n // IH mulnA. Qed.

Lemma ravel_lt shp idx : in_bounds shp idx -> (ravel shp idx < prod shp)%N.
Proof.
rewrite /in_bounds; elim: shp idx => [|d shp IH] [|i idx] //=.
rewrite eqSS => /and3P[eq_size lt_i all_idx].
have lt_r : (ravel shp idx < prod shp)%N by apply: IH; rewrite eq_size.
apply: leq_trans (_ : i.+1 * prod shp <= _)%N; last by rewrite leq_mul2r lt_i orbT.
by rewrite mulSn addnC ltn_add2r.
Qed.

Lemma unravel_ravel shp idx :
  in_bounds shp idx -> unravel shp (ravel shp idx) = idx.
Proof.
rewrite /in_bounds; elim: shp idx => [|d shp IH] [|i idx] //=.
rewrite eqSS => /and3P[eq_size lt_i all_idx].
have inb : in_bounds shp idx by rewrite /in_bounds eq_size.
have lt_r := ravel_lt inb.
have pos : (0 < prod shp)%N by apply: leq_ltn_trans lt_r.
by rewrite divnMDl // divn_small // addn0 modnMDl modn_small // IH.
Qed.

Lemma ravel_cat shp1 shp2 idx1 idx2 :
  size idx1 = size shp1 ->
  ravel (shp1 ++ shp2) (idx1 ++ idx2)
  = (ravel shp1 idx1 * prod shp2 + ravel shp2 idx2)%N.
Proof.
elim: shp1 idx1 => [|d shp1 IH] [|i idx1] //= [eq_size].
by rewrite IH // prod_cat mulnDl mulnA addnA.
Qed.

Lemma in_bounds_cat shp1 shp2 idx1 idx2 :
  in_bounds shp1 idx1 -> in_bounds shp2 idx2 ->
  in_bounds (shp1 ++ shp2) (idx1 ++ idx2).
Proof.
rewrite /in_bounds => /andP[/eqP size1 all1] /andP[/eqP size2 all2].
rewrite !size_cat size1 size2 eqxx /=.
elim: shp1 idx1 size1 all1 => [|d shp1 IH] [|i idx1] //= [size1].
by case/andP=> -> /=; apply: IH.
Qed.

Lemma all_diagonals_ok (rho : ndarray C) (cutoffs : seq nat) :
  shape rho = cutoffs ++ cutoffs -> ~~ nilp cutoffs ->
  exists2 d, all_diagonals rho = Ok d
    & shape d = cutoffs
      /\ forall idx, in_bounds cutoffs idx ->
           item d idx = item rho (idx ++ idx).
Proof.
move=> eq_shape /negbTE nonnil.
rewrite /all_diagonals eq_shape size_cat addnn -muln2 mulnK //.
rewrite take_size_cat // nonnil.
rewrite /reshape /= eq_shape prod_cat muln1 eqxx /= muln1 eqxx.
eexists; first by []; split=> //= idx inb.
rewrite divn1 !muln1 addn0.
have /eqP size_idx : size idx == size cutoffs by case/andP: inb.
by rewrite -ravel_cat // unravel_ravel // in_bounds_cat.
Qed.

(** X18. For a density matrix of shape
    [cutoffs + cutoffs] with at least one mode, [all_diagonals] returns the
    tensor of shape [cutoffs] whose entry at a multi-index [idx] is the entry
    of the density matrix at [idx + idx]; for a tensor of rank 0 ([cutoffs]
    empty) it raises [InvalidArgumentError]. *)
Theorem all_diagonals_entries (rho : ndarray C) (cutoffs : seq nat) :
  shape rho = cutoffs ++ cutoffs ->
  if cutoffs is [::] then all_diagonals rho = Raise InvalidArgumentError
  else
    exists2 d, all_diagonals rho = Ok d
      & shape d = cutoffs
        /\ forall idx, in_bounds cutoffs idx ->
             item d idx = item rho (idx ++ idx).
Proof.
case: cutoffs => [|c cutoffs] eq_shape; first by rewrite /all_diagonals eq_shape.
exact: all_diagonals_ok.
Qed.

End AllDiagonals.

(** The density matrix of one mode with cutoff 2 whose entry at [(i, j)] is
    [i]. *)
Definition rows2 : ndarray algC :=
  NdArray [:: 2; 2]%N (fun idx => (nth 0%N idx 0)%:R).

Lemma all_diagonals_entries_witness :
  shape rows2 = [:: 2%N] ++ [:: 2%N]
  /\ exists2 d, all_diagonals rows2 = Ok d & shape d = [:: 2%N].
Proof.
split=> //.
have [d eq_d [eq_shape _]] :=
  all_diagonals_entries (erefl : shape rows2 = [:: 2%N] ++ [:: 2%N]).
by exists d.
Defined.

End Diagonals.

(** ** The update loops: lengths and stationary points *)

Module UpdateLoops.

Import Manifold.

Section Loops.

Variable R : numFieldType.
Variable expm : forall m : nat, 'M[R]_m -> 'M[R]_m.

Section SymplecticLoop.

Variable n : nat.
Implicit Types (S dS : 'M[R]_(n + n)) (params grads : seq 'M[R]_(n + n)).

Lemma _update_symplectic_step0 lr S :
  expm (0 : 'M[R]_(n + n)) = 1%:M -> _update_symplectic_step expm lr S 0 = S.
Proof.
move=> expm0; rewrite /_update_symplectic_step /symplectic_projection /=.
by rewrite mulmx0 trmx0 mulmx0 mul0mx addr0 scaler0 trmx0 subr0 scaler0 expm0
           !mulmx1.
Qed.

Lemma _update_symplectic_step_lr0 S dS :
  expm (0 : 'M[R]_(n + n)) = 1%:M -> _update_symplectic_step expm 0 S dS = S.
Proof.
by move=> expm0; rewrite /_update_symplectic_step /= oppr0 !scale0r expm0 !mulmx1.
Qed.

End SymplecticLoop.

Section OrthogonalLoop.

Variable n : nat.
Implicit Types (O dO : 'M[R]_n) (params grads : seq 'M[R]_n).

Lemma update_orthogonal_step0 lr O :
  expm (0 : 'M[R]_n) = 1%:M -> update_orthogonal_step expm lr O 0 = O.
Proof.
move=> expm0; rewrite /update_orthogonal_step /=.
by rewrite trmx0 mulmx0 mul0mx subr0 scaler0 trmx0 mul0mx scaler0 expm0 mulmx1.
Qed.

Lemma update_orthogonal_step_lr0 O dO :
  expm (0 : 'M[R]_n) = 1%:M -> update_orthogonal_step expm 0 O dO = O.
Proof.
by move=> expm0; rewrite /update_orthogonal_step /= scale0r expm0 mulmx1.
Qed.

End OrthogonalLoop.

(** X19. The update loops pair parameters and gradients
    with [zip]: every parameter that has a gradient is replaced by its
    retraction step, the parameters beyond the last gradient keep their
    value, surplus gradients are ignored, and the number of parameters does
    not change. *)
Theorem update_loops_zip (n : nat) (lr : R)
    (grads params : seq 'M[R]_(n + n)) (ograds oparams : seq 'M[R]_n) :
  [/\ _update_symplectic expm lr grads params
      = [seq _update_symplectic_step expm lr pg.1 pg.2 | pg <- zip params grads]
        ++ drop (size grads) params,
      size (_update_symplectic expm lr grads params) = size params,
      update_orthogonal expm oparams ograds lr
      = [seq update_orthogonal_step expm lr pg.1 pg.2 | pg <- zip oparams ograds]
        ++ drop (size ograds) oparams
    & size (update_orthogonal expm oparams ograds lr) = size oparams].
Proof.
split; rewrite ?_update_symplecticE ?update_orthogonalE //.
- rewrite size_cat size_map size_zip size_drop.
  by case: (leqP (size params) (size grads)) => [le|/ltnW le];
     rewrite ?(minn_idPl le) ?(minn_idPr le) ?subnKC // (eqP le) addn0.
- rewrite size_cat size_map size_zip size_drop.
  by case: (leqP (size oparams) (size ograds)) => [le|/ltnW le];
     rewrite ?(minn_idPl le) ?(minn_idPr le) ?subnKC // (eqP le) addn0.
Qed.

(** X20. When the matrix exponential of the zero matrix
    is the identity, a zero gradient and a zero learning rate both leave a
    symplectic or orthogonal parameter unchanged. *)
Theorem update_stationary (n : nat) (lr : R) (S dS : 'M[R]_(n + n))
    (O dO : 'M[R]_n) :
  (forall m, expm (0 : 'M[R]_m) = 1%:M) ->
  [/\ _update_symplectic_step expm lr S 0 = S,
      _update_symplectic_step expm 0 S dS = S,
      update_orthogonal_step expm lr O 0 = O
    & update_orthogonal_step expm 0 O dO = O].
Proof.
move=> expm0; split.
- exact: _update_symplectic_step0.
- exact: _update_symplectic_step_lr0.
- exact: update_orthogonal_step0.
- exact: update_orthogonal_step_lr0.
Qed.

End Loops.

Lemma pade_expm0 (F : fieldType) (m : nat) : pade_expm (0 : 'M[F]_m) = 1%:M.
Proof.
rewrite /pade_expm scaler0 subr0 addr0 unitmx1 /=.
by rewrite invmx1 mulmx1.
Qed.

Lemma update_stationary_witness :
  (forall m, pade_expm (0 : 'M[rat]_m) = 1%:M)
  /\ _update_symplectic_step (@pade_expm rat) 1 shear 0 = shear.
Proof.
split; first by move=> m; apply: pade_expm0.
have [eq0 _ _ _] :=
  update_stationary 1 shear 0 (1%:M : 'M_1) 0 (@pade_expm0 rat).
exact: eq0.
Defined.

End UpdateLoops.

(** ** Parameter collection: order and unhashable tensors *)

Module CollectOrder.

Import Collect.

Section FirstSeen.

Variable T : eqType.
Implicit Types (s r : seq T) (x y : T).

(** The elements of a list in the order of their first occurrence. *)
Definition first_seen s : seq T :=
  foldl (fun acc x => if x \in acc then acc else rcons acc x) [::] s.

(** [res] lists the elements of [reg] once each, in the order in which they
    first occur in [reg]. *)
Definition in_order_of reg res : Prop :=
  [/\ uniq res, res =i reg
    & {in reg &, forall x y,
         (index x res < index y res)%N = (index x reg < index y reg)%N}].

Lemma first_seen_rcons s x :
  first_seen (rcons s x)
  = if x \in first_seen s then first_seen s else rcons (first_seen s) x.
Proof. by rewrite /first_seen -cats1 foldl_cat. Qed.

Lemma index_rcons_in s x y : y \in s -> index y (rcons s x) = index y s.
Proof. by move=> in_s; rewrite -cats1 index_cat in_s. Qed.

Lemma index_rcons_out s x : x \notin s -> index x (rcons s x) = size s.
Proof.
by move=> /negbTE notin; rewrite -cats1 index_cat notin /= eqxx addn0.
Qed.

Lemma first_seen_order s : in_order_of s (first_seen s).
Proof.
elim/last_ind: s => [|s x [uniq_r mem_r order_r]] //.
rewrite first_seen_rcons; case: ifP => [in_r|/negbT notin_r].
  have in_s : x \in s by rewrite -mem_r.
  split=> // [y|a b]; first by rewrite mem_rcons inE mem_r; case: eqP => // ->.
  rewrite !mem_rcons !inE => in_a in_b.
  have {}in_a : a \in s by case/orP: in_a => // /eqP ->.
  have {}in_b : b \in s by case/orP: in_b => // /eqP ->.
  by rewrite !index_rcons_in // order_r.
have notin_s : x \notin s by rewrite -mem_r.
split=> [|y|a b].
- by rewrite rcons_uniq notin_r.
- by rewrite !mem_rcons !inE mem_r.
- rewrite !mem_rcons !inE.
  have size_lt y : y \in s ->
      (index y (first_seen s) < size (first_seen s))%N
      /\ (index y s < size s)%N.
    by move=> in_s; rewrite !index_mem mem_r.
  case/predU1P=> [->|in_a]; case/predU1P=> [->|in_b].
  + by rewrite !ltnn.
  + rewrite !index_rcons_out // !index_rcons_in ?mem_r //.
    have [lt1 lt2] := size_lt b in_b.
    by rewrite ltnNge (ltnW lt1) ltnNge (ltnW lt2).
  + rewrite !index_rcons_out // !index_rcons_in ?mem_r //.
    by have [-> ->] := size_lt a in_a.
  + by rewrite !index_rcons_in ?mem_r // order_r.
Qed.

End FirstSeen.

Section Order.

Variable V : Type.
Implicit Types (p s : param V) (ps acc : seq (param V)).
Implicit Types (circuits : seq (circuit V)).

Lemma foldl_flatten (T U W : Type) (f : U -> W -> U) (g : T -> seq W) z cs :
  foldl (fun a c => foldl f a (g c)) z cs = foldl f z (flatten (map g cs)).
Proof. by elim: cs z => [|c cs IH] z //=; rewrite foldl_cat IH. Qed.

Lemma storage_append_new acc s :
  map (@storage V) (append_new acc s)
  = if storage s \in map (@storage V) acc then map (@storage V) acc
    else rcons (map (@storage V) acc) (storage s).
Proof.
rewrite /append_new.
have -> : has (fun r => storage r == storage s) acc
          = (storage s \in map (@storage V) acc).
  by rewrite -has_pred1 has_map; apply: eq_has => r.
by case: ifP => // _; rewrite map_rcons.
Qed.

Lemma storage_foldl_append_new acc ps :
  map (@storage V) (foldl (@append_new V) acc ps)
  = foldl (fun a x => if x \in a then a else rcons a x)
          (map (@storage V) acc) (map (@storage V) ps).
Proof.
by elim: ps acc => [|p ps IH] acc //=; rewrite IH storage_append_new.
Qed.

(** X21. The lists returned by
    [_all_symplectic_parameters] and [_all_euclidean_parameters] contain
    every registered parameter once, in the order in which the parameters
    are first met when the circuits are read from first to last. *)
Theorem all_parameters_in_order circuits :
  in_order_of
    [seq storage p
    | p <- flatten [seq symplectic_parameters c | c <- circuits]]
    [seq storage p | p <- _all_symplectic_parameters circuits]
  /\ in_order_of
       [seq storage p
       | p <- flatten [seq euclidean_parameters c | c <- circuits]]
       [seq storage p | p <- _all_euclidean_parameters circuits].
Proof.
rewrite /_all_symplectic_parameters /_all_euclidean_parameters !foldl_flatten.
by rewrite !storage_foldl_append_new; split; apply: first_seen_order.
Qed.

(** [hash_tensor] of any backend. *)
Variable hash_tensor : param V -> option nat.

Lemma scan_unhashable (d : dict V) p ps1 ps2 :
  hash_tensor p = None ->
  scan hash_tensor d (ps1 ++ p :: ps2) = scan hash_tensor d ps1.
Proof.
move=> unhashable; elim: ps1 d => [|q ps1 IH] d /=; first by rewrite unhashable.
by case: (hash_tensor q).
Qed.

(** X22. When [hash_tensor] raises
    [TypeError] on a parameter, [extract_parameters] does not fail: the
    parameters that the same item lists after it are skipped, those listed
    before it are kept, and the following items are still read. *)
Theorem extract_parameters_unhashable items1 items2 (it it' : item V) k p
    ps1 ps2 :
  hash_tensor p = None ->
  trainable_parameters it k = ps1 ++ p :: ps2 ->
  trainable_parameters it' k = ps1 ->
  extract_parameters hash_tensor (items1 ++ it :: items2) k
  = extract_parameters hash_tensor (items1 ++ it' :: items2) k.
Proof.
move=> unhashable eq_it eq_it'.
by rewrite /extract_parameters !foldl_cat /= eq_it eq_it' scan_unhashable.
Qed.

End Order.

(** A backend that cannot hash the tensor stored at 0. *)
Definition partial_hash (p : param nat) : option nat :=
  if storage p == 0%N then None else Some (storage p).

Lemma extract_parameters_unhashable_witness :
  let broken := Item (fun _ => [:: Param 1 7; Param 0 5; Param 2 9]) in
  let short := Item (fun _ => [:: Param 1 7]) in
  partial_hash (Param 0 5) = None
  /\ extract_parameters partial_hash [:: broken] Euclidean
     = extract_parameters partial_hash [:: short] Euclidean.
Proof.
split; first by [].
exact: (@extract_parameters_unhashable _ partial_hash [::] [::]
          (Item (fun _ => [:: Param 1 7; Param 0 5; Param 2 9]))
          (Item (fun _ => [:: Param 1 7])) Euclidean (Param 0 5)
          [:: Param 1 7] [:: Param 2 9] erefl erefl erefl).
Defined.

End CollectOrder.

(** ** The recursion engine: dependence on [C], closed form, backward pass *)

Module FockSolutions.

Import Fock.

Section Solutions.

Variable C : numClosedFieldType.
Variables (A : seq (seq C)) (B : seq C).
Variable shp : seq nat.
Implicit Types (t u : seq nat -> C) (idx : seq nat) (c : C).

(** [t] satisfies the recurrence of the engine on the shape [shp]. *)
Definition solution t : Prop :=
  forall idx, in_bounds shp idx -> nonzero idx ->
    t idx = amplitude A B t idx (pivot idx).

Lemma all_zero_index idx :
  in_bounds shp idx -> ~~ nonzero idx -> idx = nseq (size shp) 0%N.
Proof.
case/andP=> /eqP <- _; rewrite /nonzero -all_predC => /allP zero.
apply: (@eq_from_nth _ 0%N); rewrite ?size_nseq // => i lt_i.
rewrite nth_nseq lt_i; apply/eqP; rewrite -leqn0 leqNgt.
exact: (zero _ (mem_nth _ lt_i)).
Qed.

(** Induction on the total photon number of a multi-index. *)
Lemma photon_number_ind (P : seq nat -> Prop) :
  (forall idx, in_bounds shp idx ->
     (forall idx', in_bounds shp idx' -> (sumn idx' < sumn idx)%N -> P idx') ->
     P idx) ->
  forall idx, in_bounds shp idx -> P idx.
Proof.
move=> step idx; move: {2}(sumn idx).+1 (ltnSn (sumn idx)) => s.
elim: s idx => // s IH idx; rewrite ltnS => le_s inb.
by apply: step => // idx' inb' lt'; apply: IH => //; apply: leq_trans lt' le_s.
Qed.

(** The right-hand side of the recurrence only reads entries of smaller
    total photon number, inside the shape. *)
Lemma amplitude_below t u idx :
  in_bounds shp idx -> nonzero idx ->
  (forall idx', in_bounds shp idx' -> (sumn idx' < sumn idx)%N ->
     t idx' = u idx') ->
  amplitude A B t idx (pivot idx) = amplitude A B u idx (pivot idx).
Proof.
move=> inb nz below; have pos := pivot_pos nz.
have inb' := in_bounds_dec inb pos; have lt' := sumn_dec pos.
rewrite /amplitude below //; congr ((_ + _) / _).
apply: eq_bigr => j _; case: ifP => // pos_j.
by rewrite below ?in_bounds_dec // (ltn_trans (sumn_dec pos_j)).
Qed.

Lemma amplitudeZ c u idx k :
  amplitude A B (fun i => c * u i) idx k = c * amplitude A B u idx k.
Proof.
rewrite /amplitude [RHS]mulrA; congr (_ / _).
rewrite mulrDr [in RHS]mulrCA big_distrr /=; congr (_ + _).
apply: eq_bigr => j _; case: ifP => _; rewrite ?mulr0 //.
by rewrite mulrCA.
Qed.

(** Two solutions with proportional boundary values are proportional. *)
Lemma solution_linear t u c :
  solution t -> solution u ->
  t (nseq (size shp) 0%N) = c * u (nseq (size shp) 0%N) ->
  forall idx, in_bounds shp idx -> t idx = c * u idx.
Proof.
move=> sol_t sol_u eq0; apply: photon_number_ind => idx inb IH.
case nz: (nonzero idx); last by rewrite (all_zero_index inb) ?nz.
rewrite sol_t // sol_u // -amplitudeZ.
exact: amplitude_below.
Qed.

End Solutions.

Section EngineSolutions.

Variable C : numClosedFieldType.
Variables (A : seq (seq C)) (B : seq C) (cutoffs : seq int).

Let mixed : bool := size B == (2 * size cutoffs)%N.
Let shp : seq nat := map range_len (doubled cutoffs mixed).

Hypothesis pos : all (fun c => 0 < c) cutoffs.

Lemma forward_solution C0 : solution A B shp (item (forward A B C0 cutoffs)).
Proof. by move=> idx inb nz; apply: forward_recurrence. Qed.

Lemma forward_boundary C0 :
  item (forward A B C0 cutoffs) (nseq (size shp) 0%N) = C0.
Proof. by rewrite -zero_indexE forward_zero. Qed.

Lemma forward_linear C0 idx :
  in_bounds shp idx ->
  item (forward A B C0 cutoffs) idx = C0 * item (forward A B 1 cutoffs) idx.
Proof.
apply: solution_linear; try exact: forward_solution.
by rewrite !forward_boundary mulr1.
Qed.

Lemma weight_nseq0 n : weight C (nseq n 0%N) = 1.
Proof.
rewrite /weight; elim: n => [|n IH] /=; first by rewrite big_nil.
by rewrite big_cons IH fact0 sqrtC1 mulr1.
Qed.

(** The monomial [prod_k B[k] ^ idx[k]]. *)
Definition monomial (idx : seq nat) : C :=
  \prod_(0 <= k < size idx) B_at B k ^+ nth 0%N idx k.

Lemma monomial_nseq0 n : monomial (nseq n 0%N) = 1.
Proof.
rewrite /monomial big1_seq // => k; rewrite mem_index_iota => /andP[_ lt_k].
by rewrite nth_nseq; case: ifP.
Qed.

Lemma monomial_dec idx k :
  (0 < nth 0 idx k)%N -> monomial idx = B_at B k * monomial (dec idx k).
Proof.
move=> pos_k; have lt_k := nth_pos_size pos_k.
rewrite /monomial size_dec // !big_mkord.
rewrite (bigD1 (Ordinal lt_k)) //= [in RHS](bigD1 (Ordinal lt_k)) //= mulrA.
rewrite nth_dec eqxx -exprS prednK //; congr (_ * _).
apply: eq_bigr => i; rewrite -val_eqE /= => /negbTE neq_ik.
by rewrite nth_dec neq_ik.
Qed.

Lemma forward_coherent C0 idx :
  (forall k j, A_at A k j = 0) -> in_bounds shp idx ->
  item (forward A B C0 cutoffs) idx = C0 * monomial idx / weight C idx.
Proof.
move=> A0; move: idx; apply: photon_number_ind => idx inb IH.
case nz: (nonzero idx); last first.
  rewrite (all_zero_index inb) ?nz // forward_boundary monomial_nseq0.
  by rewrite weight_nseq0 mulr1 divr1.
have pos_p := pivot_pos nz.
rewrite forward_recurrence // /amplitude big1 ?addr0.
  by move=> j _; case: ifP => // _; rewrite A0 !mul0r.
rewrite IH ?in_bounds_dec ?sumn_dec // (monomial_dec pos_p) (weight_dec C pos_p).
by rewrite invfM; ring.
Qed.

End EngineSolutions.

(** X23. For positive cutoffs the tensor
    returned by the engine is [C] times the tensor returned for [C = 1] and
    the same [A], [B] and cutoffs; hence, for [C] not 0, the tensor
    [state / C] that the backward pass uses as sensitivity to [C] does not
    depend on [C]. *)
Theorem recursive_state_linear_in_C (C : numClosedFieldType)
    (A : seq (seq C)) (B : seq C) (C0 : C) (cutoffs : seq int) :
  all (fun c => 0 < c) cutoffs ->
  exists state state1,
    [/\ state_of (_recursive_state A B C0 cutoffs) = Some state,
        state_of (_recursive_state A B 1 cutoffs) = Some state1,
        forall idx, in_bounds (shape state) idx ->
          item state idx = C0 * item state1 idx
      & C0 != 0 ->
        forall idx, in_bounds (shape state) idx ->
          item (nd_div_scalar state C0) idx = item state1 idx].
Proof.
move=> pos; exists (forward A B C0 cutoffs), (forward A B 1 cutoffs).
split; rewrite ?recursive_state_ok // forward_shape.
- by move=> idx inb; apply: forward_linear.
- move=> C0_neq0 idx inb /=.
  by rewrite (forward_linear A pos C0 inb) mulrC mulKf.
Qed.

(** X24. For positive cutoffs and a zero matrix
    [A], the entry of the returned tensor at [idx] is
    [C * prod_k B[k]^idx[k] / sqrt(prod_k idx[k]!)]. *)
Theorem recursive_state_coherent (C : numClosedFieldType)
    (A : seq (seq C)) (B : seq C) (C0 : C) (cutoffs : seq int) :
  all (fun c => 0 < c) cutoffs ->
  (forall k j, A_at A k j = 0) ->
  exists2 state,
    state_of (_recursive_state A B C0 cutoffs) = Some state
    & forall idx, in_bounds (shape state) idx ->
        item state idx
        = C0 * (\prod_(0 <= k < size idx) B_at B k ^+ nth 0%N idx k)
          / (\prod_(i <- idx) sqrtC (i`!)%:R).
Proof.
move=> pos A0; exists (forward A B C0 cutoffs).
  by rewrite recursive_state_ok.
by rewrite forward_shape => idx inb; apply: forward_coherent.
Qed.

Section BackwardPass.

Variable C : numClosedFieldType.
Variable fill_gradients :
  ndarray C -> ndarray C -> ndarray C -> seq (seq C) -> seq C -> seq int ->
  (ndarray C * ndarray C)%type.

(** The upstream gradient [c * dy1 + dy2]. *)
Definition nd_axpy (c : C) (dy1 dy2 : ndarray C) : ndarray C :=
  NdArray (shape dy1) (fun idx => c * item dy1 idx + item dy2 idx).

Lemma sum_axpy (I : Type) (r : seq I) (c : C) (f1 f2 g : I -> C) :
  \sum_(i <- r) (c * f1 i + f2 i) * g i
  = c * (\sum_(i <- r) f1 i * g i) + \sum_(i <- r) f2 i * g i.
Proof.
rewrite mulr_sumr -big_split /=; apply: eq_bigr => i _.
by rewrite mulrDl mulrA.
Qed.

End BackwardPass.

(** X25. The backward pass is linear in the upstream gradient:
    for [dy1] and [dy2] of one shape and a scalar [c], every entry of
    [dL/dA], [dL/dB] and [dL/dC] returned for [c * dy1 + dy2] is [c] times
    the entry returned for [dy1] plus the entry returned for [dy2],
    whatever [utils.fill_gradients] computes. *)
Theorem grad_linear (C : numClosedFieldType) fill_gradients
    (env : grad_closure C) (c : C) (dy1 dy2 : ndarray C) :
  shape dy1 = shape dy2 ->
  let g := grad fill_gradients env (nd_axpy c dy1 dy2) in
  let g1 := grad fill_gradients env dy1 in
  let g2 := grad fill_gradients env dy2 in
  [/\ forall i j,
        nth 0 (nth [::] (dLdA g) i) j
        = c * nth 0 (nth [::] (dLdA g1) i) j + nth 0 (nth [::] (dLdA g2) i) j,
      forall i, nth 0 (dLdB g) i = c * nth 0 (dLdB g1) i + nth 0 (dLdB g2) i
    & dLdC g = c * dLdC g1 + dLdC g2].
Proof.
move=> eq_shape; rewrite /grad.
case: (fill_gradients _ _ _ _ _ _) => dA dB /=; split.
- move=> i j; set cols := size (nth _ _ _); set rows := size _.
  case: (ltnP i rows) => [lt_i|le_i]; last first.
    by rewrite !(nth_default [::]) ?size_mkseq // !nth_nil mulr0 addr0.
  rewrite !(nth_mkseq [::]) //.
  case: (ltnP j cols) => [lt_j|le_j]; last first.
    by rewrite !nth_default ?size_mkseq // mulr0 addr0.
  by rewrite !nth_mkseq // -eq_shape sum_axpy.
- move=> i; case: (ltnP i (size (captured_B env))) => [lt_i|le_i]; last first.
    by rewrite !nth_default ?size_mkseq // mulr0 addr0.
  by rewrite !nth_mkseq // -eq_shape sum_axpy.
- by rewrite /nd_sum /= -eq_shape sum_axpy.
Qed.

(** Over the algebraic numbers, for the single-mode example with cutoff 4
    and [C = 2]. *)
Lemma recursive_state_linear_in_C_witness :
  all (fun c : int => 0 < c) [:: 4]
  /\ exists state state1,
      [/\ state_of (_recursive_state (A1 algC) (B1 algC) 2 [:: 4])
          = Some state,
          state_of (_recursive_state (A1 algC) (B1 algC) 1 [:: 4])
          = Some state1,
          forall idx, in_bounds (shape state) idx ->
            item state idx = 2 * item state1 idx
        & 2 != 0 :> algC ->
          forall idx, in_bounds (shape state) idx ->
            item (nd_div_scalar state 2) idx = item state1 idx].
Proof.
split; first by [].
exact: (@recursive_state_linear_in_C algC (A1 algC) (B1 algC) 2 [:: 4]).
Defined.

(** Over the algebraic numbers, for one mode with [A = 0] and cutoff 4. *)
Lemma recursive_state_coherent_witness :
  [/\ all (fun c : int => 0 < c) [:: 4],
      forall k j, A_at ([:: [:: 0]] : seq (seq algC)) k j = 0
    & exists2 state,
        state_of (_recursive_state [:: [:: 0]] (B1 algC) 2 [:: 4])
        = Some state
        & forall idx, in_bounds (shape state) idx ->
            item state idx
            = 2 * (\prod_(0 <= k < size idx) B_at (B1 algC) k ^+ nth 0%N idx k)
              / (\prod_(i <- idx) sqrtC (i`!)%:R)].
Proof.
have pos : all (fun c : int => 0 < c) [:: 4] by [].
have A0 k j : A_at ([:: [:: 0]] : seq (seq algC)) k j = 0.
  by rewrite /A_at; case: k => [|k] /=; rewrite ?nth_nil //; case: j => [|[]].
split=> //.
exact: (@recursive_state_coherent algC [:: [:: 0]] (B1 algC) 2 [:: 4] pos A0).
Defined.

(** Over the algebraic numbers, for the closure of the single-mode example
    with cutoff 2 and an upstream gradient of ones. *)
Lemma grad_linear_witness :
  let env :=
    GradClosure (A1 algC) (B1 algC) 1 [:: 2] false [:: 1]
      (forward (A1 algC) (B1 algC) 1 [:: 2]) in
  let g := grad as_allocated env (nd_axpy 3 ones2 ones2) in
  let g1 := grad as_allocated env ones2 in
  shape ones2 = shape ones2
  /\ [/\ forall i j,
          nth 0 (nth [::] (dLdA g) i) j
          = 3 * nth 0 (nth [::] (dLdA g1) i) j + nth 0 (nth [::] (dLdA g1) i) j,
        forall i, nth 0 (dLdB g) i = 3 * nth 0 (dLdB g1) i + nth 0 (dLdB g1) i
      & dLdC g = 3 * dLdC g1 + dLdC g1].
Proof.
move=> env g g1; split; first by [].
exact: (@grad_linear algC as_allocated env 3 ones2 ones2 (erefl _)).
Defined.

End FockSolutions.
